(** * The Password Game: rule validators and the rule-reveal engine

    Shallow embedding of [src/app/page.tsx] and of the variants kept in
    [src/schema/password-schema.tsx].

    - JavaScript strings are sequences of UTF-16 code units: [jsstring]
      is [list N].
    - Regular-expression literals are transcribed into the syntax [regex]
      and run by a backtracking matcher written in continuation-passing
      style, following the matcher semantics of ECMA-262 (clause
      "Pattern Semantics"); [test], [match_], [split] and [replace] are
      the built-ins the validators call.
    - JavaScript numbers are IEEE-754 binary64 values ([spec_float] from
      the Standard Library's [SpecFloat], precision 53, emax 1024).
    - A function call either returns or throws: [completion]. *)

From Stdlib Require Import List NArith ZArith Bool Arith Lia ZifyBool ZifyN.
From Stdlib Require Import Ascii SpecFloat Sorted.
From Stdlib Require String.
Import ListNotations.
Import String.StringSyntax.
Delimit Scope string_scope with string.

Set Implicit Arguments.

(** ** Strings *)

Definition jsstring := list N.

(** The code unit of an ASCII character, and the string of a literal. *)
Definition cu (a : ascii) : N := N_of_ascii a.

Fixpoint str (s : String.string) : jsstring :=
  match s with
  | String.EmptyString => []
  | String.String a s' => cu a :: str s'
  end.
Arguments str s%_string.

Fixpoint jsstring_eqb (s t : jsstring) : bool :=
  match s, t with
  | [], [] => true
  | a :: s', b :: t' => N.eqb a b && jsstring_eqb s' t'
  | _, _ => false
  end.

(** ** Character classes *)

Definition in_range (lo hi c : N) : bool := N.leb lo c && N.leb c hi.

(** [\d] and [[0-9]] *)
Definition is_digit (c : N) : bool := in_range 48 57 c.
(** [[A-Z]] *)
Definition is_upper (c : N) : bool := in_range 65 90 c.
(** [[a-z]] *)
Definition is_lower (c : N) : bool := in_range 97 122 c.
(** [[!@#$%^&*()]] *)
Definition is_special (c : N) : bool :=
  existsb (N.eqb c) (str "!@#$%^&*()").
(** [[0-2]] *)
Definition is_0_2 (c : N) : bool := in_range 48 50 c.
(** [[+\-*/]] *)
Definition is_operator (c : N) : bool :=
  existsb (N.eqb c) (str "+-*/").

(** LineTerminator: LF, CR, U+2028, U+2029. *)
Definition is_line_terminator (c : N) : bool :=
  existsb (N.eqb c) [10; 13; 8232; 8233]%N.
(** [.] (no [s] flag) *)
Definition is_dot (c : N) : bool := negb (is_line_terminator c).

(** [\s]: WhiteSpace and LineTerminator code points. *)
Definition is_space (c : N) : bool :=
  in_range 9 13 c
  || existsb (N.eqb c) [32; 160; 5760; 8232; 8233; 8239; 8287; 12288; 65279]%N
  || in_range 8192 8202 c.

(** [\w], which also decides [\b]. *)
Definition is_word_char (c : N) : bool :=
  is_lower c || is_upper c || is_digit c || N.eqb c 95.

(** ** Regular expressions *)

Inductive regex : Type :=
| Empty                                  (* the empty alternative *)
| Char (c : N)                           (* a pattern character *)
| Class (invert : bool) (p : N -> bool)  (* [[...]], [[^...]], [\d], [\s], [.] *)
| Seq (r1 r2 : regex)
| Alt (r1 r2 : regex)                    (* r1|r2 *)
| Repeat (r : regex) (min : nat) (max : option nat)  (* greedy quantifier *)
| Group (n : nat) (r : regex)            (* the n-th capturing parentheses *)
| Backref (n : nat)                      (* \n *)
| WordBoundary.                          (* \b *)

Declare Scope regex_scope.
Delimit Scope regex_scope with re.
Bind Scope regex_scope with regex.
Notation "r1 ++ r2" := (Seq r1 r2) : regex_scope.
Notation "r1 || r2" := (Alt r1 r2) : regex_scope.

Definition Star (r : regex) : regex := Repeat r 0 None.      (* r* *)
Definition Plus (r : regex) : regex := Repeat r 1 None.      (* r+ *)
Definition Exactly (n : nat) (r : regex) : regex := Repeat r n (Some n).  (* r{n} *)

(** The pattern of a run of literal characters. *)
Fixpoint lit (s : String.string) : regex :=
  match s with
  | String.EmptyString => Empty
  | String.String a String.EmptyString => Char (cu a)
  | String.String a s' => Seq (Char (cu a)) (lit s')
  end.
Arguments lit s%_string.

Definition digit : regex := Class false is_digit.     (* \d *)
Definition space : regex := Class false is_space.     (* \s *)
Definition dot : regex := Class false is_dot.         (* . *)

(** The capturing parentheses of a pattern, left to right. *)
Fixpoint parens (r : regex) : list nat :=
  match r with
  | Seq r1 r2 | Alt r1 r2 => parens r1 ++ parens r2
  | Repeat r1 _ _ => parens r1
  | Group n r1 => n :: parens r1
  | _ => []
  end.

(** ** The matcher *)

(** A match state: the input is split at the current end index into the
    code units before it ([consumed], latest first) and those after it
    ([rest]); [captures] holds the value of group [n] at index [n-1]. *)
Record MatchState : Type := mkState {
  consumed : list N;
  rest : jsstring;
  captures : list (option jsstring)
}.

Definition endIndex (x : MatchState) : nat := length (consumed x).

Definition MatchResult := option MatchState.
Definition Continuation := MatchState -> MatchResult.
Definition Matcher := MatchState -> Continuation -> MatchResult.

Fixpoint set_nth {A} (n : nat) (v : A) (l : list A) : list A :=
  match l, n with
  | [], _ => []
  | _ :: l', 0 => v :: l'
  | a :: l', S n' => a :: set_nth n' v l'
  end.

Definition setCapture (n : nat) (v : option jsstring) (x : MatchState) : MatchState :=
  mkState (consumed x) (rest x) (set_nth (n - 1) v (captures x)).

Definition getCapture (n : nat) (x : MatchState) : option jsstring :=
  nth (n - 1) (captures x) None.

(** Canonicalize of a pattern without the [u] flag.  Code units outside
    ASCII never canonicalize to an ASCII one (ECMA-262, Canonicalize, the
    step that returns [ch] when its value is at least 128 and the upper
    case is below 128), and the patterns of this program have ASCII
    literals only, so the case mapping is kept to ASCII letters. *)
Definition canonicalize (ignoreCase : bool) (c : N) : N :=
  if ignoreCase && is_lower c then (c - 32)%N else c.

Definition lower_of (c : N) : N := if is_upper c then (c + 32)%N else c.

(** Does the class [p] hold a member whose canonical form is that of [ch]? *)
Definition class_mem (ignoreCase : bool) (p : N -> bool) (ch : N) : bool :=
  if ignoreCase
  then p ch || p (canonicalize true ch) || p (lower_of ch)
  else p ch.

Definition characterSetMatcher (ignoreCase invert : bool) (p : N -> bool) : Matcher :=
  fun x c =>
    match rest x with
    | [] => None
    | ch :: rest' =>
        if xorb invert (class_mem ignoreCase p ch)
        then c (mkState (ch :: consumed x) rest' (captures x))
        else None
    end.

(** [advance s x]: the state after the code units [s] when [rest x]
    starts with them up to canonicalization. *)
Fixpoint advance (ignoreCase : bool) (s : jsstring) (x : MatchState) : MatchResult :=
  match s with
  | [] => Some x
  | a :: s' =>
      match rest x with
      | [] => None
      | ch :: rest' =>
          if N.eqb (canonicalize ignoreCase a) (canonicalize ignoreCase ch)
          then advance ignoreCase s' (mkState (ch :: consumed x) rest' (captures x))
          else None
      end
  end.

Definition backreferenceMatcher (ignoreCase : bool) (n : nat) : Matcher :=
  fun x c =>
    match getCapture n x with
    | None => c x
    | Some s =>
        match advance ignoreCase s x with
        | Some y => c y
        | None => None
        end
    end.

Definition isWordCharBefore (x : MatchState) : bool :=
  match consumed x with [] => false | ch :: _ => is_word_char ch end.

Definition isWordCharAt (x : MatchState) : bool :=
  match rest x with [] => false | ch :: _ => is_word_char ch end.

Definition resetCaptures (ns : list nat) (x : MatchState) : MatchState :=
  fold_left (fun y n => setCapture n None y) ns x.

(** RepeatMatcher for a greedy quantifier.  An iteration that has met its
    minimum must move the end index, so [min] plus the number of code
    units left bounds the iterations; [fuel] starts at that bound, and
    when it is used up no further iteration can succeed: more fuel gives
    the same result ([compile_repeat_fuel] below). *)
Fixpoint repeatMatcher (m : Matcher) (ps : list nat) (fuel min : nat)
    (max : option nat) (x : MatchState) (c : Continuation) : MatchResult :=
  match max with
  | Some 0 => c x
  | _ =>
      match fuel with
      | 0 => c x
      | S fuel' =>
          let d : Continuation := fun y =>
            if (min =? 0) && (endIndex y =? endIndex x) then None
            else repeatMatcher m ps fuel' (min - 1) (option_map pred max) y c in
          let xr := resetCaptures ps x in
          if negb (min =? 0) then m xr d
          else match m xr d with
               | Some z => Some z
               | None => c x
               end
      end
  end.

Fixpoint compile (ignoreCase : bool) (r : regex) : Matcher :=
  match r with
  | Empty => fun x c => c x
  | Char ch => characterSetMatcher ignoreCase false (N.eqb ch)
  | Class invert p => characterSetMatcher ignoreCase invert p
  | Seq r1 r2 => fun x c =>
      compile ignoreCase r1 x (fun y => compile ignoreCase r2 y c)
  | Alt r1 r2 => fun x c =>
      match compile ignoreCase r1 x c with
      | Some z => Some z
      | None => compile ignoreCase r2 x c
      end
  | Repeat r1 min max => fun x c =>
      repeatMatcher (compile ignoreCase r1) (parens r1)
        (min + length (rest x)) min max x c
  | Group n r1 => fun x c =>
      compile ignoreCase r1 x (fun y =>
        c (setCapture n
             (Some (rev (firstn (endIndex y - endIndex x) (consumed y)))) y))
  | Backref n => backreferenceMatcher ignoreCase n
  | WordBoundary => fun x c =>
      if xorb (isWordCharBefore x) (isWordCharAt x) then c x else None
  end.

(** A regular expression object: pattern and the [i] flag. *)
Record RegExp : Type := mkRegExp {
  source : regex;
  ignoreCase : bool
}.

Definition nCaptures (re : RegExp) : nat := length (parens (source re)).

(** The match that starts at the given index, if any. *)
Definition matchAt (re : RegExp) (before after : list N) : MatchResult :=
  compile (ignoreCase re) (source re)
    (mkState before after (repeat None (nCaptures re))) Some.

(** RegExpBuiltinExec without [g] or [y]: the first index, from 0 on,
    at which the pattern matches.  Returns the start index and the end
    state. *)
Fixpoint execFrom (re : RegExp) (before after : list N) : option (nat * MatchState) :=
  match matchAt re before after with
  | Some y => Some (length before, y)
  | None =>
      match after with
      | [] => None
      | ch :: after' => execFrom re (ch :: before) after'
      end
  end.

(** [re.test(s)] *)
Definition test (re : RegExp) (s : jsstring) : bool :=
  match execFrom re [] s with Some _ => true | None => false end.

(** [s.match(re)] for a pattern without [g]: [null], or the array of the
    matched substring followed by the captures ([undefined] is [None]). *)
Definition match_ (s : jsstring) (re : RegExp) : option (list (option jsstring)) :=
  match execFrom re [] s with
  | None => None
  | Some (start, y) =>
      Some (Some (rev (firstn (endIndex y - start) (consumed y))) :: captures y)
  end.

(** [s.split(re)] (RegExp.prototype[Symbol.split]) for a separator
    pattern without capturing parentheses.  The specification tries a
    sticky match at each index [q] from the start [p] of the current
    piece; on a match ending at [e <> p] it emits the piece [p..q) and
    resumes at [p = q = e].  Here the input is walked once: [piece]
    holds the code units of [p..q) (latest first) and [skip] counts the
    code units of the separator still to be passed over. *)
Fixpoint splitLoop (re : RegExp) (skip : nat) (piece before after : list N)
  : list jsstring :=
  match after with
  | [] => [rev piece]
  | ch :: after' =>
      match skip with
      | S k => splitLoop re k [] (ch :: before) after'
      | 0 =>
          match matchAt re before after with
          | None => splitLoop re 0 (ch :: piece) (ch :: before) after'
          | Some y =>
              match endIndex y - length before, piece with
              | 0, [] => splitLoop re 0 [ch] (ch :: before) after'
              | 0, _ => rev piece :: splitLoop re 0 [ch] (ch :: before) after'
              | S k, _ => rev piece :: splitLoop re k [] (ch :: before) after'
              end
          end
      end
  end.

Definition split (s : jsstring) (re : RegExp) : list jsstring :=
  match s with
  | [] => match matchAt re [] [] with Some _ => [] | None => [[]] end
  | _ => splitLoop re 0 [] [] s
  end.

(** [s.replace(re, by)] for a pattern with the [g] flag and a
    replacement string without [$] patterns: every match, found left to
    right from the end of the previous one (one code unit further after
    an empty match), is replaced. *)
Fixpoint replaceLoop (re : RegExp) (by_ : jsstring) (skip : nat)
    (before after : list N) : jsstring :=
  match skip with
  | S k =>
      match after with
      | [] => []
      | ch :: after' => replaceLoop re by_ k (ch :: before) after'
      end
  | 0 =>
      match matchAt re before after with
      | None =>
          match after with
          | [] => []
          | ch :: after' => ch :: replaceLoop re by_ 0 (ch :: before) after'
          end
      | Some y =>
          by_ ++
          match after with
          | [] => []
          | ch :: after' =>
              match endIndex y - length before with
              | 0 => ch :: replaceLoop re by_ 0 (ch :: before) after'
              | S k => replaceLoop re by_ k (ch :: before) after'
              end
          end
      end
  end.

Definition replace (s : jsstring) (re : RegExp) (by_ : jsstring) : jsstring :=
  replaceLoop re by_ 0 [] s.

(** [s.toLowerCase()].  The letters A-Z map to a-z, U+0130 to
    "i" followed by U+0307, and U+212A (the Kelvin sign) to "k".  The
    Unicode tables map every other code unit to code units outside a-z;
    those are left in place, the program only ever deletes them
    afterwards. *)
Definition toLowerCase (s : jsstring) : jsstring :=
  flat_map (fun c =>
    if is_upper c then [(c + 32)%N]
    else if N.eqb c 304 then [105; 775]%N
    else if N.eqb c 8490 then [107]%N
    else [c]) s.

(** [s.split('')], [a.reverse()] and [a.join('')]. *)
Definition split_chars (s : jsstring) : list jsstring := map (fun c => [c]) s.
Definition reverse {A} (a : list A) : list A := rev a.
Definition join_empty (a : list jsstring) : jsstring := concat a.

(** [a.some(f)] and [a.includes(x)] *)
Definition some {A} (a : list A) (f : A -> bool) : bool := existsb f a.
Definition includes (a : list nat) (x : nat) : bool := existsb (Nat.eqb x) a.

(** ** Numbers *)

Definition number := spec_float.

Definition prec : Z := 53.
Definition emax : Z := 1024.

(** The Number value of a mathematical integer (round to nearest, ties
    to even). *)
Definition F_of_Z (z : Z) : number := binary_normalize prec emax z 0 false.

Definition NaN : number := S754_nan.

Definition num_add (x y : number) : number := SFadd prec emax x y.
Definition num_sub (x y : number) : number := SFsub prec emax x y.
Definition num_mul (x y : number) : number := SFmul prec emax x y.
Definition num_div (x y : number) : number := SFdiv prec emax x y.
(** [x === y] on Numbers: NaN differs from everything, +0 equals -0. *)
Definition num_eq (x y : number) : bool := SFeqb x y.

(** The value of a digit of the given radix, if the code unit is one. *)
Definition digit_value (radix : Z) (c : N) : option Z :=
  let v :=
    if is_digit c then Some (Z.of_N c - 48)%Z
    else if is_lower c then Some (Z.of_N c - 87)%Z
    else if is_upper c then Some (Z.of_N c - 55)%Z
    else None in
  match v with
  | Some d => if (d <? radix)%Z then Some d else None
  | None => None
  end.

(** The digits at the start of [s], accumulated most significant first:
    the integer they denote and how many there are. *)
Fixpoint parse_digits (radix : Z) (s : jsstring) (acc : Z) (n : nat) : Z * nat :=
  match s with
  | [] => (acc, n)
  | c :: s' =>
      match digit_value radix c with
      | Some d => parse_digits radix s' (acc * radix + d)%Z (S n)
      | None => (acc, n)
      end
  end.

Fixpoint trimStart (s : jsstring) : jsstring :=
  match s with
  | c :: s' => if is_space c then trimStart s' else s
  | [] => []
  end.

(** [parseInt(v)] with no radix argument; [undefined] is [None] and is
    first converted to the string "undefined".  The digits are converted
    exactly and then rounded once (ECMA-262 also allows an approximation
    from the 21st significant digit on). *)
Definition parseInt (v : option jsstring) : number :=
  let inputString := match v with Some s => s | None => str "undefined" end in
  let S0 := trimStart inputString in
  let '(negative, S1) :=
    match S0 with
    | c :: S' =>
        if N.eqb c (cu "-") then (true, S')
        else if N.eqb c (cu "+") then (false, S')
        else (false, S0)
    | [] => (false, S0)
    end in
  let '(radix, S2) :=
    match S1 with
    | c0 :: c1 :: S' =>
        if N.eqb c0 (cu "0") && (N.eqb c1 (cu "x") || N.eqb c1 (cu "X"))
        then (16%Z, S') else (10%Z, S1)
    | _ => (10%Z, S1)
    end in
  let '(mathInt, n) := parse_digits radix S2 0%Z 0 in
  match n with
  | 0 => NaN
  | _ =>
      if (mathInt =? 0)%Z then S754_zero negative
      else F_of_Z (if negative then - mathInt else mathInt)
  end.

(** ** Completions *)

Inductive error : Type := TypeError.

Inductive completion (A : Type) : Type :=
| Normal (a : A)
| Throw (e : error).
Arguments Throw {A} e.

Definition bind {A B} (m : completion A) (f : A -> completion B) : completion B :=
  match m with
  | Normal a => f a
  | Throw e => Throw e
  end.

Notation "x <- m ;; k" := (bind m (fun x => k))
  (at level 61, m at next level, right associativity).

(** [try { body } catch { handler }] *)
Definition tryCatch {A} (body : completion A) (handler : completion A) : completion A :=
  match body with
  | Normal a => Normal a
  | Throw _ => handler
  end.

(** [a.filter(f)] with a callback that may throw. *)
Fixpoint filterM {A} (f : A -> completion bool) (a : list A) : completion (list A) :=
  match a with
  | [] => Normal []
  | x :: a' =>
      keep <- f x ;;
      tl <- filterM f a' ;;
      Normal (if keep then x :: tl else tl)
  end.

(** ** The rule set ([rules] in [PasswordGamePage]) *)

Record Rule : Type := mkRule {
  id : nat;
  description : String.string;
  validator : jsstring -> completion bool
}.
Arguments mkRule id%_nat description%_string validator.

(** [/[0-9]/] *)
Definition re_number : RegExp := mkRegExp (Class false is_digit) false.
(** [/[A-Z]/] *)
Definition re_uppercase : RegExp := mkRegExp (Class false is_upper) false.
(** [/[!@#$%^&*()]/] *)
Definition re_special : RegExp := mkRegExp (Class false is_special) false.
(** [/(.)\1{2}/] *)
Definition re_repeated : RegExp :=
  mkRegExp (Group 1 dot ++ Exactly 2 (Backref 1)) false.
(** [/\s+/] *)
Definition re_spaces : RegExp := mkRegExp (Plus space) false.
(** [/[^a-z]/g] *)
Definition re_non_letter : RegExp := mkRegExp (Class true is_lower) false.
(** [/\b(19\d{2}|20[0-2]\d)\b/] *)
Definition re_year : RegExp :=
  mkRegExp
    (WordBoundary
     ++ Group 1 ((lit "19" ++ Exactly 2 digit)
                 || (lit "20" ++ Class false is_0_2 ++ digit))
     ++ WordBoundary)
    false.
(** [/\b(love|dove)\b.*\b(above|move)\b/i] and its two siblings *)
Definition re_couplet (a1 a2 b1 b2 : String.string) : RegExp :=
  mkRegExp
    (WordBoundary ++ Group 1 (lit a1 || lit a2) ++ WordBoundary
     ++ Star dot
     ++ WordBoundary ++ Group 2 (lit b1 || lit b2) ++ WordBoundary)
    true.
Arguments re_couplet (a1 a2 b1 b2)%_string.
Definition couplets : list RegExp :=
  [ re_couplet "love" "dove" "above" "move";
    re_couplet "heart" "smart" "art" "part";
    re_couplet "light" "bright" "height" "might" ].
(** [/(\d+)\s*([+\-*/])\s*(\d+)\s*=\s*(\d+)/] *)
Definition re_equation : RegExp :=
  mkRegExp
    (Group 1 (Plus digit) ++ Star space
     ++ Group 2 (Class false is_operator) ++ Star space
     ++ Group 3 (Plus digit) ++ Star space
     ++ Char (cu "=") ++ Star space
     ++ Group 4 (Plus digit))
    false.
(** [/einstein.*relativity/i] and its siblings *)
Definition historicalReferences : list RegExp :=
  [ mkRegExp (lit "einstein" ++ Star dot ++ lit "relativity") true;
    mkRegExp (lit "newton" ++ Star dot ++ lit "gravity") true;
    mkRegExp (lit "marie" ++ Star space ++ lit "curie" ++ Star dot
              ++ lit "radioactivity") true;
    mkRegExp (lit "tesla" ++ Star dot ++ lit "electricity") true ].

Definition validator1 (value : jsstring) : completion bool :=
  Normal (5 <=? length value).

Definition validator2 (value : jsstring) : completion bool :=
  Normal (test re_number value).

Definition validator3 (value : jsstring) : completion bool :=
  Normal (test re_uppercase value).

Definition validator4 (value : jsstring) : completion bool :=
  Normal (test re_special value).

Definition validator5 (value : jsstring) : completion bool :=
  Normal (negb (test re_repeated value)).

(** [word.toLowerCase().replace(/[^a-z]/g, '')] *)
Definition cleaned (word : jsstring) : jsstring :=
  replace (toLowerCase word) re_non_letter [].

Definition validator6 (value : jsstring) : completion bool :=
  let words := split value re_spaces in
  Normal (some words (fun word =>
    let cleaned := cleaned word in
    (3 <=? length cleaned)
    && jsstring_eqb cleaned (join_empty (reverse (split_chars cleaned))))).

Definition validator7 (value : jsstring) : completion bool :=
  Normal (test re_year value).

Definition validator8 (value : jsstring) : completion bool :=
  Normal (some couplets (fun couplet => test couplet value)).

(** [const [, a, op, b, result] = matches]: destructuring [null] throws. *)
Definition destructure (matches : option (list (option jsstring)))
  : completion (option jsstring * option jsstring * option jsstring * option jsstring) :=
  match matches with
  | None => Throw TypeError
  | Some arr => Normal (nth 1 arr None, nth 2 arr None, nth 3 arr None, nth 4 arr None)
  end.

(** [op === '+'] and the like, [op] possibly [undefined]. *)
Definition is_string (op : option jsstring) (s : String.string) : bool :=
  match op with
  | Some o => jsstring_eqb o (str s)
  | None => false
  end.
Arguments is_string op s%_string.

(** The [try] block of rule 9. *)
Definition validator9_try (value : jsstring) : completion bool :=
  let matches := match_ value re_equation in
  match matches with
  | None => Normal false
  | Some _ =>
      parts <- destructure matches ;;
      let '(a, op, b, result) := parts in
      if is_string op "+" then
        Normal (num_eq (num_add (parseInt a) (parseInt b)) (parseInt result))
      else if is_string op "-" then
        Normal (num_eq (num_sub (parseInt a) (parseInt b)) (parseInt result))
      else if is_string op "*" then
        Normal (num_eq (num_mul (parseInt a) (parseInt b)) (parseInt result))
      else if is_string op "/" then
        Normal (num_eq (num_div (parseInt a) (parseInt b)) (parseInt result))
      else Normal false
  end.

Definition validator9 (value : jsstring) : completion bool :=
  tryCatch (validator9_try value) (Normal false).

Definition validator10 (value : jsstring) : completion bool :=
  Normal (some historicalReferences (fun ref => test ref value)).

Definition rules : list Rule :=
  [ mkRule 1 "Your password must be at least 5 characters." validator1;
    mkRule 2 "Your password must include a number." validator2;
    mkRule 3 "Your password must include an uppercase letter" validator3;
    mkRule 4 "Your password must include a special character (!@#$%^&*())" validator4;
    mkRule 5 "Your password cannot have 3 consecutive repeated characters" validator5;
    mkRule 6 "Your password must contain a palindrome word (min 3 letters)" validator6;
    mkRule 7 "Your password must include a year between 1900 and 2024" validator7;
    mkRule 8 "Your password must include lyrics that form a complete rhyming couplet" validator8;
    mkRule 9 "Your password must contain a mathematical equation that resolves to an integer" validator9;
    mkRule 10 "Your password must reference a famous historical figure and their significant achievement" validator10 ].

(** The three-rule set of the first version of the page. *)
Definition rules3 : list Rule := firstn 3 rules.

(** ** The reveal engine *)

Section Engine.

(** The rule set in use; [rules.length] is [length rs]. *)
Variable rs : list Rule.

(** [rules.find((rule) => rule.id === i)] *)
Definition find_rule (i : nat) : option Rule :=
  find (fun rule => id rule =? i) rs.

(** [currentRule && currentRule.validator(password)] *)
Definition evaluate (i : nat) (password : jsstring) : completion bool :=
  match find_rule i with
  | Some currentRule => validator currentRule password
  | None => Normal false
  end.

(** [updateVisibleRules]: the new value of the [visibleRules] state from
    the watched [password] and the previous state. *)
Definition updateVisibleRules (password : jsstring) (prevVisibleRules : list nat)
  : completion (list nat) :=
  match password with
  | [] => Normal []
  | _ :: _ =>
      if length prevVisibleRules =? 0 then Normal [1]
      else
        let lastVisibleRule :=
          nth (length prevVisibleRules - 1) prevVisibleRules 0 in
        valid <- evaluate lastVisibleRule password ;;
        if valid then
          let nextRuleId := lastVisibleRule + 1 in
          if (nextRuleId <=? length rs)
             && negb (includes prevVisibleRules nextRuleId)
          then Normal (prevVisibleRules ++ [nextRuleId])
          else Normal prevVisibleRules
        else Normal prevVisibleRules
  end.

(** [fulfilledRules] and [unfulfilledRules] of the variant that shows the
    failing rules first. *)
Definition fulfilledRules (visibleRules : list nat) (password : jsstring)
  : completion (list Rule) :=
  filterM (fun rule =>
    if includes visibleRules (id rule) then validator rule password
    else Normal false) rs.

Definition unfulfilledRules (visibleRules : list nat) (password : jsstring)
  : completion (list Rule) :=
  filterM (fun rule =>
    if includes visibleRules (id rule)
    then (valid <- validator rule password ;; Normal (negb valid))
    else Normal false) rs.

(** The states the engine can be in: the initial empty state and what
    [updateVisibleRules] returns from a state it can be in. *)
Inductive reachable : list nat -> Prop :=
| reachable_init : reachable []
| reachable_update (password : jsstring) (prev new : list nat) :
    reachable prev ->
    updateVisibleRules password prev = Normal new ->
    reachable new.

End Engine.


(** ** Vocabulary of the properties *)

(** A list of ids is strictly increasing. *)
Fixpoint increasing (l : list nat) : bool :=
  match l with
  | a :: (b :: _) as t => (a <? b) && increasing t
  | _ => true
  end.


(** The longest prefix of code units in a class, and what follows it. *)
Fixpoint takeWhile (p : N -> bool) (l : jsstring) : jsstring :=
  match l with
  | c :: l' => if p c then c :: takeWhile p l' else []
  | [] => []
  end.

Fixpoint dropWhile (p : N -> bool) (l : jsstring) : jsstring :=
  match l with
  | c :: l' => if p c then dropWhile p l' else l
  | [] => []
  end.

(** [l] does not start with a code unit of the class. *)
Definition no_head (p : N -> bool) (l : jsstring) : Prop :=
  match l with
  | c :: _ => p c = false
  | [] => True
  end.

(** Every code unit of [l] is in the class. *)
Definition all_in (p : N -> bool) (l : jsstring) : Prop :=
  forallb p l = true.

(** What a greedy [[p]*] computes: the continuation is tried after the
    longest run first, then after each shorter one. *)
Fixpoint star_run (p : N -> bool) (c : Continuation) (before after : list N)
    (caps : list (option jsstring)) : MatchResult :=
  match after with
  | ch :: after' =>
      if p ch then
        match star_run p c (ch :: before) after' caps with
        | Some z => Some z
        | None => c (mkState before after caps)
        end
      else c (mkState before after caps)
  | [] => c (mkState before [] caps)
  end.

(** A pattern that cannot match where the next code unit is outside [q]
    or the input has ended. *)
Definition starts_in (q : N -> bool) (r : regex) : Prop :=
  forall x c, no_head q (rest x) -> compile false r x c = None.

(** [y] is the state [x] moved on by some number of code units. *)
Definition later (x y : MatchState) : Prop :=
  exists k, length (rest x) = k + length (rest y) /\ endIndex y = endIndex x + k.

(** The result of a matcher depends on its continuation only through
    what the continuation gives on later states. *)
Definition calls_later (m : Matcher) : Prop :=
  forall x c c', (forall y, later x y -> c y = c' y) -> m x c = m x c'.

(** A matcher succeeds only through its continuation. *)
Definition fails_alone (m : Matcher) : Prop :=
  forall x, m x (fun _ => None) = None.

(** The text of rule 9's pattern read from the start of [after], every
    run of digits and of white space taken as long as it goes: the end
    state of the match, or [None] when the text does not start with
    "digits, operator, digits, =, digits". *)
Definition scan_equation (before after : list N) : MatchResult :=
  match takeWhile is_digit after with
  | [] => None
  | a =>
    let t1 := dropWhile is_digit after in
    let w1 := takeWhile is_space t1 in
    match dropWhile is_space t1 with
    | op :: t3 =>
      if is_operator op then
        let w2 := takeWhile is_space t3 in
        let t4 := dropWhile is_space t3 in
        match takeWhile is_digit t4 with
        | [] => None
        | b =>
          let t5 := dropWhile is_digit t4 in
          let w3 := takeWhile is_space t5 in
          match dropWhile is_space t5 with
          | e :: t7 =>
            if N.eqb (cu "=") e then
              let w4 := takeWhile is_space t7 in
              let t8 := dropWhile is_space t7 in
              match takeWhile is_digit t8 with
              | [] => None
              | r =>
                Some (mkState
                        (rev r ++ rev w4 ++ e :: rev w3 ++ rev b ++ rev w2
                         ++ op :: rev w1 ++ rev a ++ before)
                        (dropWhile is_digit t8)
                        [Some a; Some [op]; Some b; Some r])
              end
            else None
          | [] => None
          end
        end
      else None
    | [] => None
    end
  end.

(** [t] reads "digits, operator, digits, =, digits" with optional white
    space around the operator and around the equals sign; [a], [op], [b]
    and [r] are its left operand, operator, right operand and result. *)
Definition equation_text (t a : jsstring) (op : N) (b r : jsstring) : Prop :=
  exists w1 w2 w3 w4 : jsstring,
    t = a ++ w1 ++ op :: w2 ++ b ++ w3 ++ cu "=" :: w4 ++ r
    /\ (all_in is_digit a /\ a <> [])
    /\ all_in is_space w1 /\ is_operator op = true /\ all_in is_space w2
    /\ (all_in is_digit b /\ b <> [])
    /\ all_in is_space w3 /\ all_in is_space w4
    /\ (all_in is_digit r /\ r <> []).

(** [s] contains a substring of that form, starting at index [start]. *)
Definition equation_at (s : jsstring) (start : nat) (t a : jsstring) (op : N)
    (b r : jsstring) : Prop :=
  exists pre post : jsstring,
    s = pre ++ t ++ post /\ length pre = start /\ equation_text t a op b r.

(** The leftmost substring of that form, with its result taken as long
    as the digits go. *)
Definition first_equation (s t a : jsstring) (op : N) (b r : jsstring) : Prop :=
  exists pre post : jsstring,
    s = pre ++ t ++ post /\ equation_text t a op b r /\ no_head is_digit post
    /\ forall start' t' a' op' b' r',
         equation_at s start' t' a' op' b' r' -> length pre <= start'.

(** The integer that a run of decimal digits denotes. *)
Definition decimal (ds : jsstring) : Z :=
  fold_left (fun acc c => (acc * 10 + (Z.of_N c - 48))%Z) ds 0%Z.

(** The operation an operator sign stands for, on Numbers. *)
Definition number_op (op : N) : option (number -> number -> number) :=
  if N.eqb op (cu "+") then Some num_add
  else if N.eqb op (cu "-") then Some num_sub
  else if N.eqb op (cu "*") then Some num_mul
  else if N.eqb op (cu "/") then Some num_div
  else None.

(** "a op b = r" holds in Number arithmetic: the operation on the
    Number values of [a] and [b] gives a Number equal to that of [r]. *)
Definition holds_in_numbers (a : jsstring) (op : N) (b r : jsstring) : bool :=
  match number_op op with
  | Some f => num_eq (f (F_of_Z (decimal a)) (F_of_Z (decimal b))) (F_of_Z (decimal r))
  | None => false
  end.

(** "a op b = r" holds in exact integer arithmetic; a quotient is exact
    when the divisor is not zero and divides with the result [r]. *)
Definition holds_exactly (a : jsstring) (op : N) (b r : jsstring) : bool :=
  if N.eqb op (cu "+") then (decimal a + decimal b =? decimal r)%Z
  else if N.eqb op (cu "-") then (decimal a - decimal b =? decimal r)%Z
  else if N.eqb op (cu "*") then (decimal a * decimal b =? decimal r)%Z
  else if N.eqb op (cu "/") then
    negb (decimal b =? 0)%Z && (decimal a =? decimal b * decimal r)%Z
  else false.

(** A four-digit year token of rule 7: 1900 to 2029. *)
Definition is_year (y : jsstring) : Prop :=
  length y = 4 /\ all_in is_digit y /\ (1900 <= decimal y <= 2029)%Z.

(** [l] is empty or starts with a code unit of the class. *)
Definition head_in (p : N -> bool) (l : jsstring) : Prop :=
  match l with
  | c :: _ => p c = true
  | [] => True
  end.

Definition not_space (c : N) : bool := negb (is_space c).

(** [w] is a white-space-delimited word of [s]: a non-empty run without
    white space, with white space or an end of [s] on either side. *)
Definition is_word (s w : jsstring) : Prop :=
  exists pre post : jsstring,
    s = pre ++ w ++ post /\ w <> [] /\ all_in not_space w
    /\ head_in is_space (rev pre) /\ head_in is_space post.

(** The pieces between the runs of white space of [l], read left to
    right: [cur] is the piece being read (latest code unit first) and
    [sep] tells that the last code unit read was white space. *)
Fixpoint fields (cur : list N) (sep : bool) (l : jsstring) : list jsstring :=
  match l with
  | [] => [rev cur]
  | ch :: l' =>
      if is_space ch
      then if sep then fields [] true l' else rev cur :: fields [] true l'
      else fields (ch :: cur) false l'
  end.

(** A word lowercased and with everything but the letters a-z removed. *)
Definition letters (w : jsstring) : jsstring := filter is_lower (toLowerCase w).

(** A string reads the same in both directions. *)
Definition palindrome (l : jsstring) : Prop := l = rev l.

(** [s] contains a substring of the equation form that is correct in
    exact integer arithmetic. *)
Definition contains_correct_equation (s : jsstring) : Prop :=
  exists start t a op b r,
    equation_at s start t a op b r /\ holds_exactly a op b r = true.

(** [s] contains three identical consecutive code units. *)
Definition has_triple (s : jsstring) : Prop :=
  exists pre c post, s = pre ++ c :: c :: c :: post.

(** [s] contains three identical consecutive code units that are not a
    line terminator, that is, that [.] matches. *)
Definition has_dot_triple (s : jsstring) : Prop :=
  exists pre c post,
    s = pre ++ c :: c :: c :: post /\ is_line_terminator c = false.

(** [value] holds a four-digit year of rule 7 as a whole word: no word
    character ([A-Za-z0-9_]) stands right before it or right after it. *)
Definition contains_year (value : jsstring) : Prop :=
  exists pre y post,
    value = pre ++ y ++ post /\ is_year y
    /\ no_head is_word_char (rev pre) /\ no_head is_word_char post.

(** A password for the examples. *)
Definition full_password : jsstring :=
  str "Abcde1! level 1984 love above 2+2=4 Einstein relativity".

(** * Further code of the pages *)

(** ** The effect, run again after each change of the state *)

(** [useEffect(() => { updateVisibleRules() }, ...)] runs after a render
    and renders again when the state has changed: [n] runs of
    [updateVisibleRules] with the password unchanged. *)
Fixpoint updateTimes (rs : list Rule) (n : nat) (password : jsstring)
    (visibleRules : list nat) : completion (list nat) :=
  match n with
  | 0 => Normal visibleRules
  | S n' =>
      next <- updateVisibleRules rs password visibleRules ;;
      updateTimes rs n' password next
  end.

(** How many rules pass from the first one on, before one does not. *)
Fixpoint leading (rs : list Rule) (password : jsstring) : nat :=
  match rs with
  | [] => 0
  | r :: rs' =>
      match validator r password with
      | Normal true => S (leading rs' password)
      | _ => 0
      end
  end.

(** A rule set as the pages write them: not empty, the ids 1, 2, ... in
    order, and validators that return. *)
Definition numbered (rs : list Rule) : Prop :=
  rs <> []
  /\ map id rs = seq 1 (length rs)
  /\ forall r value, In r rs -> exists valid, validator r value = Normal valid.

(** ** The rule cards ([rules.map(...)] in the JSX) *)

(** What a card shows: the number of its rule (also its [key]), the
    colour and icon chosen by [isValid], and the description. *)
Record Card : Type := mkCard {
  key : nat;
  isValid : bool;
  text : String.string
}.

(** [a.map(f)] with a callback that may throw. *)
Fixpoint mapM {A B} (f : A -> completion B) (a : list A) : completion (list B) :=
  match a with
  | [] => Normal []
  | x :: a' =>
      y <- f x ;;
      tl <- mapM f a' ;;
      Normal (y :: tl)
  end.

(** The children of the card list in [PasswordGamePage]: [null] for a
    rule that is not visible, and
    [isValid = password ? rule.validator(password) : false]. *)
Definition renderRules (rs : list Rule) (visibleRules : list nat)
    (password : jsstring) : completion (list (option Card)) :=
  mapM (fun rule =>
    if negb (includes visibleRules (id rule)) then Normal None
    else
      isValid <- match password with
                 | [] => Normal false
                 | _ :: _ => validator rule password
                 end ;;
      Normal (Some (mkCard (id rule) isValid (description rule)))) rs.

(** React renders nothing for [null]. *)
Fixpoint shown (children : list (option Card)) : list Card :=
  match children with
  | [] => []
  | Some card :: children' => card :: shown children'
  | None :: children' => shown children'
  end.

(** The children of the card list in the variant that shows the failing
    rules first: [fulfilledRules] and [unfulfilledRules] are computed in
    this order, then [unfulfilledRules.map(...)] is placed above
    [fulfilledRules.map(...)]. *)
Definition renderSorted (rs : list Rule) (visibleRules : list nat)
    (password : jsstring) : completion (list Card) :=
  fulfilled <- fulfilledRules rs visibleRules password ;;
  unfulfilled <- unfulfilledRules rs visibleRules password ;;
  Normal (map (fun rule => mkCard (id rule) false (description rule)) unfulfilled
          ++ map (fun rule => mkCard (id rule) true (description rule)) fulfilled).

(** The verdict of a rule whose validator returns. *)
Definition passes (password : jsstring) (r : Rule) : bool :=
  match validator r password with
  | Normal true => true
  | _ => false
  end.


(** ** What a pattern without back-references matches *)

(** The code units that a pattern of one character or one class takes. *)
Definition single (ignoreCase : bool) (r : regex) : option (N -> bool) :=
  match r with
  | Char a => Some (class_mem ignoreCase (N.eqb a))
  | Class invert p => Some (fun ch => xorb invert (class_mem ignoreCase p ch))
  | _ => None
  end.

(** [n] is within the upper bound of a quantifier. *)
Definition within (max : option nat) (n : nat) : Prop :=
  match max with
  | Some k => n <= k
  | None => True
  end.

(** The patterns of the pages other than rule 5's: no back-reference,
    and every quantifier is put on a single character or class, with
    bounds in order. *)
Fixpoint plain (r : regex) : bool :=
  match r with
  | Empty | Char _ | Class _ _ | WordBoundary => true
  | Seq r1 r2 | Alt r1 r2 => plain r1 && plain r2
  | Repeat r1 min max =>
      match r1 with Char _ | Class _ _ => true | _ => false end
      && match max with Some k => min <=? k | None => true end
  | Group _ r1 => plain r1
  | Backref _ => false
  end.

(** [denotes ic r before w after]: the plain pattern [r] matches the
    text [w] where [before] (latest code unit first) stands before it
    and [after] follows it. *)
Fixpoint denotes (ignoreCase : bool) (r : regex) (before : list N)
    (w after : jsstring) : Prop :=
  match r with
  | Empty => w = []
  | Char _ | Class _ _ =>
      match single ignoreCase r with
      | Some q => exists ch, w = [ch] /\ q ch = true
      | None => False
      end
  | Seq r1 r2 =>
      exists w1 w2,
        w = w1 ++ w2
        /\ denotes ignoreCase r1 before w1 (w2 ++ after)
        /\ denotes ignoreCase r2 (rev w1 ++ before) w2 after
  | Alt r1 r2 =>
      denotes ignoreCase r1 before w after \/ denotes ignoreCase r2 before w after
  | Repeat r1 min max =>
      match single ignoreCase r1 with
      | Some q => all_in q w /\ min <= length w /\ within max (length w)
      | None => False
      end
  | Group _ r1 => denotes ignoreCase r1 before w after
  | Backref _ => False
  | WordBoundary =>
      w = []
      /\ xorb (match before with [] => false | ch :: _ => is_word_char ch end)
              (match after with [] => false | ch :: _ => is_word_char ch end)
         = true
  end.

(** A pattern without [\b]: what it matches does not depend on what
    stands around the text. *)
Fixpoint context_free (r : regex) : bool :=
  match r with
  | WordBoundary => false
  | Seq r1 r2 | Alt r1 r2 => context_free r1 && context_free r2
  | Repeat r1 _ _ | Group _ r1 => context_free r1
  | Empty | Char _ | Class _ _ | Backref _ => true
  end.

(** A continuation whose failure does not depend on the captures. *)
Definition blind (c : Continuation) : Prop :=
  forall before after caps caps',
    c (mkState before after caps) = None
    <-> c (mkState before after caps') = None.

(** ** Vocabulary of rules 8 and 10 *)

(** [w] is the text [s] up to the case of the letters A-Z and a-z. *)
Definition spells (w : jsstring) (s : String.string) : Prop :=
  map (canonicalize true) w = map (canonicalize true) (str s).
Arguments spells w s%_string.

(** [value] names [name] and, later on the same line, [achievement]. *)
Definition mentions (value : jsstring) (name achievement : String.string) : Prop :=
  exists pre n mid a post,
    value = pre ++ n ++ mid ++ a ++ post
    /\ spells n name /\ all_in is_dot mid /\ spells a achievement.
Arguments mentions value (name achievement)%_string.

(** [value] holds one of the words [a1], [a2] and, later on the same
    line, one of the words [b1], [b2], each as a whole word: no word
    character ([A-Za-z0-9_]) stands right before it or right after it. *)
Definition rhymes (value : jsstring) (a1 a2 b1 b2 : String.string) : Prop :=
  exists pre a mid b post,
    value = pre ++ a ++ mid ++ b ++ post
    /\ (spells a a1 \/ spells a a2) /\ (spells b b1 \/ spells b b2)
    /\ all_in is_dot mid /\ mid <> []
    /\ no_head is_word_char (rev pre) /\ no_head is_word_char mid
    /\ no_head is_word_char (rev mid) /\ no_head is_word_char post.
Arguments rhymes value (a1 a2 b1 b2)%_string.

(** A word of a pattern: not empty, and letters a-z only. *)
Definition lower_word (s : String.string) : bool :=
  negb (length (str s) =? 0) && forallb is_lower (str s).
Arguments lower_word s%_string.

(** ** The schemas of the password field *)

(** [/.*(.)\1{2}/], the pattern inside the negative lookahead of the last
    check of the schema of [page.tsx]. *)
Definition re_ahead : RegExp :=
  mkRegExp (Star dot ++ Group 1 dot ++ Exactly 2 (Backref 1)) false.

(** [/^(?!r)/.test(s)].  Without the [m] flag, [^] holds at index 0
    only, so a match can start nowhere else; there the negative
    lookahead [(?!r)] succeeds, taking nothing, exactly when the matcher
    of [r] fails. *)
Definition test_not_ahead (re : RegExp) (s : jsstring) : bool :=
  match matchAt re [] s with
  | Some _ => false
  | None => true
  end.

(** The checks that [z.string()] collects, in the order of the calls. *)
Inductive check : Type :=
| check_min (value : nat) (message : String.string)      (* [.min(value, message)] *)
| check_regex (re : RegExp) (message : String.string)    (* [.regex(re, message)] *)
| check_not_ahead (re : RegExp) (message : String.string).  (* [.regex(/^(?!re)/, message)] *)
Arguments check_min value%_nat message%_string.
Arguments check_regex re message%_string.
Arguments check_not_ahead re message%_string.

(** [passwordSchema()] of [password-schema.tsx]:
    [z.string().min(5, ...).regex(/[0-9]/, ...).regex(/[A-Z]/, ...)] *)
Definition passwordSchema : list check :=
  [ check_min 5 "Your password must be at least 5 characters.";
    check_regex re_number "Your password must include a number.";
    check_regex re_uppercase "Your password must include an uppercase letter." ].

(** [passwordSchema] of [page.tsx]: two more checks,
    [.regex(/[!@#$%^&*()]/, ...)] and [.regex(/^(?!.*(.)\1{2})/, ...)]. *)
Definition pagePasswordSchema : list check :=
  passwordSchema
  ++ [ check_regex re_special "Your password must include a special character.";
       check_not_ahead re_ahead
         "Your password cannot have 3 consecutive repeated characters" ].

(** Parsing a string: zod runs every check, in order, and each check
    that fails adds an issue with its message ([min] fails when
    [data.length < value], [regex] when [!regex.test(data)]). *)
Definition issues (schema : list check) (data : jsstring) : list String.string :=
  flat_map (fun c =>
    match c with
    | check_min value message =>
        if length data <? value then [message] else []
    | check_regex re message =>
        if test re data then [] else [message]
    | check_not_ahead re message =>
        if test_not_ahead re data then [] else [message]
    end) schema.

(** [safeParse(...).success]: there is no issue. *)
Definition success (schema : list check) (data : jsstring) : bool :=
  match issues schema data with
  | [] => true
  | _ :: _ => false
  end.

(** ** The effect of the pages in [password-schema.tsx] *)

(** What the effect passes to [setVisibleRules]. *)
Inductive update : Type :=
| set_to (value : list nat)        (* [setVisibleRules(value)] *)
| append_id (nextRuleId : nat).    (* [setVisibleRules((prevRule) => [...prevRule, nextRuleId])] *)

(** The body of [useEffect] in the two pages that read [visibleRules]
    from the render: the call of [setVisibleRules] it makes, if any. *)
Definition effect (rs : list Rule) (password : jsstring) (visibleRules : list nat)
  : completion (option update) :=
  match password with
  | _ :: _ =>
      if length visibleRules =? 0 then Normal (Some (set_to [1]))
      else
        let lastVisibleRule :=
          nth (length visibleRules - 1) visibleRules 0 in
        valid <- evaluate rs lastVisibleRule password ;;
        if valid then
          let nextRuleId := lastVisibleRule + 1 in
          if (nextRuleId <=? length rs)
             && negb (includes visibleRules nextRuleId)
          then Normal (Some (append_id nextRuleId))
          else Normal None
        else Normal None
  | [] => Normal (Some (set_to []))
  end.

(** The state after the call, from the state [prevRule] before it. *)
Definition apply_update (u : option update) (prevRule : list nat) : list nat :=
  match u with
  | Some (set_to value) => value
  | Some (append_id nextRuleId) => prevRule ++ [nextRuleId]
  | None => prevRule
  end.
(** * Properties *)

(** ** Lists of ids *)

Lemma includes_In (a : list nat) (x : nat) : includes a x = true <-> In x a.
Proof.
  unfold includes. rewrite existsb_exists. split.
  - intros [y [Hy Heq]]. apply Nat.eqb_eq in Heq. now subst.
  - intros H. exists x. split; [assumption | apply Nat.eqb_refl].
Qed.

Lemma nth_last_elem (l : list nat) (d : nat) :
  nth (length l - 1) l d = last l d.
Proof.
  induction l as [|a [|b l] IH]; try reflexivity.
  replace (length (a :: b :: l) - 1) with (S (length (b :: l) - 1))
    by (simpl; lia).
  exact IH.
Qed.

Lemma increasing_last_max (l : list nat) :
  increasing l = true -> l <> [] -> last l 0 = list_max l.
Proof.
  induction l as [|a [|b l] IH]; intros Hinc Hne.
  - contradiction.
  - simpl. lia.
  - change (increasing (a :: b :: l)) with ((a <? b) && increasing (b :: l)) in Hinc.
    apply andb_prop in Hinc. destruct Hinc as [Hab Hinc].
    apply Nat.ltb_lt in Hab.
    change (last (a :: b :: l) 0) with (last (b :: l) 0).
    rewrite IH by (assumption || discriminate).
    change (list_max (a :: b :: l)) with (Nat.max a (list_max (b :: l))).
    assert (b <= list_max (b :: l)) by (simpl; lia).
    lia.
Qed.

Lemma increasing_seq (start len : nat) : increasing (seq start len) = true.
Proof.
  revert start. induction len as [|len IH]; intros start; [reflexivity|].
  destruct len as [|len]; [reflexivity|].
  change (seq start (S (S len))) with (start :: S start :: seq (S (S start)) len).
  change (increasing (start :: S start :: seq (S (S start)) len))
    with ((start <? S start) && increasing (seq (S start) (S len))).
  rewrite IH. replace (start <? S start) with true; [reflexivity|].
  symmetry. apply Nat.ltb_lt. lia.
Qed.

Lemma last_seq (start len : nat) : last (seq start (S len)) 0 = start + len.
Proof.
  rewrite seq_S, last_last. reflexivity.
Qed.

(** ** Completions *)

Lemma filterM_filter {A} (f : A -> completion bool) (g : A -> bool) (a : list A) :
  (forall x, In x a -> f x = Normal (g x)) ->
  filterM f a = Normal (filter g a).
Proof.
  induction a as [|x a IH]; intros Hf; [reflexivity|].
  simpl. rewrite (Hf x) by (now left). simpl.
  rewrite IH by (intros y Hy; apply Hf; now right). simpl.
  reflexivity.
Qed.

(** ** The engine, for any rule set *)

Section EngineFacts.

Variable rs : list Rule.

Lemma updateVisibleRules_reset (prev : list nat) :
  updateVisibleRules rs [] prev = Normal [].
Proof. reflexivity. Qed.

Lemma updateVisibleRules_first (password : jsstring) :
  password <> [] -> updateVisibleRules rs password [] = Normal [1].
Proof. destruct password; [contradiction | reflexivity]. Qed.

(** With a non-empty input and a non-empty state, the rule examined is
    the last element of the state. *)
Lemma updateVisibleRules_next (password : jsstring) (prev : list nat) :
  password <> [] -> prev <> [] ->
  updateVisibleRules rs password prev =
    (valid <- evaluate rs (last prev 0) password ;;
     Normal (if valid && (last prev 0 + 1 <=? length rs)
                && negb (includes prev (last prev 0 + 1))
             then prev ++ [last prev 0 + 1] else prev)).
Proof.
  intros Hp Hv. destruct password as [|c s]; [contradiction|].
  destruct prev as [|a prev]; [contradiction|].
  unfold updateVisibleRules.
  change (length (a :: prev) =? 0) with false. cbv iota.
  rewrite nth_last_elem.
  destruct (evaluate rs (last (a :: prev) 0) (c :: s)) as [[|]|e]; simpl;
    try reflexivity.
  destruct (_ && _); reflexivity.
Qed.

(** One call keeps every visible id and adds at most one. *)
Lemma updateVisibleRules_grows (password : jsstring) (prev new : list nat) :
  password <> [] ->
  updateVisibleRules rs password prev = Normal new ->
  exists extra, new = prev ++ extra /\ length extra <= 1.
Proof.
  intros Hp Hu. destruct prev as [|a prev].
  - rewrite updateVisibleRules_first in Hu by assumption.
    injection Hu as <-. exists [1]. split; [reflexivity | simpl; lia].
  - rewrite updateVisibleRules_next in Hu by (assumption || discriminate).
    destruct (evaluate rs _ _) as [valid|e]; [|discriminate].
    simpl in Hu. injection Hu as <-.
    destruct (_ && _).
    + eexists. split; [reflexivity | simpl; lia].
    + exists []. split; [now rewrite app_nil_r | simpl; lia].
Qed.

Lemma reachable_prefix (visible : list nat) :
  rs <> [] -> reachable rs visible ->
  exists k, visible = seq 1 k /\ k <= length rs.
Proof.
  intros Hrs H. induction H as [|password prev new Hprev IH Hu].
  - exists 0. split; [reflexivity | lia].
  - destruct IH as [k [-> Hk]].
    destruct password as [|c s].
    + injection Hu as <-. exists 0. split; [reflexivity | lia].
    + destruct k as [|k].
      * injection Hu as <-. exists 1. split; [reflexivity|].
        destruct rs; [contradiction | simpl; lia].
      * rewrite updateVisibleRules_next in Hu
          by (try discriminate; rewrite seq_S; apply not_eq_sym, app_cons_not_nil).
        rewrite last_seq in Hu.
        destruct (evaluate rs _ _) as [valid|e]; [|discriminate].
        unfold bind in Hu.
        destruct (valid && (1 + k + 1 <=? length rs)
                  && negb (includes (seq 1 (S k)) (1 + k + 1))) eqn:Hc;
          injection Hu as <-.
        -- apply andb_prop in Hc. destruct Hc as [Hc _].
           apply andb_prop in Hc. destruct Hc as [_ Hc]. apply Nat.leb_le in Hc.
           exists (S (S k)). split; [|lia].
           rewrite (seq_S (S k)).
           replace (1 + S k) with (S (k + 1)) by lia. reflexivity.
        -- exists (S k). split; [reflexivity | lia].
Qed.

End EngineFacts.

(** ** Character classes *)

Lemma is_operator_cases (c : N) :
  is_operator c = ((c =? 43) || (c =? 45) || (c =? 42) || (c =? 47))%N.
Proof. unfold is_operator. cbn. now rewrite orb_false_r, !orb_assoc. Qed.

Lemma is_space_cases (c : N) :
  is_space c =
  (in_range 9 13 c
   || ((c =? 32) || (c =? 160) || (c =? 5760) || (c =? 8232) || (c =? 8233)
       || (c =? 8239) || (c =? 8287) || (c =? 12288) || (c =? 65279))
   || in_range 8192 8202 c)%N.
Proof. unfold is_space. cbn [existsb]. now rewrite orb_false_r, !orb_assoc. Qed.

Lemma is_line_terminator_cases (c : N) :
  is_line_terminator c = ((c =? 10) || (c =? 13) || (c =? 8232) || (c =? 8233))%N.
Proof.
  unfold is_line_terminator. cbn [existsb]. now rewrite orb_false_r, !orb_assoc.
Qed.

(** Facts on the classes reduce to linear arithmetic on the code unit. *)
Ltac classes :=
  rewrite ?is_operator_cases, ?is_space_cases, ?is_line_terminator_cases in *;
  unfold is_word_char, is_dot, is_digit, is_lower, is_upper, is_0_2, in_range in *;
  lia.

Lemma digit_not_space (c : N) : is_digit c = true -> is_space c = false.
Proof. intros; classes. Qed.

Lemma digit_not_operator (c : N) : is_digit c = true -> is_operator c = false.
Proof. intros; classes. Qed.

Lemma space_not_digit (c : N) : is_space c = true -> is_digit c = false.
Proof. intros; classes. Qed.

Lemma space_not_operator (c : N) : is_space c = true -> is_operator c = false.
Proof. intros; classes. Qed.

Lemma operator_not_digit (c : N) : is_operator c = true -> is_digit c = false.
Proof. intros; classes. Qed.

Lemma operator_not_space (c : N) : is_operator c = true -> is_space c = false.
Proof. intros; classes. Qed.

Lemma digit_is_word_char (c : N) : is_digit c = true -> is_word_char c = true.
Proof. intros; classes. Qed.

(** ** Runs of a class *)

Lemma takeWhile_dropWhile (p : N -> bool) (l : jsstring) :
  takeWhile p l ++ dropWhile p l = l.
Proof.
  induction l as [|c l IH]; [reflexivity|].
  simpl. destruct (p c); [simpl; now rewrite IH | reflexivity].
Qed.

Lemma takeWhile_all (p : N -> bool) (l : jsstring) : all_in p (takeWhile p l).
Proof.
  unfold all_in. induction l as [|c l IH]; [reflexivity|].
  simpl. destruct (p c) eqn:E; [simpl; now rewrite E | reflexivity].
Qed.

Lemma dropWhile_no_head (p : N -> bool) (l : jsstring) : no_head p (dropWhile p l).
Proof.
  induction l as [|c l IH]; [exact I|].
  simpl. destruct (p c) eqn:E; [exact IH | exact E].
Qed.

(** A run followed by something outside the class is the longest run. *)
Lemma takeWhile_app (p : N -> bool) (run tail : jsstring) :
  all_in p run -> no_head p tail ->
  takeWhile p (run ++ tail) = run /\ dropWhile p (run ++ tail) = tail.
Proof.
  unfold all_in. induction run as [|c run IH]; intros Hall Hhd.
  - destruct tail as [|c tail]; [now split|]. simpl in *. now rewrite Hhd.
  - simpl in Hall. apply andb_prop in Hall. destruct Hall as [Hc Hall].
    simpl. rewrite Hc. destruct (IH Hall Hhd) as [-> ->]. now split.
Qed.

Lemma all_in_app (p : N -> bool) (l1 l2 : jsstring) :
  all_in p (l1 ++ l2) <-> all_in p l1 /\ all_in p l2.
Proof. unfold all_in. rewrite forallb_app. apply andb_true_iff. Qed.

Lemma all_in_In (p : N -> bool) (l : jsstring) :
  all_in p l <-> forall c, In c l -> p c = true.
Proof. apply forallb_forall. Qed.

(** ** The matcher on runs of a class *)

Lemma repeat_star_class (p : N -> bool) (c : Continuation)
    (caps : list (option jsstring)) (after before : list N) (fuel : nat) :
  length after <= fuel ->
  repeatMatcher (compile false (Class false p)) [] fuel 0 None
    (mkState before after caps) c
  = star_run p c before after caps.
Proof.
  revert before fuel. induction after as [|ch after IH]; intros before fuel Hf.
  - destruct fuel; reflexivity.
  - destruct fuel as [|fuel]; [simpl in Hf; lia|].
    simpl in Hf.
    cbn [repeatMatcher compile characterSetMatcher resetCaptures fold_left
         rest consumed captures class_mem xorb negb Nat.eqb andb star_run].
    destruct (p ch); [|reflexivity].
    unfold endIndex. cbn [consumed length].
    replace (S (length before) =? length before) with false
      by (symmetry; apply Nat.eqb_neq; lia).
    cbn [option_map Nat.sub].
    rewrite IH by lia. reflexivity.
Qed.

Lemma compile_star_class (p : N -> bool) (x : MatchState) (c : Continuation) :
  compile false (Star (Class false p)) x c
  = star_run p c (consumed x) (rest x) (captures x).
Proof.
  destruct x as [before after caps]. unfold Star.
  cbn [compile parens rest consumed captures Nat.add].
  apply repeat_star_class. lia.
Qed.

Lemma repeatMatcher_step (m : Matcher) (ps : list nat) (fuel min : nat)
    (x : MatchState) (c : Continuation) :
  repeatMatcher m ps (S fuel) min None x c
  = let d : Continuation := fun y =>
      if (min =? 0) && (endIndex y =? endIndex x) then None
      else repeatMatcher m ps fuel (min - 1) None y c in
    if negb (min =? 0) then m (resetCaptures ps x) d
    else match m (resetCaptures ps x) d with
         | Some z => Some z
         | None => c x
         end.
Proof. reflexivity. Qed.

Lemma compile_plus_class (p : N -> bool) (x : MatchState) (c : Continuation) :
  compile false (Plus (Class false p)) x c
  = match rest x with
    | ch :: after' =>
        if p ch then star_run p c (ch :: consumed x) after' (captures x)
        else None
    | [] => None
    end.
Proof.
  destruct x as [before after caps]. unfold Plus.
  cbn [compile parens rest consumed captures].
  change (1 + length after) with (S (length after)).
  rewrite repeatMatcher_step.
  cbn [negb Nat.eqb andb resetCaptures fold_left Nat.sub].
  unfold characterSetMatcher at 1. cbn [rest consumed captures class_mem xorb].
  destruct after as [|ch after']; [reflexivity|].
  destruct (p ch); [|reflexivity].
  apply repeat_star_class. simpl. lia.
Qed.

(** The continuation succeeds after the longest run: that is the result. *)
Lemma star_run_longest (p : N -> bool) (c : Continuation)
    (caps : list (option jsstring)) (after before : list N) (z : MatchState) :
  c (mkState (rev (takeWhile p after) ++ before) (dropWhile p after) caps) = Some z ->
  star_run p c before after caps = Some z.
Proof.
  revert before. induction after as [|ch after IH]; intros before Hc.
  - exact Hc.
  - simpl in *. destruct (p ch).
    + simpl in Hc. rewrite <- app_assoc in Hc. simpl in Hc.
      now rewrite (IH _ Hc).
    + exact Hc.
Qed.

(** The continuation fails wherever a code unit of the class comes next:
    the result is that of the continuation after the longest run. *)
Lemma star_run_skip (p : N -> bool) (c : Continuation)
    (caps : list (option jsstring)) (after before : list N) :
  (forall before' ch after', p ch = true ->
     c (mkState before' (ch :: after') caps) = None) ->
  star_run p c before after caps
  = c (mkState (rev (takeWhile p after) ++ before) (dropWhile p after) caps).
Proof.
  intros Hrej. revert before.
  induction after as [|ch after IH]; intros before; [reflexivity|].
  simpl. destruct (p ch) eqn:E; [|reflexivity].
  rewrite IH. simpl. rewrite <- app_assoc. simpl.
  destruct (c _) eqn:Ec; [reflexivity|].
  now apply Hrej.
Qed.

Lemma capture_substring (run before : list N) :
  rev (firstn (length (rev run ++ before) - length before) (rev run ++ before)) = run.
Proof.
  rewrite length_app, Nat.add_sub.
  rewrite firstn_app, Nat.sub_diag, firstn_all. simpl.
  rewrite app_nil_r. apply rev_involutive.
Qed.

Lemma takeWhile_no_head (p : N -> bool) (l : jsstring) :
  no_head p l -> takeWhile p l = [] /\ dropWhile p l = l.
Proof.
  destruct l as [|c l]; simpl; [now split|]. intros ->. now split.
Qed.

(** ** Patterns made of runs: what comes first, and skipping *)

Lemma compile_char_seq (a : N) (R : regex) (x : MatchState) (c : Continuation) :
  compile false (Char a ++ R) x c
  = match rest x with
    | ch :: after' =>
        if N.eqb a ch
        then compile false R (mkState (ch :: consumed x) after' (captures x)) c
        else None
    | [] => None
    end.
Proof. reflexivity. Qed.

Lemma compile_group_class_seq (n : nat) (q : N -> bool) (R : regex)
    (x : MatchState) (c : Continuation) :
  compile false (Group n (Class false q) ++ R) x c
  = match rest x with
    | ch :: after' =>
        if q ch
        then compile false R
               (mkState (ch :: consumed x) after'
                  (set_nth (n - 1) (Some [ch]) (captures x))) c
        else None
    | [] => None
    end.
Proof.
  destruct x as [before after caps].
  cbn [compile rest consumed captures]. unfold characterSetMatcher at 1.
  cbn [rest consumed captures class_mem xorb].
  destruct after as [|ch after']; [reflexivity|].
  destruct (q ch); [|reflexivity].
  unfold setCapture, endIndex. cbn [consumed rest captures].
  change (ch :: before) with (rev [ch] ++ before).
  now rewrite capture_substring.
Qed.

Lemma compile_star_seq (p q : N -> bool) (R : regex) (x : MatchState)
    (c : Continuation) :
  starts_in q R -> (forall ch, p ch = true -> q ch = false) ->
  compile false (Star (Class false p) ++ R) x c
  = compile false R
      (mkState (rev (takeWhile p (rest x)) ++ consumed x)
         (dropWhile p (rest x)) (captures x)) c.
Proof.
  intros HR Hpq.
  change (compile false (Star (Class false p) ++ R) x c)
    with (compile false (Star (Class false p)) x (fun y => compile false R y c)).
  rewrite compile_star_class.
  apply star_run_skip with (c := fun y => compile false R y c).
  intros before' ch after' Hp. apply HR. simpl. now apply Hpq.
Qed.

Lemma compile_group_plus_seq (n : nat) (p q : N -> bool) (R : regex)
    (x : MatchState) (c : Continuation) :
  starts_in q R -> (forall ch, p ch = true -> q ch = false) ->
  compile false (Group n (Plus (Class false p)) ++ R) x c
  = match takeWhile p (rest x) with
    | [] => None
    | run =>
        compile false R
          (mkState (rev run ++ consumed x) (dropWhile p (rest x))
             (set_nth (n - 1) (Some run) (captures x))) c
    end.
Proof.
  intros HR Hpq. destruct x as [before after caps].
  change (compile false (Group n (Plus (Class false p)) ++ R)
            (mkState before after caps) c)
    with (compile false (Plus (Class false p)) (mkState before after caps)
            (fun y => compile false R
               (setCapture n
                  (Some (rev (firstn (endIndex y - length before) (consumed y)))) y)
               c)).
  rewrite compile_plus_class. cbn [rest consumed captures].
  destruct after as [|ch after']; [reflexivity|].
  cbn [takeWhile dropWhile]. destruct (p ch) eqn:Ep; [|reflexivity].
  rewrite star_run_skip.
  - unfold setCapture, endIndex. cbn [rest consumed captures].
    replace (rev (takeWhile p after') ++ ch :: before)
      with (rev (ch :: takeWhile p after') ++ before)
      by (simpl; now rewrite <- app_assoc).
    now rewrite capture_substring.
  - intros before' ch' after'' Hp. apply HR. simpl. now apply Hpq.
Qed.

Lemma compile_group_plus_end (n : nat) (p : N -> bool) (x : MatchState) :
  compile false (Group n (Plus (Class false p))) x Some
  = match takeWhile p (rest x) with
    | [] => None
    | run =>
        Some (mkState (rev run ++ consumed x) (dropWhile p (rest x))
                (set_nth (n - 1) (Some run) (captures x)))
    end.
Proof.
  destruct x as [before after caps].
  change (compile false (Group n (Plus (Class false p)))
            (mkState before after caps) Some)
    with (compile false (Plus (Class false p)) (mkState before after caps)
            (fun y => Some
               (setCapture n
                  (Some (rev (firstn (endIndex y - length before) (consumed y)))) y))).
  rewrite compile_plus_class. cbn [rest consumed captures].
  destruct after as [|ch after']; [reflexivity|].
  cbn [takeWhile dropWhile]. destruct (p ch) eqn:Ep; [|reflexivity].
  apply star_run_longest.
  unfold setCapture, endIndex. cbn [rest consumed captures].
  replace (rev (takeWhile p after') ++ ch :: before)
    with (rev (ch :: takeWhile p after') ++ before)
    by (simpl; now rewrite <- app_assoc).
  now rewrite capture_substring.
Qed.

Lemma starts_in_char (a : N) (R : regex) : starts_in (N.eqb a) (Char a ++ R).
Proof.
  intros x c H. rewrite compile_char_seq.
  destruct (rest x) as [|ch after']; [reflexivity|]. simpl in H. now rewrite H.
Qed.

Lemma starts_in_group_class (n : nat) (q : N -> bool) (R : regex) :
  starts_in q (Group n (Class false q) ++ R).
Proof.
  intros x c H. rewrite compile_group_class_seq.
  destruct (rest x) as [|ch after']; [reflexivity|]. simpl in H. now rewrite H.
Qed.

Lemma starts_in_group_plus (n : nat) (p : N -> bool) :
  starts_in p (Group n (Plus (Class false p))).
Proof.
  intros x c H. destruct x as [before after caps].
  change (compile false (Group n (Plus (Class false p)))
            (mkState before after caps) c)
    with (compile false (Plus (Class false p)) (mkState before after caps)
            (fun y => c
               (setCapture n
                  (Some (rev (firstn (endIndex y - length before) (consumed y)))) y))).
  rewrite compile_plus_class. cbn [rest] in *.
  destruct after as [|ch after']; [reflexivity|]. simpl in H. now rewrite H.
Qed.

Lemma starts_in_group_plus_seq (n : nat) (p : N -> bool) (R : regex) :
  starts_in p (Group n (Plus (Class false p)) ++ R).
Proof.
  intros x c H.
  change (compile false (Group n (Plus (Class false p)) ++ R) x c)
    with (compile false (Group n (Plus (Class false p))) x
            (fun y => compile false R y c)).
  now apply starts_in_group_plus.
Qed.

Lemma starts_in_star_seq (p q : N -> bool) (R : regex) :
  starts_in q R -> (forall ch, p ch = true -> q ch = false) ->
  starts_in (fun ch => p ch || q ch) (Star (Class false p) ++ R).
Proof.
  intros HR Hpq x c H. rewrite compile_star_seq with (q := q) by assumption.
  destruct x as [before after caps]. cbn [rest consumed captures] in *.
  assert (Hp : no_head p after).
  { destruct after as [|ch after']; [exact I|]. simpl in *.
    now apply orb_false_iff in H. }
  destruct (takeWhile_no_head _ _ Hp) as [-> ->]. simpl.
  apply HR. destruct after as [|ch after']; [exact I|]. simpl in *.
  now apply orb_false_iff in H.
Qed.

(** ** The bound on the iterations of a quantifier *)

Lemma later_refl (x : MatchState) : later x x.
Proof. exists 0. split; [reflexivity | lia]. Qed.

Lemma later_trans (x y z : MatchState) : later x y -> later y z -> later x z.
Proof.
  intros (k & H1 & H2) (k' & H3 & H4). exists (k + k'). split; lia.
Qed.

Lemma setCapture_later (n : nat) (v : option jsstring) (x y : MatchState) :
  later x y -> later x (setCapture n v y).
Proof. intros H. exact H. Qed.

Lemma resetCaptures_rest (ns : list nat) (x : MatchState) :
  rest (resetCaptures ns x) = rest x
  /\ consumed (resetCaptures ns x) = consumed x.
Proof.
  unfold resetCaptures. revert x.
  induction ns as [|n ns IH]; intros x; [now split|].
  simpl. destruct (IH (setCapture n None x)) as [-> ->]. now split.
Qed.

Lemma resetCaptures_later (ns : list nat) (x y : MatchState) :
  later (resetCaptures ns x) y <-> later x y.
Proof.
  unfold later, endIndex. destruct (resetCaptures_rest ns x) as [-> ->].
  reflexivity.
Qed.

Lemma advance_later (ic : bool) (s : jsstring) (x y : MatchState) :
  advance ic s x = Some y -> later x y.
Proof.
  revert x. induction s as [|a s IH]; intros x H.
  - injection H as <-. apply later_refl.
  - simpl in H. destruct x as [before after caps]. simpl in H.
    destruct after as [|ch after]; [discriminate|].
    destruct (N.eqb _ _); [|discriminate].
    apply IH in H. apply later_trans with (2 := H).
    exists 1. unfold endIndex. simpl. split; lia.
Qed.

Lemma repeatMatcher_S (m : Matcher) (ps : list nat) (fuel min : nat)
    (max : option nat) (x : MatchState) (c : Continuation) :
  repeatMatcher m ps (S fuel) min max x c
  = match max with
    | Some 0 => c x
    | _ =>
        if negb (min =? 0)
        then m (resetCaptures ps x) (fun y =>
               if (min =? 0) && (endIndex y =? endIndex x) then None
               else repeatMatcher m ps fuel (min - 1) (option_map pred max) y c)
        else match m (resetCaptures ps x) (fun y =>
                     if (min =? 0) && (endIndex y =? endIndex x) then None
                     else repeatMatcher m ps fuel (min - 1) (option_map pred max) y c)
             with
             | Some z => Some z
             | None => c x
             end
    end.
Proof. reflexivity. Qed.

Lemma greedy_congr (b : bool) (v v' w : MatchResult) :
  v = v' ->
  (if b then v else match v with Some z => Some z | None => w end)
  = (if b then v' else match v' with Some z => Some z | None => w end).
Proof. now intros ->. Qed.

Lemma repeatMatcher_calls_later (m : Matcher) (ps : list nat) :
  calls_later m ->
  forall fuel min max, calls_later (repeatMatcher m ps fuel min max).
Proof.
  intros Hm fuel. induction fuel as [|fuel IH]; intros min max x c c' Hc.
  - simpl. destruct max as [[|k]|]; apply Hc, later_refl.
  - rewrite !repeatMatcher_S. rewrite (Hc x (later_refl x)).
    destruct max as [[|k]|]; cbv iota; [reflexivity | |];
      apply greedy_congr; apply Hm; intros y Hy; cbv beta;
      (destruct (_ && _); [reflexivity|]);
      apply IH; intros z Hz; apply Hc;
      apply later_trans with (2 := Hz); now apply resetCaptures_later in Hy.
Qed.

Lemma repeatMatcher_fails_alone (m : Matcher) (ps : list nat) :
  calls_later m -> fails_alone m ->
  forall fuel min max, fails_alone (repeatMatcher m ps fuel min max).
Proof.
  intros Hm Hf fuel. induction fuel as [|fuel IH]; intros min max x.
  - simpl. now destruct max as [[|k]|].
  - rewrite repeatMatcher_S.
    assert (E : forall d : Continuation,
              (forall y, d y = None) -> m (resetCaptures ps x) d = None).
    { intros d Hd. rewrite (Hm _ d (fun _ => None)); [apply Hf|].
      intros y _. apply Hd. }
    destruct max as [[|k]|]; cbv iota; [reflexivity | |];
      (rewrite E; [now destruct (negb _)|]);
      intros y; (destruct (_ && _); [reflexivity | apply IH]).
Qed.

Ltac case_if :=
  match goal with
  | |- context [if ?b then _ else _] => destruct b
  end.

Lemma characterSetMatcher_calls_later (ic invert : bool) (p : N -> bool) :
  calls_later (characterSetMatcher ic invert p)
  /\ fails_alone (characterSetMatcher ic invert p).
Proof.
  split.
  - intros [before after caps] c c' Hc. unfold characterSetMatcher.
    cbn [rest consumed captures]. destruct after as [|a after]; [reflexivity|].
    case_if; [|reflexivity]. apply Hc.
    exists 1. unfold endIndex. simpl. split; lia.
  - intros [before after caps]. unfold characterSetMatcher.
    cbn [rest consumed captures]. destruct after as [|a after]; [reflexivity|].
    now case_if.
Qed.

Lemma compile_calls_later (ic : bool) (r : regex) :
  calls_later (compile ic r) /\ fails_alone (compile ic r).
Proof.
  induction r as [|ch|invert p|r1 [L1 F1] r2 [L2 F2]|r1 [L1 F1] r2 [L2 F2]
                  |r1 [L1 F1] min max|n r1 [L1 F1]|n|].
  - split; [intros x c c' Hc; apply Hc, later_refl | intros x; reflexivity].
  - apply characterSetMatcher_calls_later.
  - apply characterSetMatcher_calls_later.
  - split.
    + intros x c c' Hc. cbn [compile]. apply L1. intros y Hy. apply L2.
      intros z Hz. apply Hc. now apply later_trans with (2 := Hz).
    + intros x. cbn [compile]. rewrite (L1 x _ (fun _ => None)); [apply F1|].
      intros y _. apply F2.
  - split.
    + intros x c c' Hc. cbn [compile].
      now rewrite (L1 x c c' Hc), (L2 x c c' Hc).
    + intros x. cbn [compile]. now rewrite F1, F2.
  - split.
    + intros x. cbn [compile]. now apply repeatMatcher_calls_later.
    + intros x. cbn [compile]. now apply repeatMatcher_fails_alone.
  - split.
    + intros x c c' Hc. cbn [compile]. apply L1. intros y Hy. now apply Hc.
    + intros x. cbn [compile]. apply F1.
  - split.
    + intros x c c' Hc. cbn [compile]. unfold backreferenceMatcher.
      destruct (getCapture n x) as [s|]; [|apply Hc, later_refl].
      destruct (advance ic s x) as [y|] eqn:E; [|reflexivity].
      apply Hc. now apply advance_later in E.
    + intros x. cbn [compile]. unfold backreferenceMatcher.
      destruct (getCapture n x) as [s|]; [|reflexivity].
      now destruct (advance ic s x).
  - split.
    + intros x c c' Hc. cbn [compile]. case_if; [|reflexivity].
      apply Hc, later_refl.
    + intros x. cbn [compile]. now case_if.
Qed.

(** With a matcher of a pattern, the result of [repeatMatcher] is the
    same for every amount of fuel from the bound on. *)
Lemma repeatMatcher_fuel (m : Matcher) (ps : list nat) :
  calls_later m -> fails_alone m ->
  forall fuel fuel' min max x c,
    min + length (rest x) <= fuel -> min + length (rest x) <= fuel' ->
    repeatMatcher m ps fuel min max x c = repeatMatcher m ps fuel' min max x c.
Proof.
  intros Hm Hf.
  assert (Hzero : forall fuel max x c,
            length (rest x) = 0 ->
            repeatMatcher m ps fuel 0 max x c = c x).
  { intros [|fuel] max x c Hx; [simpl; now destruct max as [[|k]|]|].
    rewrite repeatMatcher_S.
    destruct max as [[|k]|]; cbv iota; [reflexivity | |];
      cbn [Nat.eqb negb andb];
      (rewrite (Hm _ _ (fun _ => None)); [now rewrite Hf|]);
      intros y Hy; apply resetCaptures_later in Hy;
      destruct Hy as (j & Hj1 & Hj2);
      (replace (endIndex y =? endIndex x) with true;
         [reflexivity | symmetry; apply Nat.eqb_eq; lia]). }
  intros fuel. induction fuel as [|fuel IH]; intros fuel' min max x c H1 H2.
  - assert (min = 0) as -> by lia.
    rewrite !Hzero by lia. reflexivity.
  - destruct fuel' as [|fuel'].
    { assert (min = 0) as -> by lia. rewrite !Hzero by lia. reflexivity. }
    rewrite !repeatMatcher_S.
    destruct max as [[|k]|]; cbv iota; [reflexivity | |];
      apply greedy_congr; apply Hm; intros y Hy; cbv beta;
      apply resetCaptures_later in Hy; destruct Hy as (j & Hj1 & Hj2);
      (destruct (min =? 0) eqn:Emin;
         [ apply Nat.eqb_eq in Emin; subst min; cbn [andb];
           destruct (endIndex y =? endIndex x) eqn:Eend; [reflexivity|];
           apply Nat.eqb_neq in Eend
         | apply Nat.eqb_neq in Emin; cbn [andb] ]);
      apply IH; lia.
Qed.

(** The fuel that [compile] gives to a quantifier is enough: more fuel
    gives the same result. *)
Lemma compile_repeat_fuel (ic : bool) (r : regex) (min : nat) (max : option nat)
    (x : MatchState) (c : Continuation) (fuel : nat) :
  min + length (rest x) <= fuel ->
  repeatMatcher (compile ic r) (parens r) fuel min max x c
  = compile ic (Repeat r min max) x c.
Proof.
  intros H. cbn [compile].
  destruct (compile_calls_later ic r) as [L F].
  now apply repeatMatcher_fuel.
Qed.

(** ** Rule 9: the match at one index *)

Lemma matchAt_equation (before after : list N) :
  matchAt re_equation before after = scan_equation before after.
Proof.
  unfold matchAt, scan_equation, nCaptures.
  cbn [source ignoreCase re_equation parens app length repeat].
  unfold digit, space.
  rewrite compile_group_plus_seq
    with (q := fun ch => is_space ch || is_operator ch).
  2:{ apply starts_in_star_seq;
        [apply starts_in_group_class | exact space_not_operator]. }
  2:{ intros ch H. cbv beta. classes. }
  cbn [rest consumed captures].
  destruct (takeWhile is_digit after) as [|a0 a]; [reflexivity|].
  rewrite compile_star_seq with (q := is_operator).
  2:{ apply starts_in_group_class. }
  2:{ exact space_not_operator. }
  cbn [rest consumed captures].
  rewrite compile_group_class_seq. cbn [rest consumed captures].
  destruct (dropWhile is_space (dropWhile is_digit after)) as [|op t3];
    [reflexivity|].
  destruct (is_operator op); [|reflexivity].
  rewrite compile_star_seq with (q := is_digit).
  2:{ apply starts_in_group_plus_seq. }
  2:{ exact space_not_digit. }
  cbn [rest consumed captures].
  rewrite compile_group_plus_seq
    with (q := fun ch => is_space ch || N.eqb (cu "=") ch).
  2:{ apply starts_in_star_seq; [apply starts_in_char |].
      intros ch H. change (cu "=") with 61%N. classes. }
  2:{ intros ch H. cbv beta. change (cu "=") with 61%N. classes. }
  cbn [rest consumed captures].
  destruct (takeWhile is_digit (dropWhile is_space t3)) as [|b0 b];
    [reflexivity|].
  rewrite compile_star_seq with (q := N.eqb (cu "=")).
  2:{ apply starts_in_char. }
  2:{ intros ch H. change (cu "=") with 61%N. classes. }
  cbn [rest consumed captures].
  rewrite compile_char_seq. cbn [rest consumed captures].
  destruct (dropWhile is_space (dropWhile is_digit (dropWhile is_space t3)))
    as [|e t7]; [reflexivity|].
  destruct (N.eqb (cu "=") e); [|reflexivity].
  rewrite compile_star_seq with (q := is_digit).
  2:{ apply starts_in_group_plus. }
  2:{ exact space_not_digit. }
  cbn [rest consumed captures].
  rewrite compile_group_plus_end. cbn [rest consumed captures].
  destruct (takeWhile is_digit (dropWhile is_space t7)) as [|r0 r];
    [reflexivity|].
  reflexivity.
Qed.

Lemma no_head_app (p p' : N -> bool) (w tail : jsstring) :
  all_in p' w -> (forall c, p' c = true -> p c = false) ->
  no_head p tail -> no_head p (w ++ tail).
Proof.
  intros Hw Hd Ht. destruct w as [|c w]; [exact Ht|].
  simpl. apply Hd. unfold all_in in Hw. simpl in Hw.
  now apply andb_prop in Hw.
Qed.

(** Reading an equation text followed by no further digit gives its parts. *)
Lemma scan_equation_complete (before t a : list N) (op : N) (b r post : list N) :
  equation_text t a op b r -> no_head is_digit post ->
  scan_equation before (t ++ post)
  = Some (mkState (rev t ++ before) post [Some a; Some [op]; Some b; Some r]).
Proof.
  intros (w1 & w2 & w3 & w4 & -> & [Ha Hane] & Hw1 & Hop & Hw2 & [Hb Hbne]
          & Hw3 & Hw4 & [Hr Hrne]) Hpost.
  unfold scan_equation.
  repeat (rewrite <- app_assoc; cbn [app]).
  destruct (@takeWhile_app is_digit a
              (w1 ++ op :: w2 ++ b ++ w3 ++ cu "=" :: w4 ++ r ++ post)) as [-> ->];
    [assumption | |].
  { apply no_head_app with (p' := is_space);
      [assumption | exact space_not_digit | now apply operator_not_digit]. }
  destruct a as [|a0 a]; [contradiction|].
  destruct (@takeWhile_app is_space w1
              (op :: w2 ++ b ++ w3 ++ cu "=" :: w4 ++ r ++ post)) as [-> ->];
    [assumption | now apply operator_not_space |].
  rewrite Hop.
  destruct (@takeWhile_app is_space w2
              (b ++ w3 ++ cu "=" :: w4 ++ r ++ post)) as [-> ->];
    [assumption | |].
  { destruct b as [|b0 b]; [contradiction|]. simpl.
    apply digit_not_space. unfold all_in in Hb. simpl in Hb.
    now apply andb_prop in Hb. }
  destruct (@takeWhile_app is_digit b
              (w3 ++ cu "=" :: w4 ++ r ++ post)) as [-> ->];
    [assumption | |].
  { apply no_head_app with (p' := is_space);
      [assumption | exact space_not_digit | reflexivity]. }
  destruct b as [|b0 b]; [contradiction|].
  destruct (@takeWhile_app is_space w3
              (cu "=" :: w4 ++ r ++ post)) as [-> ->];
    [assumption | reflexivity |].
  rewrite N.eqb_refl.
  destruct (@takeWhile_app is_space w4 (r ++ post)) as [-> ->];
    [assumption | |].
  { destruct r as [|r0 r]; [contradiction|]. simpl.
    apply digit_not_space. unfold all_in in Hr. simpl in Hr.
    now apply andb_prop in Hr. }
  destruct (@takeWhile_app is_digit r post) as [-> ->]; [assumption..|].
  destruct r as [|r0 r]; [contradiction|].
  f_equal. f_equal.
  repeat (rewrite rev_app_distr || rewrite <- app_assoc
          || (progress cbn [rev app])).
  reflexivity.
Qed.

(** What the reading returns is an equation text followed by no digit. *)
Lemma scan_equation_sound (before after : list N) (y : MatchState) :
  scan_equation before after = Some y ->
  exists t a op b r post,
    after = t ++ post /\ equation_text t a op b r /\ no_head is_digit post
    /\ y = mkState (rev t ++ before) post [Some a; Some [op]; Some b; Some r].
Proof.
  unfold scan_equation. intros H.
  pose proof (takeWhile_dropWhile is_digit after) as E1.
  pose proof (takeWhile_all is_digit after) as A1.
  destruct (takeWhile is_digit after) as [|a0 a]; [discriminate|].
  pose proof (takeWhile_dropWhile is_space (dropWhile is_digit after)) as E2.
  pose proof (takeWhile_all is_space (dropWhile is_digit after)) as A2.
  destruct (dropWhile is_space (dropWhile is_digit after)) as [|op t3];
    [discriminate|].
  destruct (is_operator op) eqn:Hop; [|discriminate].
  pose proof (takeWhile_dropWhile is_space t3) as E3.
  pose proof (takeWhile_all is_space t3) as A3.
  pose proof (takeWhile_dropWhile is_digit (dropWhile is_space t3)) as E4.
  pose proof (takeWhile_all is_digit (dropWhile is_space t3)) as A4.
  destruct (takeWhile is_digit (dropWhile is_space t3)) as [|b0 b];
    [discriminate|].
  pose proof (takeWhile_dropWhile is_space
                (dropWhile is_digit (dropWhile is_space t3))) as E5.
  pose proof (takeWhile_all is_space
                (dropWhile is_digit (dropWhile is_space t3))) as A5.
  destruct (dropWhile is_space (dropWhile is_digit (dropWhile is_space t3)))
    as [|e t7]; [discriminate|].
  destruct (N.eqb (cu "=") e) eqn:He; [|discriminate].
  apply N.eqb_eq in He. subst e.
  pose proof (takeWhile_dropWhile is_space t7) as E6.
  pose proof (takeWhile_all is_space t7) as A6.
  pose proof (takeWhile_dropWhile is_digit (dropWhile is_space t7)) as E7.
  pose proof (takeWhile_all is_digit (dropWhile is_space t7)) as A7.
  pose proof (dropWhile_no_head is_digit (dropWhile is_space t7)) as N7.
  destruct (takeWhile is_digit (dropWhile is_space t7)) as [|r0 r];
    [discriminate|].
  injection H as <-.
  set (w1 := takeWhile is_space (dropWhile is_digit after)) in *.
  set (w2 := takeWhile is_space t3) in *.
  set (w3 := takeWhile is_space (dropWhile is_digit (dropWhile is_space t3))) in *.
  set (w4 := takeWhile is_space t7) in *.
  set (post := dropWhile is_digit (dropWhile is_space t7)) in *.
  exists ((a0 :: a) ++ w1 ++ op :: w2 ++ (b0 :: b) ++ w3 ++ cu "=" :: w4 ++ r0 :: r),
    (a0 :: a), op, (b0 :: b), (r0 :: r), post.
  split; [|split; [|split]].
  - rewrite <- E1, <- E2, <- E3, <- E4, <- E5, <- E6, <- E7.
    repeat (rewrite <- app_assoc; cbn [app]). reflexivity.
  - exists w1, w2, w3, w4. repeat split; try assumption; discriminate.
  - exact N7.
  - f_equal.
    repeat (rewrite rev_app_distr || rewrite <- app_assoc
            || (progress cbn [rev app])).
    reflexivity.
Qed.

(** ** The first match in a string *)

Lemma execFrom_None (re : RegExp) (after before : list N) :
  execFrom re before after = None <->
  forall pre post, after = pre ++ post -> matchAt re (rev pre ++ before) post = None.
Proof.
  revert before. induction after as [|ch after IH]; intros before.
  - simpl. split.
    + intros H pre post E. symmetry in E. apply app_eq_nil in E.
      destruct E as [-> ->]. simpl. now destruct (matchAt re before []).
    + intros H. specialize (H [] [] eq_refl). simpl in H. now rewrite H.
  - simpl. destruct (matchAt re before (ch :: after)) eqn:E0.
    + split; [discriminate|]. intros H.
      specialize (H [] (ch :: after) eq_refl). simpl in H. congruence.
    + rewrite IH. split.
      * intros H pre post E. destruct pre as [|c pre].
        -- simpl in *. now subst post.
        -- simpl in E. injection E as -> ->. simpl. rewrite <- app_assoc.
           now apply H.
      * intros H pre post ->.
        specialize (H (ch :: pre) post eq_refl). simpl in H.
        now rewrite <- app_assoc in H.
Qed.

Lemma execFrom_Some (re : RegExp) (after before : list N) (n : nat) (y : MatchState) :
  execFrom re before after = Some (n, y) <->
  exists pre post,
    after = pre ++ post /\ n = length before + length pre
    /\ matchAt re (rev pre ++ before) post = Some y
    /\ forall pre' post', after = pre' ++ post' -> length pre' < length pre ->
         matchAt re (rev pre' ++ before) post' = None.
Proof.
  revert before n. induction after as [|ch after IH]; intros before n.
  - simpl. split.
    + intros H. destruct (matchAt re before []) eqn:E0; [|discriminate].
      injection H as <- <-. exists [], []. simpl.
      repeat split; [lia | assumption | intros; lia].
    + intros (pre & post & E & -> & Hm & _). symmetry in E.
      apply app_eq_nil in E. destruct E as [-> ->]. simpl in *.
      rewrite Hm. f_equal. f_equal. lia.
  - simpl. destruct (matchAt re before (ch :: after)) eqn:E0.
    + split.
      * intros H. injection H as <- <-. exists [], (ch :: after). simpl.
        repeat split; [lia | assumption | intros; lia].
      * intros (pre & post & E & -> & Hm & Hleast).
        destruct pre as [|c pre].
        -- simpl in *. subst post. rewrite E0 in Hm. injection Hm as ->.
           f_equal. f_equal. lia.
        -- specialize (Hleast [] (ch :: after) eq_refl). simpl in Hleast.
           rewrite E0 in Hleast. specialize (Hleast ltac:(lia)). discriminate.
    + rewrite IH. split.
      * intros (pre & post & -> & -> & Hm & Hleast).
        exists (ch :: pre), post. simpl. rewrite <- app_assoc. simpl.
        repeat split; [lia | assumption |].
        intros pre' post' E Hlt. destruct pre' as [|c pre'].
        -- simpl in *. now subst post'.
        -- simpl in E. injection E as -> E. simpl. rewrite <- app_assoc.
           apply Hleast; [assumption | simpl in Hlt; lia].
      * intros (pre & post & E & -> & Hm & Hleast).
        destruct pre as [|c pre].
        -- simpl in *. subst post. congruence.
        -- simpl in E. injection E as -> ->. exists pre, post.
           simpl in Hm. rewrite <- app_assoc in Hm. simpl in Hm.
           repeat split; [simpl; lia | assumption |].
           intros pre' post' E Hlt.
           specialize (Hleast (c :: pre') post'). simpl in Hleast.
           rewrite <- app_assoc in Hleast. apply Hleast; [now rewrite E | lia].
Qed.

Lemma test_true (re : RegExp) (s : jsstring) :
  test re s = true <->
  exists pre post, s = pre ++ post /\ matchAt re (rev pre) post <> None.
Proof.
  unfold test. destruct (execFrom re [] s) as [[n y]|] eqn:E.
  - split; [intros _ | reflexivity].
    apply execFrom_Some in E. destruct E as (pre & post & -> & _ & Hm & _).
    exists pre, post. rewrite app_nil_r in Hm. split; congruence.
  - split; [discriminate|]. intros (pre & post & -> & Hm).
    rewrite execFrom_None in E. specialize (E pre post eq_refl).
    rewrite app_nil_r in E. contradiction.
Qed.

Lemma test_false (re : RegExp) (s : jsstring) :
  test re s = false <->
  forall pre post, s = pre ++ post -> matchAt re (rev pre) post = None.
Proof.
  unfold test. destruct (execFrom re [] s) as [[n y]|] eqn:E.
  - split; [discriminate|]. intros H.
    apply execFrom_Some in E. destruct E as (pre & post & -> & _ & Hm & _).
    rewrite app_nil_r in Hm. rewrite (H pre post eq_refl) in Hm. discriminate.
  - split; [|reflexivity]. intros _ pre post ->.
    rewrite execFrom_None in E. specialize (E pre post eq_refl).
    now rewrite app_nil_r in E.
Qed.

(** ** Rule 9: the first match *)

(** An occurrence of an equation text, whatever follows it, is matched
    at its index. *)
Lemma equation_text_matchAt (before t a : list N) (op : N) (b r post : list N) :
  equation_text t a op b r ->
  matchAt re_equation before (t ++ post) <> None.
Proof.
  intros (w1 & w2 & w3 & w4 & -> & Ha & Hw1 & Hop & Hw2 & Hb & Hw3 & Hw4
          & [Hr Hrne]).
  rewrite matchAt_equation.
  set (d := takeWhile is_digit post).
  assert (E : (a ++ w1 ++ op :: w2 ++ b ++ w3 ++ cu "=" :: w4 ++ r) ++ post
              = (a ++ w1 ++ op :: w2 ++ b ++ w3 ++ cu "=" :: w4 ++ r ++ d)
                ++ dropWhile is_digit post).
  { rewrite <- (takeWhile_dropWhile is_digit post) at 1. fold d.
    repeat (rewrite <- app_assoc; cbn [app]). reflexivity. }
  rewrite E.
  rewrite scan_equation_complete with (a := a) (op := op) (b := b) (r := r ++ d).
  - discriminate.
  - exists w1, w2, w3, w4.
    do 8 (split; [reflexivity || assumption|]). split.
    + apply all_in_app. split; [assumption | apply takeWhile_all].
    + intros Hnil. apply app_eq_nil in Hnil. now destruct Hnil.
  - apply dropWhile_no_head.
Qed.

Lemma match_first_equation (s t a : jsstring) (op : N) (b r : jsstring) :
  first_equation s t a op b r ->
  match_ s re_equation = Some [Some t; Some a; Some [op]; Some b; Some r].
Proof.
  intros (pre & post & -> & Ht & Hpost & Hfirst).
  unfold match_.
  assert (E : execFrom re_equation [] (pre ++ t ++ post)
              = Some (length pre,
                      mkState (rev t ++ rev pre ++ []) post
                        [Some a; Some [op]; Some b; Some r])).
  { apply execFrom_Some. exists pre, (t ++ post). repeat split.
    - rewrite matchAt_equation. now apply scan_equation_complete.
    - intros pre' post' E Hlt.
      destruct (matchAt re_equation (rev pre' ++ []) post') as [y|] eqn:Hm;
        [|reflexivity].
      rewrite matchAt_equation in Hm. apply scan_equation_sound in Hm.
      destruct Hm as (t' & a' & op' & b' & r' & post'' & -> & Ht' & _ & _).
      assert (length pre <= length pre'); [|lia].
      apply (Hfirst (length pre') t' a' op' b' r').
      exists pre', post''. now repeat split. }
  rewrite E. unfold endIndex. cbn [consumed captures].
  rewrite app_nil_r. rewrite <- (length_rev pre), capture_substring.
  reflexivity.
Qed.

Lemma match_equation_Some (s : jsstring) (arr : list (option jsstring)) :
  match_ s re_equation = Some arr ->
  exists t a op b r,
    first_equation s t a op b r
    /\ arr = [Some t; Some a; Some [op]; Some b; Some r].
Proof.
  intros H. pose proof H as H0. unfold match_ in H0.
  destruct (execFrom re_equation [] s) as [[n y]|] eqn:E; [|discriminate].
  clear H0.
  apply execFrom_Some in E. destruct E as (pre & post0 & -> & -> & Hm & Hleast).
  rewrite matchAt_equation in Hm. apply scan_equation_sound in Hm.
  destruct Hm as (t & a & op & b & r & post & -> & Ht & Hpost & ->).
  assert (Hfirst : first_equation (pre ++ t ++ post) t a op b r).
  { exists pre, post. repeat split; try assumption.
    intros start' t' a' op' b' r' (pre' & post' & E & <- & Ht').
    destruct (Nat.le_gt_cases (length pre) (length pre')) as [|Hlt];
      [assumption | exfalso].
    specialize (Hleast pre' (t' ++ post') E Hlt).
    now apply (equation_text_matchAt (rev pre' ++ []) post') in Ht'. }
  exists t, a, op, b, r. split; [assumption|].
  rewrite (match_first_equation Hfirst) in H. congruence.
Qed.

Lemma match_equation_None (s : jsstring) :
  match_ s re_equation = None <->
  forall start t a op b r, ~ equation_at s start t a op b r.
Proof.
  split.
  - unfold match_. intros H start t a op b r (pre & post & -> & _ & Ht).
    destruct (execFrom re_equation [] (pre ++ t ++ post)) as [[n y]|] eqn:E;
      [discriminate|].
    rewrite execFrom_None in E. specialize (E pre (t ++ post) eq_refl).
    now apply (equation_text_matchAt (rev pre ++ []) post) in Ht.
  - intros H. destruct (match_ s re_equation) as [arr|] eqn:E; [|reflexivity].
    apply match_equation_Some in E.
    destruct E as (t & a & op & b & r & (pre & post & -> & Ht & _) & _).
    exfalso. apply (H (length pre) t a op b r). exists pre, post.
    now repeat split.
Qed.

(** ** Numbers read from digits *)

Lemma digit_value_digit (c : N) :
  is_digit c = true -> digit_value 10 c = Some (Z.of_N c - 48)%Z.
Proof.
  intros H. unfold digit_value. rewrite H.
  replace (Z.of_N c - 48 <? 10)%Z with true; [reflexivity|].
  symmetry. apply Z.ltb_lt. unfold is_digit, in_range in H. lia.
Qed.

Lemma parse_digits_decimal (ds : jsstring) (acc : Z) (n : nat) :
  all_in is_digit ds ->
  parse_digits 10 ds acc n
  = (fold_left (fun acc c => (acc * 10 + (Z.of_N c - 48))%Z) ds acc,
     n + length ds).
Proof.
  unfold all_in. revert acc n. induction ds as [|c ds IH]; intros acc n H.
  - simpl. now rewrite Nat.add_0_r.
  - simpl in H. apply andb_prop in H. destruct H as [Hc H].
    cbn [parse_digits fold_left length]. rewrite digit_value_digit by assumption.
    rewrite IH by assumption. f_equal. lia.
Qed.

(** [parseInt] of a run of digits is the Number value of the integer
    they denote. *)
Lemma parseInt_digits (ds : jsstring) :
  all_in is_digit ds -> ds <> [] -> parseInt (Some ds) = F_of_Z (decimal ds).
Proof.
  intros Hall Hne. destruct ds as [|d0 ds]; [contradiction|].
  assert (Hd0 : is_digit d0 = true).
  { unfold all_in in Hall. simpl in Hall. now apply andb_prop in Hall. }
  unfold parseInt. cbn [trimStart].
  rewrite (digit_not_space _ Hd0).
  replace (N.eqb d0 (cu "-")) with false
    by (change (cu "-") with 45%N; unfold is_digit, in_range in Hd0; lia).
  replace (N.eqb d0 (cu "+")) with false
    by (change (cu "+") with 43%N; unfold is_digit, in_range in Hd0; lia).
  assert (Hrest :
    match parse_digits 10 (d0 :: ds) 0 0 with
    | (mathInt, 0) => NaN
    | (mathInt, S _) =>
        if (mathInt =? 0)%Z then S754_zero false else F_of_Z mathInt
    end = F_of_Z (decimal (d0 :: ds))).
  { rewrite parse_digits_decimal by assumption.
    fold (decimal (d0 :: ds)). cbn [Nat.add length].
    destruct (decimal (d0 :: ds) =? 0)%Z eqn:Ez; [|reflexivity].
    apply Z.eqb_eq in Ez. now rewrite Ez. }
  destruct ds as [|d1 ds]; [exact Hrest|].
  assert (Hd1 : is_digit d1 = true).
  { unfold all_in in Hall. simpl in Hall.
    apply andb_prop in Hall. destruct Hall as [_ Hall].
    now apply andb_prop in Hall. }
  replace (N.eqb d1 (cu "x")) with false
    by (change (cu "x") with 120%N; unfold is_digit, in_range in Hd1; lia).
  replace (N.eqb d1 (cu "X")) with false
    by (change (cu "X") with 88%N; unfold is_digit, in_range in Hd1; lia).
  rewrite andb_false_r. exact Hrest.
Qed.

(** ** Rule 9: the validator *)

Lemma validator9_try_returns (value : jsstring) :
  exists valid, validator9_try value = Normal valid.
Proof.
  unfold validator9_try.
  destruct (match_ value re_equation) as [arr|]; [|now exists false].
  cbn [destructure bind].
  repeat match goal with
         | |- context [if ?b then _ else _] => destruct b
         end; eexists; reflexivity.
Qed.

Lemma validator9_returns (value : jsstring) :
  exists valid, validator9 value = Normal valid.
Proof.
  unfold validator9. destruct (validator9_try_returns value) as [valid ->].
  now exists valid.
Qed.

Lemma validator9_first_equation (s t a : jsstring) (op : N) (b r : jsstring) :
  first_equation s t a op b r ->
  validator9 s = Normal (holds_in_numbers a op b r).
Proof.
  intros Hfirst. pose proof Hfirst as (pre & post & _ & Ht & _).
  destruct Ht as (w1 & w2 & w3 & w4 & _ & [Ha Hane] & _ & _ & _ & [Hb Hbne]
                  & _ & _ & [Hr Hrne]).
  unfold validator9, validator9_try.
  rewrite (match_first_equation Hfirst).
  cbn [destructure nth bind is_string jsstring_eqb str].
  rewrite !parseInt_digits by assumption.
  unfold holds_in_numbers, number_op. rewrite !andb_true_r.
  repeat match goal with
         | |- context [N.eqb op ?c] => destruct (N.eqb op c)
         end; reflexivity.
Qed.

Lemma validator9_no_equation (s : jsstring) :
  (forall start t a op b r, ~ equation_at s start t a op b r) ->
  validator9 s = Normal false.
Proof.
  intros H. apply match_equation_None in H.
  unfold validator9, validator9_try. now rewrite H.
Qed.

Lemma first_equation_unique (s t a : jsstring) (op : N) (b r : jsstring)
    (t' a' : jsstring) (op' : N) (b' r' : jsstring) :
  first_equation s t a op b r -> first_equation s t' a' op' b' r' ->
  t = t' /\ a = a' /\ op = op' /\ b = b' /\ r = r'.
Proof.
  intros H H'. apply match_first_equation in H, H'.
  rewrite H in H'. injection H' as -> -> -> -> ->. now repeat split.
Qed.

(** ** Rules 5 and 7: the match at one index *)

Lemma characterSetMatcher_plain (p : N -> bool) (x : MatchState) (c : Continuation) :
  characterSetMatcher false false p x c
  = match rest x with
    | ch :: after' =>
        if p ch then c (mkState (ch :: consumed x) after' (captures x)) else None
    | [] => None
    end.
Proof.
  unfold characterSetMatcher. destruct (rest x) as [|ch after']; [reflexivity|].
  cbn [class_mem]. now destruct (p ch).
Qed.

Lemma repeatMatcher_twice (m : Matcher) (k : nat) (x : MatchState) (c : Continuation) :
  repeatMatcher m [] (2 + k) 2 (Some 2) x c = m x (fun y => m y c).
Proof. destruct k; reflexivity. Qed.

Lemma backreference_single (ch : N) (x : MatchState) (c : Continuation) (n : nat) :
  getCapture n x = Some [ch] ->
  backreferenceMatcher false n x c
  = match rest x with
    | ch' :: after' =>
        if N.eqb ch ch' then c (mkState (ch' :: consumed x) after' (captures x))
        else None
    | [] => None
    end.
Proof.
  intros H. unfold backreferenceMatcher. rewrite H. cbn [advance].
  destruct (rest x) as [|ch' after']; [reflexivity|].
  cbn [canonicalize andb]. now destruct (N.eqb ch ch').
Qed.

Lemma matchAt_repeated (before after : list N) :
  matchAt re_repeated before after <> None <->
  exists c post, after = c :: c :: c :: post /\ is_dot c = true.
Proof.
  unfold matchAt, nCaptures.
  cbn [source ignoreCase re_repeated parens app length repeat].
  unfold dot, Exactly.
  rewrite compile_group_class_seq. cbn [rest consumed captures Nat.sub set_nth].
  destruct after as [|c1 after].
  { split; [congruence | now intros (c & post & E & _)]. }
  destruct (is_dot c1) eqn:Hdot.
  2:{ split; [congruence|]. intros (c & post & E & Hc). congruence. }
  cbn [compile parens rest]. rewrite repeatMatcher_twice.
  rewrite backreference_single with (ch := c1) by reflexivity.
  cbn [rest consumed captures].
  destruct after as [|c2 after].
  { split; [congruence | now intros (c & post & E & _)]. }
  destruct (N.eqb_spec c1 c2) as [<-|Hne].
  2:{ split; [congruence|]. intros (c & post & E & Hc). congruence. }
  rewrite backreference_single with (ch := c1) by reflexivity.
  cbn [rest consumed captures].
  destruct after as [|c3 after].
  { split; [congruence | now intros (c & post & E & _)]. }
  destruct (N.eqb_spec c1 c3) as [<-|Hne].
  2:{ split; [congruence|]. intros (c & post & E & Hc). congruence. }
  split; [intros _ | discriminate]. now exists c1, after.
Qed.

Ltac run_matcher :=
  repeat (cbv beta; cbn [rest consumed captures];
          first [ rewrite characterSetMatcher_plain
                | rewrite repeatMatcher_twice ]);
  cbv beta; cbn [rest consumed captures].

Lemma compile_19xx (before after : list N) (caps : list (option jsstring))
    (k : Continuation) :
  compile false (lit "19" ++ Exactly 2 digit) (mkState before after caps) k
  = match after with
    | d1 :: d2 :: d3 :: d4 :: post =>
        if N.eqb 49 d1 && N.eqb 57 d2 && is_digit d3 && is_digit d4
        then k (mkState (d4 :: d3 :: d2 :: d1 :: before) post caps)
        else None
    | _ => None
    end.
Proof.
  unfold Exactly, digit. cbn [lit compile parens].
  change (cu "1") with 49%N. change (cu "9") with 57%N.
  destruct after as [|d1 after]; run_matcher; [reflexivity|].
  destruct (N.eqb 49 d1); [|now destruct after as [|? [|? [|? ?]]]].
  destruct after as [|d2 after]; run_matcher; [reflexivity|].
  destruct (N.eqb 57 d2); [|now destruct after as [|? [|? ?]]].
  destruct after as [|d3 after]; run_matcher; [reflexivity|].
  destruct (is_digit d3); [|now destruct after as [|? ?]].
  destruct after as [|d4 after]; run_matcher; [reflexivity|].
  destruct (is_digit d4); reflexivity.
Qed.

Lemma compile_20xx (before after : list N) (caps : list (option jsstring))
    (k : Continuation) :
  compile false (lit "20" ++ Class false is_0_2 ++ digit)
    (mkState before after caps) k
  = match after with
    | d1 :: d2 :: d3 :: d4 :: post =>
        if N.eqb 50 d1 && N.eqb 48 d2 && is_0_2 d3 && is_digit d4
        then k (mkState (d4 :: d3 :: d2 :: d1 :: before) post caps)
        else None
    | _ => None
    end.
Proof.
  unfold digit. cbn [lit compile parens].
  change (cu "2") with 50%N. change (cu "0") with 48%N.
  destruct after as [|d1 after]; run_matcher; [reflexivity|].
  destruct (N.eqb 50 d1); [|now destruct after as [|? [|? [|? ?]]]].
  destruct after as [|d2 after]; run_matcher; [reflexivity|].
  destruct (N.eqb 48 d2); [|now destruct after as [|? [|? ?]]].
  destruct after as [|d3 after]; run_matcher; [reflexivity|].
  destruct (is_0_2 d3); [|now destruct after as [|? ?]].
  destruct after as [|d4 after]; run_matcher; [reflexivity|].
  destruct (is_digit d4); reflexivity.
Qed.

Lemma is_year_digits (d1 d2 d3 d4 : N) :
  is_year [d1; d2; d3; d4] <->
  (N.eqb 49 d1 && N.eqb 57 d2 && is_digit d3 && is_digit d4
   || N.eqb 50 d1 && N.eqb 48 d2 && is_0_2 d3 && is_digit d4) = true.
Proof.
  unfold is_year, all_in, decimal. cbn [length forallb fold_left].
  unfold is_digit, is_0_2, in_range. split.
  - intros (_ & H & R). lia.
  - intros H. split; [reflexivity|]. lia.
Qed.

Lemma four_prefix (d1 d2 d3 d4 : N) (post y post' : list N) :
  length y = 4 -> d1 :: d2 :: d3 :: d4 :: post = y ++ post' ->
  y = [d1; d2; d3; d4] /\ post' = post.
Proof.
  intros Hlen E.
  destruct y as [|y1 [|y2 [|y3 [|y4 [|y5 y]]]]]; try discriminate.
  simpl in E. injection E as -> -> -> -> ->. now split.
Qed.

Lemma matchAt_year (before after : list N) :
  matchAt re_year before after <> None <->
  no_head is_word_char before
  /\ exists y post, after = y ++ post /\ is_year y /\ no_head is_word_char post.
Proof.
  unfold matchAt, nCaptures.
  cbn [source ignoreCase re_year parens app length repeat].
  set (A := (lit "19" ++ Exactly 2 digit)%re).
  set (B := (lit "20" ++ Class false is_0_2 ++ digit)%re).
  cbn [compile]. subst A B. rewrite compile_19xx, compile_20xx.
  destruct after as [|d1 [|d2 [|d3 [|d4 post]]]].
  1-4: split;
    [ destruct (xorb _ _); congruence
    | intros (_ & y & post' & E & (Hlen & _) & _);
      apply (f_equal (@length N)) in E; rewrite length_app in E;
      simpl in E; lia ].
  unfold isWordCharBefore, isWordCharAt, setCapture.
  cbn [consumed rest captures].
  assert (Hrhs :
    (no_head is_word_char before
     /\ exists y post', d1 :: d2 :: d3 :: d4 :: post = y ++ post'
          /\ is_year y /\ no_head is_word_char post')
    <-> (no_head is_word_char before /\ is_year [d1; d2; d3; d4]
         /\ no_head is_word_char post)).
  { split.
    - intros (Hb & y & post' & E & Hy & Hp).
      apply four_prefix in E; [|exact (proj1 Hy)]. destruct E as [-> ->]. split; [assumption | split; assumption].
    - intros (Hb & Hy & Hp). split; [assumption|].
      now exists [d1; d2; d3; d4], post. }
  rewrite Hrhs, is_year_digits. clear Hrhs.
  assert (Hb : forall l, no_head is_word_char l
                 <-> match l with [] => false | ch :: _ => is_word_char ch end
                     = false).
  { intros [|ch l]; simpl; [now split | reflexivity]. }
  rewrite !Hb. clear Hb.
  set (wb := match before with [] => false | ch :: _ => is_word_char ch end).
  set (wa := match post with [] => false | ch :: _ => is_word_char ch end).
  destruct (N.eqb 49 d1 && N.eqb 57 d2 && is_digit d3 && is_digit d4) eqn:HA;
    destruct (N.eqb 50 d1 && N.eqb 48 d2 && is_0_2 d3 && is_digit d4) eqn:HB;
    cbn [orb].
  4:{ destruct (xorb wb (is_word_char d1)); split; try congruence;
        intros (_ & H & _); discriminate. }
  all: assert (H1 : is_word_char d1 = true) by classes;
    assert (H4 : is_word_char d4 = true) by classes;
    rewrite H1, H4; clear HA HB H1 H4;
    destruct wb, wa; cbn [xorb]; split; try congruence;
    try (intros _; now repeat split);
    try (intros (H & _ & H'); discriminate).
Qed.

(** ** Rule 6: splitting at white space *)

Lemma matchAt_spaces (before after : list N) :
  matchAt re_spaces before after
  = match takeWhile is_space after with
    | [] => None
    | w => Some (mkState (rev w ++ before) (dropWhile is_space after) [])
    end.
Proof.
  unfold matchAt, nCaptures.
  cbn [source ignoreCase re_spaces parens length repeat]. unfold space.
  rewrite compile_plus_class. cbn [rest consumed captures].
  destruct after as [|ch after]; [reflexivity|].
  cbn [takeWhile dropWhile]. destruct (is_space ch); [|reflexivity].
  apply star_run_longest. f_equal. f_equal.
  simpl. now rewrite <- app_assoc.
Qed.

Lemma fields_sep (cur : list N) (l : jsstring) :
  no_head is_space l -> fields cur true l = fields cur false l.
Proof. destruct l as [|ch l]; [reflexivity|]. simpl. now intros ->. Qed.

Lemma splitLoop_fields (after : list N) (skip : nat) (piece before : list N) :
  skip = 0 \/ (skip = length (takeWhile is_space after) /\ piece = []) ->
  splitLoop re_spaces skip piece before after = fields piece (0 <? skip) after.
Proof.
  revert skip piece before.
  induction after as [|ch after IH]; intros skip piece before Hs.
  - destruct Hs as [-> | [-> ->]]; reflexivity.
  - assert (Hnext : forall k b,
      k = length (takeWhile is_space after) ->
      splitLoop re_spaces k [] b after = fields [] true after).
    { intros k b Hk. rewrite IH by (right; now split).
      destruct k as [|k]; [|reflexivity].
      symmetry. apply fields_sep.
      destruct after as [|c after]; [exact I|]. simpl in *.
      destruct (is_space c); [discriminate | reflexivity]. }
    destruct skip as [|k].
    + cbn [splitLoop fields Nat.ltb Nat.leb]. rewrite matchAt_spaces.
      cbn [takeWhile dropWhile]. destruct (is_space ch) eqn:Hch.
      * unfold endIndex. cbn [consumed].
        replace (length (rev (ch :: takeWhile is_space after) ++ before)
                 - length before)
          with (S (length (takeWhile is_space after)))
          by (rewrite length_app, length_rev; cbn [length]; lia).
        rewrite Hnext by reflexivity. now destruct piece.
      * now rewrite IH by (now left).
    + destruct Hs as [Hs | [Hs ->]]; [discriminate|].
      cbn [takeWhile] in Hs. destruct (is_space ch) eqn:Hch; [|discriminate].
      cbn [splitLoop fields Nat.ltb Nat.leb]. rewrite Hch.
      apply Hnext. simpl in Hs. lia.
Qed.

Lemma split_spaces (s : jsstring) : split s re_spaces = fields [] false s.
Proof.
  destruct s as [|c s]; [reflexivity|].
  unfold split. now rewrite splitLoop_fields by (now left).
Qed.

Lemma head_in_rev_app (p : N -> bool) (l : jsstring) (c : N) (u : jsstring) :
  p c = true -> head_in p (rev l) -> head_in p (rev (u ++ c :: l)).
Proof.
  intros Hc Hl. rewrite rev_app_distr. simpl. rewrite <- app_assoc. simpl.
  destruct (rev l) as [|x r]; simpl; assumption.
Qed.

Lemma head_in_rev_app_inv (p : N -> bool) (l : jsstring) (c : N) (u : jsstring) :
  head_in p (rev (u ++ c :: l)) -> head_in p (rev l).
Proof.
  rewrite rev_app_distr. simpl. rewrite <- app_assoc.
  destruct (rev l) as [|x r]; simpl; [intros _; exact I | trivial].
Qed.

(** In a string without white space the only word is the string itself. *)
Lemma is_word_no_space (u w : jsstring) :
  all_in not_space u -> (is_word u w <-> w = u /\ u <> []).
Proof.
  intros Hu. split.
  - intros (pre & post & -> & Hne & Hw & Hpre & Hpost).
    apply all_in_app in Hu. destruct Hu as [Hu1 Hu2].
    apply all_in_app in Hu2. destruct Hu2 as [_ Hu2].
    assert (pre = []) as ->.
    { destruct pre as [|c pre] using rev_ind; [reflexivity|].
      rewrite rev_app_distr in Hpre. simpl in Hpre.
      apply all_in_app in Hu1. destruct Hu1 as [_ Hu1].
      unfold all_in, not_space in Hu1. simpl in Hu1.
      rewrite Hpre in Hu1. discriminate. }
    assert (post = []) as ->.
    { destruct post as [|c post]; [reflexivity|]. simpl in Hpost.
      unfold all_in, not_space in Hu2. simpl in Hu2.
      rewrite Hpost in Hu2. discriminate. }
    simpl. rewrite !app_nil_r. now split.
  - intros [-> Hne]. exists [], []. simpl. rewrite app_nil_r.
    now repeat split.
Qed.

(** The words of a string are its first piece, if not empty, and the
    words of what follows the first white space. *)
Lemma is_word_cons_space (u : jsstring) (ch : N) (l w : jsstring) :
  all_in not_space u -> is_space ch = true ->
  (is_word (u ++ ch :: l) w <-> (w = u /\ u <> []) \/ is_word l w).
Proof.
  intros Hu Hch. split.
  - intros (pre & post & E & Hne & Hw & Hpre & Hpost).
    apply app_eq_app in E. destruct E as [m [[E1 E2] | [E1 E2]]].
    + (* the word starts inside [u] *)
      subst u. apply all_in_app in Hu. destruct Hu as [Hu1 Hu2].
      assert (pre = []) as ->.
      { destruct pre as [|c pre] using rev_ind; [reflexivity|].
        rewrite rev_app_distr in Hpre. simpl in Hpre.
        apply all_in_app in Hu1. destruct Hu1 as [_ Hu1].
        unfold all_in, not_space in Hu1. simpl in Hu1.
        rewrite Hpre in Hu1. discriminate. }
      simpl in *. left.
      apply app_eq_app in E2. destruct E2 as [m' [[E3 E4] | [E3 E4]]].
      * destruct m' as [|c m'].
        -- rewrite app_nil_r in E3. subst. now split.
        -- simpl in E4. injection E4 as <- _. subst w.
           apply all_in_app in Hw. destruct Hw as [_ Hw].
           unfold all_in, not_space in Hw. simpl in Hw.
           rewrite Hch in Hw. discriminate.
      * destruct m' as [|c m'].
        -- rewrite app_nil_r in E3. subst. now split.
        -- subst m post. simpl in Hpost.
           apply all_in_app in Hu2. destruct Hu2 as [_ Hu2].
           unfold all_in, not_space in Hu2. simpl in Hu2.
           rewrite Hpost in Hu2. discriminate.
    + (* the word starts after [u] *)
      destruct m as [|c m].
      * simpl in E2. destruct w as [|c w]; [contradiction|].
        simpl in E2. injection E2 as <- _.
        unfold all_in, not_space in Hw. simpl in Hw.
        rewrite Hch in Hw. discriminate.
      * simpl in E2. injection E2 as <- ->. subst pre. right.
        exists m, post. repeat split; try assumption.
        now apply head_in_rev_app_inv in Hpre.
  - intros [[-> Hne] | (pre & post & -> & Hne & Hw & Hpre & Hpost)].
    + exists [], (ch :: l). now repeat split.
    + exists (u ++ ch :: pre), post. rewrite <- app_assoc. simpl.
      repeat split; try assumption. now apply head_in_rev_app.
Qed.

Lemma fields_words (l : jsstring) (cur : list N) (sep : bool) (w : jsstring) :
  all_in not_space (rev cur) -> (sep = true -> cur = []) ->
  (In w (fields cur sep l) /\ w <> [] <-> is_word (rev cur ++ l) w).
Proof.
  revert cur sep. induction l as [|ch l IH]; intros cur sep Hcur Hsep.
  - simpl. rewrite app_nil_r, is_word_no_space by assumption. split.
    + intros [[<- | []] Hne]. now split.
    + intros [-> Hne]. split; [now left | assumption].
  - cbn [fields]. destruct (is_space ch) eqn:Hch.
    + rewrite is_word_cons_space by assumption.
      specialize (IH [] true eq_refl (fun _ => eq_refl)). simpl in IH.
      rewrite <- IH. destruct sep.
      * rewrite (Hsep eq_refl). simpl. split.
        -- intros H. now right.
        -- intros [[_ H] | H]; [contradiction | assumption].
      * simpl. split.
        -- intros [[<- | H] Hne]; [left | right]; now split.
        -- intros [[-> Hne] | [H Hne]]; (split; [|assumption]);
             [now left | now right].
    + rewrite IH.
      * simpl. now rewrite <- app_assoc.
      * simpl. apply all_in_app. split; [assumption|].
        unfold all_in, not_space. simpl. now rewrite Hch.
      * discriminate.
Qed.

Lemma split_words (s w : jsstring) :
  In w (split s re_spaces) /\ w <> [] <-> is_word s w.
Proof.
  rewrite split_spaces. apply (@fields_words s [] false w); [reflexivity | discriminate].
Qed.

(** ** Rule 6: cleaning a word *)

Lemma matchAt_non_letter (before after : list N) :
  matchAt re_non_letter before after
  = match after with
    | ch :: after' =>
        if is_lower ch then None else Some (mkState (ch :: before) after' [])
    | [] => None
    end.
Proof.
  unfold matchAt, nCaptures.
  cbn [source ignoreCase re_non_letter parens length repeat compile].
  unfold characterSetMatcher. cbn [rest consumed captures class_mem].
  destruct after as [|ch after']; [reflexivity|]. now destruct (is_lower ch).
Qed.

Lemma replace_non_letter (after before : list N) :
  replaceLoop re_non_letter [] 0 before after = filter is_lower after.
Proof.
  revert before. induction after as [|ch after IH]; intros before.
  - reflexivity.
  - cbn [replaceLoop filter]. rewrite matchAt_non_letter.
    destruct (is_lower ch).
    + now rewrite IH.
    + unfold endIndex. cbn [consumed length app].
      replace (S (length before) - length before) with 1 by lia.
      apply IH.
Qed.

Lemma cleaned_letters (word : jsstring) : cleaned word = letters word.
Proof. unfold cleaned, replace. apply replace_non_letter. Qed.

Lemma join_reverse_split (l : jsstring) :
  join_empty (reverse (split_chars l)) = rev l.
Proof.
  unfold join_empty, reverse, split_chars.
  induction l as [|c l IH]; [reflexivity|].
  simpl. now rewrite concat_app, IH.
Qed.

Lemma jsstring_eqb_eq (s t : jsstring) : jsstring_eqb s t = true <-> s = t.
Proof.
  revert t. induction s as [|a s IH]; intros [|b t]; simpl;
    try (split; [discriminate | discriminate]); [now split|].
  rewrite andb_true_iff, N.eqb_eq, IH. split.
  - now intros [-> ->].
  - intros E. now injection E.
Qed.

(** ** Rule 6: the validator *)

Lemma Normal_inj {A} (a b : A) : Normal a = Normal b -> a = b.
Proof. congruence. Qed.

Lemma validator6_words (value : jsstring) :
  validator6 value = Normal true <->
  exists w, is_word value w
            /\ 3 <= length (letters w) /\ palindrome (letters w).
Proof.
  unfold validator6, some. split.
  - intros H. apply Normal_inj in H. apply existsb_exists in H.
    destruct H as (w & Hin & Hw). apply andb_prop in Hw.
    destruct Hw as [Hlen Hpal]. rewrite cleaned_letters in *.
    apply Nat.leb_le in Hlen. rewrite join_reverse_split in Hpal.
    apply jsstring_eqb_eq in Hpal.
    exists w. repeat split; try assumption.
    apply split_words. split; [assumption|].
    intros ->. simpl in Hlen. lia.
  - intros (w & Hw & Hlen & Hpal). f_equal. apply existsb_exists.
    exists w. split; [now apply split_words in Hw|].
    rewrite cleaned_letters, join_reverse_split. apply andb_true_iff. split.
    + now apply Nat.leb_le.
    + now apply jsstring_eqb_eq.
Qed.

(** * The rule set of the page *)

Lemma rules_return (r : Rule) (value : jsstring) :
  In r rules -> exists valid, validator r value = Normal valid.
Proof.
  intros H. simpl in H.
  repeat (destruct H as [<- | H]; [try (eexists; reflexivity)|]);
    try contradiction.
  apply validator9_returns.
Qed.

Lemma evaluate_returns (i : nat) (value : jsstring) :
  exists valid, evaluate rules i value = Normal valid.
Proof.
  unfold evaluate. destruct (find_rule rules i) as [r|] eqn:E.
  - apply rules_return. unfold find_rule in E. now apply find_some in E.
  - now exists false.
Qed.

Lemma evaluate_rule (r : Rule) (value : jsstring) :
  In r rules -> evaluate rules (id r) value = validator r value.
Proof.
  intros H. simpl in H.
  repeat (destruct H as [<- | H]; [reflexivity|]). contradiction.
Qed.

Lemma rules_ids_sorted : StronglySorted lt (map id rules).
Proof. simpl. repeat constructor; lia. Qed.

Lemma StronglySorted_map_filter {A} (f : A -> nat) (g : A -> bool) (l : list A) :
  StronglySorted lt (map f l) -> StronglySorted lt (map f (filter g l)).
Proof.
  induction l as [|a l IH]; intros H; [constructor|].
  simpl in H. apply StronglySorted_inv in H. destruct H as [Hs Hall].
  simpl. destruct (g a); [|now apply IH].
  simpl. constructor; [now apply IH|].
  rewrite Forall_forall in *. intros x Hx. apply Hall.
  rewrite in_map_iff in *. destruct Hx as (y & <- & Hy).
  exists y. split; [reflexivity|]. now apply filter_In in Hy.
Qed.

(** C1. [updateVisibleRules], for every input and every strictly
    increasing list of visible ids: an empty input gives the empty list;
    a non-empty input with nothing visible gives [1], whatever rule 1
    says; otherwise, with [last] the maximum visible id, [last + 1] is
    appended exactly when [evaluate last input] is true, [last + 1] is at
    most the number of rules and [last + 1] is not visible yet, and the
    list is returned unchanged in every other case. *)
Theorem updateVisibleRules_cases (input : jsstring) (prev : list nat) :
  increasing prev = true ->
  (input = [] -> updateVisibleRules rules input prev = Normal [])
  /\ (input <> [] -> prev = [] ->
      updateVisibleRules rules input prev = Normal [1])
  /\ (input <> [] -> prev <> [] ->
      let last := list_max prev in
      exists valid,
        evaluate rules last input = Normal valid
        /\ (valid = true /\ last + 1 <= length rules /\ ~ In (last + 1) prev ->
            updateVisibleRules rules input prev = Normal (prev ++ [last + 1]))
        /\ (~ (valid = true /\ last + 1 <= length rules /\ ~ In (last + 1) prev) ->
            updateVisibleRules rules input prev = Normal prev)).
Proof.
  intros Hinc. split; [|split].
  - intros ->. apply updateVisibleRules_reset.
  - intros Hne ->. now apply updateVisibleRules_first.
  - intros Hne Hprev last.
    destruct (evaluate_returns last input) as [valid Hv].
    exists valid. split; [assumption|].
    rewrite updateVisibleRules_next by assumption.
    rewrite increasing_last_max by assumption. fold last. rewrite Hv.
    cbn [bind].
    destruct (valid && (last + 1 <=? length rules)
              && negb (includes prev (last + 1))) eqn:Hc.
    + split; [reflexivity|]. intros Hn. exfalso. apply Hn.
      apply andb_prop in Hc. destruct Hc as [Hc Hin].
      apply andb_prop in Hc. destruct Hc as [Hval Hle].
      repeat split; [assumption | now apply Nat.leb_le |].
      intros Hi. apply includes_In in Hi. rewrite Hi in Hin. discriminate.
    + split; [|reflexivity]. intros (Hval & Hle & Hin). exfalso.
      apply Nat.leb_le in Hle. rewrite Hval, Hle in Hc. simpl in Hc.
      apply negb_false_iff in Hc. now apply includes_In in Hc.
Qed.

Lemma updateVisibleRules_cases_witness :
  increasing [1] = true
  /\ updateVisibleRules rules (str "abcde") [1] = Normal ([1] ++ [1 + 1]).
Proof.
  split; [reflexivity|].
  destruct (updateVisibleRules_cases (str "abcde") [1] eq_refl)
    as (_ & _ & H).
  destruct (H ltac:(discriminate) ltac:(discriminate)) as (valid & Hv & Happ & _).
  apply Happ. vm_compute in Hv. injection Hv as <-.
  split; [reflexivity|]. split; [vm_compute; lia|].
  simpl. intros [E | []]. discriminate.
Defined.

(** On a list that is not increasing the rule examined is the one of
    the last element, which need not be the maximum. *)
Example updateVisibleRules_unsorted :
  updateVisibleRules rules (str "abcde") [3; 1] = Normal [3; 1; 2].
Proof. reflexivity. Qed.

(** C2. With a non-empty input, one call of [updateVisibleRules] keeps
    every visible id and adds at most one; and every state reached from
    the empty one is the increasing list of the ids 1 to k, for some k
    that is at most the number of rules. *)
Theorem updateVisibleRules_monotone_prefix :
  (forall input prev new,
     input <> [] -> updateVisibleRules rules input prev = Normal new ->
     (forall i, In i prev -> In i new)
     /\ exists extra, new = prev ++ extra /\ length extra <= 1)
  /\ (forall visible,
        reachable rules visible ->
        increasing visible = true
        /\ exists k, visible = seq 1 k /\ k <= length rules).
Proof.
  split.
  - intros input prev new Hne Hu.
    destruct (updateVisibleRules_grows _ _ Hne Hu) as (extra & -> & Hlen).
    split; [|now exists extra].
    intros i Hi. apply in_or_app. now left.
  - intros visible Hr.
    destruct (reachable_prefix (rs := rules) ltac:(discriminate) Hr)
      as (k & -> & Hk).
    split; [apply increasing_seq | now exists k].
Qed.

Lemma updateVisibleRules_monotone_prefix_witness :
  (forall i, In i [1] -> In i [1; 2])
  /\ increasing [1; 2] = true
  /\ exists k, [1; 2] = seq 1 k /\ k <= length rules.
Proof.
  destruct updateVisibleRules_monotone_prefix as [Hmono Hreach].
  assert (H1 : updateVisibleRules rules (str "abcde") [1] = Normal [1; 2])
    by reflexivity.
  split.
  - exact (proj1 (Hmono (str "abcde") [1] [1; 2] ltac:(discriminate) H1)).
  - apply Hreach.
    apply reachable_update with (password := str "abcde") (prev := [1]);
      [|exact H1].
    apply reachable_update with (password := str "a") (prev := []);
      [apply reachable_init | reflexivity].
Defined.

(** C8. For every list of visible ids and every input, the two groups
    are computed without an error; the passing group holds exactly the
    rules with a visible id whose evaluation is true, the failing group
    exactly those whose evaluation is false; no rule is in both, every
    rule with a visible id is in one of them, and each group lists its
    rules by ascending id. *)
Theorem fulfilled_unfulfilled_partition (visibleRules : list nat) (input : jsstring) :
  exists passing failing,
    fulfilledRules rules visibleRules input = Normal passing
    /\ unfulfilledRules rules visibleRules input = Normal failing
    /\ (forall r, In r passing <->
          In r rules /\ In (id r) visibleRules
          /\ evaluate rules (id r) input = Normal true)
    /\ (forall r, In r failing <->
          In r rules /\ In (id r) visibleRules
          /\ evaluate rules (id r) input = Normal false)
    /\ (forall r, ~ (In r passing /\ In r failing))
    /\ (forall r, In r rules -> In (id r) visibleRules ->
          In r passing \/ In r failing)
    /\ StronglySorted lt (map id passing)
    /\ StronglySorted lt (map id failing).
Proof.
  set (passes := fun r : Rule =>
         match validator r input with Normal b => b | Throw _ => false end).
  assert (Hval : forall r, In r rules -> validator r input = Normal (passes r)).
  { intros r Hr. unfold passes.
    destruct (rules_return input Hr) as [b ->]. reflexivity. }
  exists (filter (fun r => includes visibleRules (id r) && passes r) rules),
         (filter (fun r => includes visibleRules (id r) && negb (passes r)) rules).
  assert (Hin : forall r (f : bool -> bool) (b : bool),
            (forall x, f x = true <-> x = b) ->
            In r (filter (fun r => includes visibleRules (id r) && f (passes r)) rules)
            <-> In r rules /\ In (id r) visibleRules
                /\ evaluate rules (id r) input = Normal b).
  { intros r f b Hf. rewrite filter_In, andb_true_iff, includes_In, Hf.
    split.
    - intros (Hr & Hv & Hp). rewrite evaluate_rule, Hval by assumption.
      now rewrite Hp.
    - intros (Hr & Hv & He). rewrite evaluate_rule, Hval in He by assumption.
      repeat split; try assumption. congruence. }
  assert (Hpass : forall r,
            In r (filter (fun r => includes visibleRules (id r) && passes r) rules)
            <-> In r rules /\ In (id r) visibleRules
                /\ evaluate rules (id r) input = Normal true).
  { intros r. apply (Hin r (fun x => x) true). intros x. reflexivity. }
  assert (Hfail : forall r,
            In r (filter (fun r => includes visibleRules (id r) && negb (passes r)) rules)
            <-> In r rules /\ In (id r) visibleRules
                /\ evaluate rules (id r) input = Normal false).
  { intros r. apply (Hin r negb false). intros x. now destruct x. }
  split; [|split; [|split; [|split; [|split; [|split; [|split]]]]]].
  - unfold fulfilledRules. apply filterM_filter. intros r Hr.
    destruct (includes visibleRules (id r)); [now apply Hval | reflexivity].
  - unfold unfulfilledRules. apply filterM_filter. intros r Hr.
    destruct (includes visibleRules (id r)); [|reflexivity].
    now rewrite Hval.
  - exact Hpass.
  - exact Hfail.
  - intros r [H1 H2]. apply Hpass in H1. apply Hfail in H2.
    destruct H1 as (_ & _ & H1), H2 as (_ & _ & H2). congruence.
  - intros r Hr Hv. destruct (evaluate_returns (id r) input) as [[|] E].
    + left. now apply Hpass.
    + right. now apply Hfail.
  - apply StronglySorted_map_filter, rules_ids_sorted.
  - apply StronglySorted_map_filter, rules_ids_sorted.
Qed.

(** C9. Each of the ten validators returns a boolean on every string
    and throws on none.  In rule 9 that already holds of the [try]
    block, and whatever a [try] block does, a thrown error included, the
    handler turns it into a returned boolean, [false] for an error.
    (That a validator is a function of its argument alone is what its
    type says.) *)
Theorem validators_return :
  length rules = 10
  /\ Forall (fun r => forall value, exists valid, validator r value = Normal valid)
       rules
  /\ (forall value, exists valid,
        validator9_try value = Normal valid /\ validator9 value = Normal valid)
  /\ (forall e : error, tryCatch (Throw e) (Normal false) = Normal false)
  /\ (forall i value, exists valid, evaluate rules i value = Normal valid).
Proof.
  split; [reflexivity|]. split; [|split; [|split]].
  - apply Forall_forall. intros r Hr value. now apply rules_return.
  - intros value. destruct (validator9_try_returns value) as [valid E].
    exists valid. split; [assumption|]. unfold validator9. now rewrite E.
  - reflexivity.
  - apply evaluate_returns.
Qed.

(** C4. Rule 9 throws on no input: every call returns a boolean, so a
    failure shows as [false] only; "2+2=4" gives [true], "2+2=5" gives
    [false] and "5/0=0", a division by zero, gives [false]. *)
Theorem validator9_never_throws :
  (forall value, exists valid, validator9 value = Normal valid)
  /\ validator9 (str "2+2=4") = Normal true
  /\ validator9 (str "2+2=5") = Normal false
  /\ validator9 (str "5/0=0") = Normal false.
Proof.
  split; [exact validator9_returns|].
  repeat split; vm_compute; reflexivity.
Qed.

(** * Rule 9 *)

(** C3, as stated, fails on "2+2=5 2+2=4": the input contains the
    correct equation "2+2=4", and rule 9 is false, because the first
    match is "2+2=5". *)
Lemma validator9_not_any_equation :
  ~ (forall s,
       (contains_correct_equation s -> validator9 s = Normal true)
       /\ (~ contains_correct_equation s -> validator9 s = Normal false)).
Proof.
  intros H. destruct (H (str "2+2=5 2+2=4")) as [H1 _].
  assert (Hc : contains_correct_equation (str "2+2=5 2+2=4")).
  { exists 6, (str "2+2=4"), (str "2"), (cu "+"), (str "2"), (str "4").
    split; [|reflexivity].
    exists (str "2+2=5 "), []. split; [reflexivity|]. split; [reflexivity|].
    exists [], [], [], [].
    repeat split; (reflexivity || discriminate). }
  specialize (H1 Hc). vm_compute in H1. discriminate.
Qed.

(** C3, amended.  Rule 9 is true exactly when the leftmost substring of
    the form "digits, operator, digits, =, digits" (white space allowed
    around the operator and the equals sign, the result taken as long as
    the digits go) is an equation that holds in Number arithmetic, that
    is on the IEEE-754 doubles of its three integers; and rule 9 is false
    for every input without a substring of that form. *)
Theorem validator9_first_equation_holds (s : jsstring) :
  (validator9 s = Normal true <->
   exists t a op b r,
     first_equation s t a op b r /\ holds_in_numbers a op b r = true)
  /\ ((forall start t a op b r, ~ equation_at s start t a op b r) ->
      validator9 s = Normal false).
Proof.
  split; [split|].
  - intros H.
    destruct (match_ s re_equation) as [arr|] eqn:E.
    + apply match_equation_Some in E.
      destruct E as (t & a & op & b & r & Hfirst & _).
      exists t, a, op, b, r. split; [assumption|].
      rewrite (validator9_first_equation Hfirst) in H. congruence.
    + unfold validator9, validator9_try in H. rewrite E in H. discriminate.
  - intros (t & a & op & b & r & Hfirst & Hholds).
    rewrite (validator9_first_equation Hfirst). now rewrite Hholds.
  - apply validator9_no_equation.
Qed.

Lemma validator9_first_equation_holds_witness :
  validator9 (str "2+2=4 and 1+1=3") = Normal true.
Proof.
  apply (proj1 (validator9_first_equation_holds (str "2+2=4 and 1+1=3"))).
  exists (str "2+2=4"), (str "2"), (cu "+"), (str "2"), (str "4").
  split; [|reflexivity].
  exists [], (str " and 1+1=3"). split; [reflexivity|]. split; [|split].
  - exists [], [], [], []. repeat split; (reflexivity || discriminate).
  - reflexivity.
  - intros. simpl. lia.
Defined.

(** C10, as stated, fails on "9007199254740993+0=9007199254740992": the
    first (and only) match is an equation that is wrong in exact
    arithmetic, and rule 9 is true, because the left operand, 2^53 + 1,
    is read as the double 2^53. *)
Lemma validator9_rounding :
  ~ (forall s t a op b r,
       first_equation s t a op b r -> holds_exactly a op b r = false ->
       validator9 s = Normal false).
Proof.
  intros H.
  specialize (H (str "9007199254740993+0=9007199254740992")
                (str "9007199254740993+0=9007199254740992")
                (str "9007199254740993") (cu "+") (str "0")
                (str "9007199254740992")).
  assert (Hfirst : first_equation
            (str "9007199254740993+0=9007199254740992")
            (str "9007199254740993+0=9007199254740992")
            (str "9007199254740993") (cu "+") (str "0")
            (str "9007199254740992")).
  { exists [], []. split; [reflexivity|]. split; [|split].
    - exists [], [], [], []. repeat split; (reflexivity || discriminate).
    - exact I.
    - intros. simpl. lia. }
  specialize (H Hfirst eq_refl). vm_compute in H. discriminate.
Qed.

(** C10, amended.  Rule 9 looks at the leftmost match of its pattern
    only: when that match is an equation that does not hold in Number
    arithmetic (on the IEEE-754 doubles of its three integers), rule 9 is
    false, whatever follows it in the input, a correct equation
    included. *)
Theorem validator9_leftmost_only (s t a : jsstring) (op : N) (b r : jsstring) :
  first_equation s t a op b r -> holds_in_numbers a op b r = false ->
  validator9 s = Normal false.
Proof.
  intros Hfirst Hholds. rewrite (validator9_first_equation Hfirst).
  now rewrite Hholds.
Qed.

Lemma validator9_leftmost_only_witness :
  contains_correct_equation (str "2+2=5 2+2=4")
  /\ validator9 (str "2+2=5 2+2=4") = Normal false.
Proof.
  split.
  - exists 6, (str "2+2=4"), (str "2"), (cu "+"), (str "2"), (str "4").
    split; [|reflexivity].
    exists (str "2+2=5 "), []. split; [reflexivity|]. split; [reflexivity|].
    exists [], [], [], [].
    repeat split; (reflexivity || discriminate).
  - apply (@validator9_leftmost_only (str "2+2=5 2+2=4") (str "2+2=5")
             (str "2") (cu "+") (str "2") (str "5")); [|reflexivity].
    exists [], (str " 2+2=4"). split; [reflexivity|]. split; [|split].
    + exists [], [], [], []. repeat split; (reflexivity || discriminate).
    + reflexivity.
    + intros. simpl. lia.
Defined.

(** * Rule 5 *)

Lemma is_dot_line_terminator (c : N) :
  is_dot c = true <-> is_line_terminator c = false.
Proof. unfold is_dot. apply negb_true_iff. Qed.

Lemma test_repeated (s : jsstring) :
  test re_repeated s = true <-> has_dot_triple s.
Proof.
  rewrite test_true. split.
  - intros (pre & post & -> & Hm). apply matchAt_repeated in Hm.
    destruct Hm as (c & post' & -> & Hc).
    exists pre, c, post'. split; [reflexivity | now apply is_dot_line_terminator].
  - intros (pre & c & post & -> & Hc).
    exists pre, (c :: c :: c :: post). split; [reflexivity|].
    apply matchAt_repeated. exists c, post.
    split; [reflexivity | now apply is_dot_line_terminator].
Qed.

(** C5, as stated, fails on three U+2028 (LINE SEPARATOR) in a row, as
    it does on three line feeds: [.] matches no line terminator, so the
    run is not seen and rule 5 is true. *)
Lemma validator5_line_terminators :
  ~ (forall s,
       (has_triple s -> validator5 s = Normal false)
       /\ (~ has_triple s -> validator5 s = Normal true)).
Proof.
  intros H. destruct (H [8232; 8232; 8232]%N) as [H1 _].
  assert (Ht : has_triple [8232; 8232; 8232]%N) by (now exists [], 8232%N, []).
  specialize (H1 Ht). vm_compute in H1. discriminate.
Qed.

(** C5, amended.  Rule 5 is false for every string with three identical
    consecutive code units that are not a line terminator (LF, CR,
    U+2028, U+2029), and true for every string without such a run. *)
Theorem validator5_runs (s : jsstring) :
  (has_dot_triple s -> validator5 s = Normal false)
  /\ (~ has_dot_triple s -> validator5 s = Normal true).
Proof.
  unfold validator5. split; intros H.
  - apply test_repeated in H. now rewrite H.
  - destruct (test re_repeated s) eqn:E; [|reflexivity].
    apply test_repeated in E. contradiction.
Qed.

Lemma validator5_runs_witness :
  has_dot_triple (str "baaad") /\ validator5 (str "baaad") = Normal false.
Proof.
  assert (H : has_dot_triple (str "baaad")).
  { exists (str "b"), (cu "a"), (str "d"). split; reflexivity. }
  split; [exact H|].
  exact (proj1 (validator5_runs (str "baaad")) H).
Defined.

(** * Rule 7 *)

(** C7. Rule 7 is true exactly when the input holds, with no word
    character right before it or right after it, four digits that
    denote a year from 1900 to 2029: 1900 to 1999 and 2000 to 2029 are
    accepted, and no other four-digit token is. *)
Theorem validator7_years :
  (forall value, validator7 value = Normal true <-> contains_year value)
  /\ (forall value, validator7 value = Normal false <-> ~ contains_year value)
  /\ validator7 (str "1900") = Normal true
  /\ validator7 (str "in 1999.") = Normal true
  /\ validator7 (str "2000") = Normal true
  /\ validator7 (str "2029") = Normal true
  /\ validator7 (str "2030") = Normal false
  /\ validator7 (str "1899") = Normal false
  /\ validator7 (str "x1999") = Normal false
  /\ validator7 (str "19990") = Normal false.
Proof.
  assert (Htest : forall value, test re_year value = true <-> contains_year value).
  { intros value. rewrite test_true. split.
    - intros (pre & post & -> & Hm). apply matchAt_year in Hm.
      destruct Hm as (Hpre & y & post' & -> & Hy & Hpost).
      now exists pre, y, post'.
    - intros (pre & y & post & -> & Hy & Hpre & Hpost).
      exists pre, (y ++ post). split; [reflexivity|].
      apply matchAt_year. split; [assumption|]. now exists y, post. }
  split; [|split].
  - intros value. unfold validator7. rewrite <- Htest.
    split; [congruence | now intros ->].
  - intros value. unfold validator7. rewrite <- Htest.
    destruct (test re_year value); split; congruence.
  - repeat split; vm_compute; reflexivity.
Qed.

(** * Rule 6 *)

(** C6. Rule 6 is true exactly when some white-space-delimited word of
    the input, lowercased and with everything but the letters a-z
    removed, has at least three letters and equals its own reverse.  An
    input with the word "level" standing on its own satisfies it; the
    input "levels" does not. *)
Theorem validator6_palindrome_word :
  (forall value,
     validator6 value = Normal true <->
     exists w, is_word value w
               /\ 3 <= length (letters w) /\ palindrome (letters w))
  /\ (forall value,
        validator6 value = Normal false <->
        ~ exists w, is_word value w
                    /\ 3 <= length (letters w) /\ palindrome (letters w))
  /\ (forall pre post,
        head_in is_space (rev pre) -> head_in is_space post ->
        validator6 (pre ++ str "level" ++ post) = Normal true)
  /\ validator6 (str "levels") = Normal false.
Proof.
  split; [exact validator6_words|]. split; [|split].
  - intros value. rewrite <- validator6_words. unfold validator6.
    destruct (some _ _); split; congruence.
  - intros pre post Hpre Hpost. apply validator6_words.
    exists (str "level"). split; [|split; [vm_compute; lia | reflexivity]].
    exists pre, post. now repeat split.
  - vm_compute. reflexivity.
Qed.

Lemma validator6_palindrome_word_witness :
  validator6 (str "a level b") = Normal true.
Proof.
  destruct validator6_palindrome_word as (_ & _ & H & _).
  apply (H (str "a ") (str " b")); reflexivity.
Defined.

(** * Examples *)

(** The walk of the specification: one more rule is shown each time the
    last one shown is satisfied, and clearing the input starts over. *)
Example reveal_walk :
  updateVisibleRules rules (str "a") [] = Normal [1]
  /\ updateVisibleRules rules (str "a") [1] = Normal [1]
  /\ updateVisibleRules rules (str "abcde") [1] = Normal [1; 2]
  /\ updateVisibleRules rules (str "abcde1") [1; 2] = Normal [1; 2; 3]
  /\ updateVisibleRules rules (str "Abcde1") [1; 2; 3] = Normal [1; 2; 3; 4]
  /\ updateVisibleRules rules [] [1; 2; 3; 4] = Normal [].
Proof. repeat split. Qed.

(** [full_password] satisfies the ten rules; from [1..9] the last rule
    is then shown, and at [1..10] nothing is left to show. *)
Example full_password_passes :
  Forall (fun r => validator r full_password = Normal true) rules
  /\ updateVisibleRules rules full_password (seq 1 9) = Normal (seq 1 10)
  /\ updateVisibleRules rules full_password (seq 1 10) = Normal (seq 1 10).
Proof.
  split; [|split; vm_compute; reflexivity].
  repeat (constructor; [vm_compute; reflexivity|]). constructor.
Qed.

Example partition_example :
  exists r1 r2 r3,
    rules = r1 :: r2 :: r3 :: skipn 3 rules
    /\ fulfilledRules rules [1; 2; 3] (str "abcde1") = Normal [r1; r2]
    /\ unfulfilledRules rules [1; 2; 3] (str "abcde1") = Normal [r3].
Proof. do 3 eexists. repeat split. Qed.

Example validator9_examples :
  validator9 (str "12 * 3 = 36") = Normal true
  /\ validator9 (str "6/2=3") = Normal true
  /\ validator9 (str "7/2=3") = Normal false
  /\ validator9 (str "0/0=0") = Normal false
  /\ validator9 (str "3-5=2") = Normal false
  /\ validator9 (str "2+2=45") = Normal false
  /\ validator9 (str "no equation") = Normal false.
Proof. repeat split; vm_compute; reflexivity. Qed.

Example validator5_examples :
  validator5 (str "aab") = Normal true
  /\ validator5 (str "aaab") = Normal false
  /\ validator5 (str "aAa") = Normal true
  /\ validator5 [10; 10; 10]%N = Normal true.
Proof. repeat split. Qed.

Example validator8_10_examples :
  validator8 (str "Love is all above") = Normal true
  /\ validator8 (str "lovely above") = Normal false
  /\ validator8 (str "above love") = Normal false
  /\ validator10 (str "Marie  Curie found RADIOACTIVITY") = Normal true
  /\ validator10 (str "relativity by Einstein") = Normal false.
Proof. repeat split; vm_compute; reflexivity. Qed.

(** * More on the reveal engine *)

Lemma find_rule_dense (rs : list Rule) (start k : nat) :
  map id rs = seq start (length rs) ->
  find (fun rule => id rule =? start + k) rs = nth_error rs k.
Proof.
  revert start k. induction rs as [|r rs IH]; intros start k H.
  - now destruct k.
  - simpl in H. injection H as Hr H. simpl. rewrite Hr.
    destruct k as [|k].
    + rewrite Nat.add_0_r, Nat.eqb_refl. reflexivity.
    + replace (start =? start + S k) with false
        by (symmetry; apply Nat.eqb_neq; lia).
      replace (start + S k) with (S start + k) by lia.
      now apply IH.
Qed.

Lemma evaluate_dense (rs : list Rule) (k : nat) (password : jsstring) :
  map id rs = seq 1 (length rs) ->
  evaluate rs (S k) password
  = match nth_error rs k with
    | Some r => validator r password
    | None => Normal false
    end.
Proof.
  intros H. unfold evaluate, find_rule.
  change (S k) with (1 + k). now rewrite (@find_rule_dense rs 1 k H).
Qed.

Lemma leading_le (rs : list Rule) (password : jsstring) :
  leading rs password <= length rs.
Proof.
  induction rs as [|r rs IH]; [reflexivity|]. simpl.
  destruct (validator r password) as [[|]|]; lia.
Qed.

Lemma leading_passes (rs : list Rule) (password : jsstring) (k : nat) :
  k < leading rs password ->
  exists r, nth_error rs k = Some r /\ validator r password = Normal true.
Proof.
  revert k. induction rs as [|r rs IH]; intros k H; [simpl in H; lia|].
  simpl in H. destruct (validator r password) as [[|]|] eqn:E; try lia.
  destruct k as [|k]; [now exists r|]. apply IH. lia.
Qed.

Lemma leading_fails (rs : list Rule) (password : jsstring) :
  leading rs password < length rs ->
  exists r, nth_error rs (leading rs password) = Some r
            /\ validator r password <> Normal true.
Proof.
  induction rs as [|r rs IH]; intros H; [simpl in H; lia|].
  simpl in *. destruct (validator r password) as [[|]|] eqn:E.
  - apply IH. lia.
  - exists r. split; [reflexivity | congruence].
  - exists r. split; [reflexivity | congruence].
Qed.

Lemma rules_dense : map id rules = seq 1 (length rules).
Proof. reflexivity. Qed.

Lemma rules_numbered : numbered rules.
Proof.
  split; [discriminate|]. split; [reflexivity|].
  intros r value H. now apply rules_return.
Qed.

Lemma rules3_numbered : numbered rules3.
Proof.
  split; [discriminate|]. split; [reflexivity|].
  intros r value H. apply rules_return. simpl in H |- *. tauto.
Qed.

Section NumberedRules.

Variable rs : list Rule.

(** From the state [1..k], with a non-empty password: one more rule when
    rule [k] passes and is not the last one, the same state otherwise. *)
Lemma updateVisibleRules_prefix (password : jsstring) (k : nat) :
  password <> [] -> 1 <= k ->
  updateVisibleRules rs password (seq 1 k)
  = (valid <- evaluate rs k password ;;
     Normal (if valid && (k + 1 <=? length rs) then seq 1 (k + 1) else seq 1 k)).
Proof.
  intros Hp Hk. destruct k as [|j]; [lia|].
  rewrite updateVisibleRules_next
    by (assumption || (rewrite seq_S; apply not_eq_sym, app_cons_not_nil)).
  rewrite last_seq. change (1 + j) with (S j).
  destruct (evaluate rs (S j) password) as [valid|e]; [|reflexivity].
  cbn [bind]. f_equal.
  replace (includes (seq 1 (S j)) (S j + 1)) with false.
  - rewrite andb_true_r. destruct (valid && _); [|reflexivity].
    replace (S j + 1) with (S (S j)) by lia. rewrite (seq_S (S j)).
    reflexivity.
  - symmetry. apply not_true_is_false. intros H. apply includes_In in H.
    apply in_seq in H. lia.
Qed.

Hypothesis Hrs : numbered rs.

Lemma numbered_evaluate_returns (i : nat) (password : jsstring) :
  exists valid, evaluate rs i password = Normal valid.
Proof.
  unfold evaluate. destruct (find_rule rs i) as [r|] eqn:E.
  - apply Hrs. unfold find_rule in E. now apply find_some in E.
  - now exists false.
Qed.

Lemma evaluate_leading (password : jsstring) (k : nat) :
  1 <= k <= leading rs password -> evaluate rs k password = Normal true.
Proof.
  intros Hk. destruct k as [|j]; [lia|].
  rewrite evaluate_dense by apply Hrs.
  destruct (@leading_passes rs password j ltac:(lia)) as (r & -> & Hr).
  exact Hr.
Qed.

Lemma evaluate_after_leading (password : jsstring) :
  leading rs password < length rs ->
  evaluate rs (S (leading rs password)) password = Normal false.
Proof.
  intros H. rewrite evaluate_dense by apply Hrs.
  destruct (leading_fails rs password H) as (r & E & Hr). rewrite E.
  assert (Hin : In r rs) by (now apply nth_error_In in E).
  destruct Hrs as (_ & _ & Hret).
  destruct (Hret r password Hin) as [[|] Hv]; congruence.
Qed.

Lemma numbered_length : 1 <= length rs.
Proof. destruct Hrs as (Hne & _). destruct rs; [contradiction | simpl; lia]. Qed.

Lemma updateVisibleRules_toward (password : jsstring) (k : nat) :
  password <> [] ->
  1 <= k <= Nat.min (length rs) (S (leading rs password)) ->
  updateVisibleRules rs password (seq 1 k)
  = Normal (seq 1 (Nat.min (k + 1)
                     (Nat.min (length rs) (S (leading rs password))))).
Proof.
  intros Hp Hk. rewrite updateVisibleRules_prefix by (assumption || lia).
  pose proof (leading_le rs password) as HL.
  destruct (Nat.eq_dec k (Nat.min (length rs) (S (leading rs password))))
    as [E | E].
  - destruct (Nat.eq_dec k (length rs)) as [EN | EN].
    + destruct (numbered_evaluate_returns k password) as [valid ->]. cbn [bind].
      replace (k + 1 <=? length rs) with false
        by (symmetry; apply Nat.leb_gt; lia).
      rewrite andb_false_r. do 2 f_equal. lia.
    + assert (k = S (leading rs password)) as Hk' by lia.
      rewrite Hk' at 1. rewrite evaluate_after_leading by lia.
      cbn [bind andb]. do 2 f_equal. lia.
  - rewrite evaluate_leading by lia. cbn [bind andb].
    replace (k + 1 <=? length rs) with true
      by (symmetry; apply Nat.leb_le; lia).
    do 2 f_equal. lia.
Qed.

Lemma updateTimes_from_prefix (password : jsstring) (n k : nat) :
  password <> [] ->
  1 <= k <= Nat.min (length rs) (S (leading rs password)) ->
  updateTimes rs n password (seq 1 k)
  = Normal (seq 1 (Nat.min (k + n)
                     (Nat.min (length rs) (S (leading rs password))))).
Proof.
  intros Hp. revert k. induction n as [|n IH]; intros k Hk.
  - cbn [updateTimes]. do 2 f_equal. lia.
  - cbn [updateTimes]. rewrite updateVisibleRules_toward by assumption.
    cbn [bind]. rewrite IH by lia. do 2 f_equal. lia.
Qed.

Lemma updateTimes_from_empty (password : jsstring) (n : nat) :
  password <> [] ->
  updateTimes rs n password []
  = Normal (seq 1 (Nat.min n
                     (Nat.min (length rs) (S (leading rs password))))).
Proof.
  intros Hp. destruct n as [|n]; [reflexivity|].
  cbn [updateTimes]. rewrite updateVisibleRules_first by assumption.
  cbn [bind]. change [1] with (seq 1 1). pose proof numbered_length.
  rewrite updateTimes_from_prefix; [do 2 f_equal; lia | assumption | lia].
Qed.

End NumberedRules.

(** X1. With a non-empty password, the state [1..k] stays as it is under
    [updateVisibleRules] exactly when rule [k] is the last rule or does
    not pass: in a settled state the last rule shown is unmet, unless
    all the rules are shown. *)
Theorem updateVisibleRules_settled (password : jsstring) (k : nat) :
  password <> [] -> 1 <= k <= length rules ->
  (updateVisibleRules rules password (seq 1 k) = Normal (seq 1 k)
   <-> k = length rules \/ evaluate rules k password = Normal false).
Proof.
  intros Hp Hk. rewrite updateVisibleRules_prefix by (assumption || lia).
  destruct (evaluate_returns k password) as [valid ->]. cbn [bind].
  destruct (k + 1 <=? length rules) eqn:Hle.
  - apply Nat.leb_le in Hle. destruct valid; cbn [andb]; split.
    + intros H. apply Normal_inj in H. apply (f_equal (@length nat)) in H.
      rewrite !length_seq in H. lia.
    + intros [H | H]; [lia | discriminate].
    + intros _. now right.
    + reflexivity.
  - apply Nat.leb_gt in Hle. rewrite andb_false_r. split.
    + intros _. left. lia.
    + reflexivity.
Qed.

Lemma updateVisibleRules_settled_witness :
  updateVisibleRules rules (str "abcde") (seq 1 2) = Normal (seq 1 2).
Proof.
  apply (updateVisibleRules_settled (password := str "abcde") (k := 2));
    [discriminate | vm_compute; lia | right; reflexivity].
Defined.

(** X2. For a rule set numbered 1, 2, ... whose validators return (the
    ten rules, the three rules of the first page): with the password
    unchanged and not empty, [n] runs of [updateVisibleRules] from the
    empty state show the rules 1 to [min n K], where [K] is the first
    rule that does not pass, or the last rule when all pass.  The runs
    stop at the first unmet rule and never go past it. *)
Theorem updateTimes_reveals (rs : list Rule) (password : jsstring) (n : nat) :
  numbered rs -> password <> [] ->
  updateTimes rs n password []
  = Normal (seq 1 (Nat.min n
                     (Nat.min (length rs) (S (leading rs password))))).
Proof. intros Hrs Hp. now apply updateTimes_from_empty. Qed.

Lemma updateTimes_reveals_witness :
  updateTimes rules3 7 (str "Abcde") [] = Normal [1; 2].
Proof.
  rewrite (@updateTimes_reveals rules3 (str "Abcde") 7 rules3_numbered
             ltac:(discriminate)).
  reflexivity.
Defined.

(** X3. When the last visible id is not the id of a rule (0, or more
    than the number of rules), [updateVisibleRules] with a non-empty
    password returns the state unchanged. *)
Theorem updateVisibleRules_unknown_last (password : jsstring) (prev : list nat) :
  password <> [] -> prev <> [] ->
  last prev 0 = 0 \/ length rules < last prev 0 ->
  updateVisibleRules rules password prev = Normal prev.
Proof.
  intros Hp Hv Hlast. rewrite updateVisibleRules_next by assumption.
  assert (E : evaluate rules (last prev 0) password = Normal false).
  { destruct (last prev 0) as [|j]; [reflexivity|].
    rewrite evaluate_dense by exact rules_dense.
    destruct Hlast as [H | H]; [discriminate|].
    replace (nth_error rules j) with (@None Rule); [reflexivity|].
    symmetry. apply nth_error_None. lia. }
  now rewrite E.
Qed.

Lemma updateVisibleRules_unknown_last_witness :
  updateVisibleRules rules (str "Abcde1") [1; 2; 42] = Normal [1; 2; 42].
Proof.
  apply updateVisibleRules_unknown_last;
    [discriminate | discriminate | right; vm_compute; lia].
Defined.

(** X4. [updateVisibleRules] never makes an id appear twice: from a list
    without repetition it returns a list without repetition, for any
    rule set. *)
Theorem updateVisibleRules_NoDup (rs : list Rule) (password : jsstring)
    (prev new : list nat) :
  updateVisibleRules rs password prev = Normal new ->
  NoDup prev -> NoDup new.
Proof.
  intros Hu Hnd. destruct password as [|c s].
  - injection Hu as <-. constructor.
  - destruct prev as [|a prev].
    + injection Hu as <-. repeat constructor. intros [].
    + rewrite updateVisibleRules_next in Hu by discriminate.
      destruct (evaluate rs _ _) as [valid|e]; [|discriminate].
      cbn [bind] in Hu. apply Normal_inj in Hu. subst new.
      destruct (valid && _ && negb (includes (a :: prev) _)) eqn:Hc;
        [|assumption].
      apply andb_prop in Hc. destruct Hc as [_ Hc].
      apply negb_true_iff in Hc.
      apply NoDup_app; [assumption | repeat constructor; intros [] |].
      intros x Hx [<- | []]. apply includes_In in Hx. congruence.
Qed.

Lemma updateVisibleRules_NoDup_witness : NoDup [1; 2].
Proof.
  apply (@updateVisibleRules_NoDup rules (str "abcde") [1] [1; 2] eq_refl).
  repeat constructor. intros [].
Defined.

(** X5. Every id that [updateVisibleRules] adds is the id of a rule. *)
Theorem updateVisibleRules_adds_rule (password : jsstring) (prev new : list nat)
    (i : nat) :
  updateVisibleRules rules password prev = Normal new ->
  In i new -> In i prev \/ exists r, In r rules /\ id r = i.
Proof.
  intros Hu Hi.
  assert (Hid : forall j, 1 <= j <= length rules ->
                  exists r, In r rules /\ id r = j).
  { intros j Hj. destruct (nth_error rules (j - 1)) as [r|] eqn:E.
    - exists r. split; [now apply nth_error_In in E|].
      apply (map_nth_error id) in E. rewrite rules_dense in E.
      rewrite nth_error_seq in E.
      destruct (j - 1 <? length rules); [|discriminate].
      injection E as <-. lia.
    - apply nth_error_None in E. lia. }
  destruct password as [|c s].
  - injection Hu as <-. destruct Hi.
  - destruct prev as [|a prev].
    + injection Hu as <-. destruct Hi as [<- | []]. right.
      apply Hid. change (length rules) with 10. lia.
    + rewrite updateVisibleRules_next in Hu by discriminate.
      destruct (evaluate rules _ _) as [valid|e]; [|discriminate].
      cbn [bind] in Hu. apply Normal_inj in Hu. subst new.
      destruct (valid && (_ <=? _) && _) eqn:Hc; [|now left].
      apply in_app_or in Hi. destruct Hi as [Hi | [<- | []]]; [now left|].
      right. apply Hid.
      apply andb_prop in Hc. destruct Hc as [Hc _].
      apply andb_prop in Hc. destruct Hc as [_ Hc].
      apply Nat.leb_le in Hc. lia.
Qed.

Lemma updateVisibleRules_adds_rule_witness :
  In 2 [1] \/ exists r, In r rules /\ id r = 2.
Proof.
  apply (@updateVisibleRules_adds_rule (str "abcde") [1] [1; 2] 2 eq_refl).
  right. left. reflexivity.
Defined.


(** * The rule cards *)

Lemma mapM_map {A B} (f : A -> completion B) (g : A -> B) (a : list A) :
  (forall x, In x a -> f x = Normal (g x)) ->
  mapM f a = Normal (map g a).
Proof.
  induction a as [|x a IH]; intros H; [reflexivity|].
  cbn [mapM map]. rewrite (H x) by now left. cbn [bind].
  rewrite IH by (intros y Hy; apply H; now right). reflexivity.
Qed.

Lemma passes_validator (rs : list Rule) (r : Rule) (password : jsstring) :
  numbered rs -> In r rs -> validator r password = Normal (passes password r).
Proof.
  intros (_ & _ & Hret) Hin. unfold passes.
  destruct (Hret r password Hin) as [[|] ->]; reflexivity.
Qed.

(** The card of a rule, given its verdict. *)
Lemma renderRules_cards (rs : list Rule) (visibleRules : list nat)
    (password : jsstring) :
  numbered rs -> password <> [] ->
  renderRules rs visibleRules password
  = Normal (map (fun r =>
              if includes visibleRules (id r)
              then Some (mkCard (id r) (passes password r) (description r))
              else None) rs).
Proof.
  intros Hrs Hp. unfold renderRules. apply mapM_map. intros r Hr.
  destruct (includes visibleRules (id r)); [|reflexivity]. cbn [negb].
  destruct password as [|ch s]; [contradiction|].
  now rewrite (@passes_validator rs r (ch :: s) Hrs Hr).
Qed.

Lemma shown_cards {A} (inc : A -> bool) (card : A -> Card) (l : list A) :
  shown (map (fun r => if inc r then Some (card r) else None) l)
  = map card (filter inc l).
Proof.
  induction l as [|a l IH]; [reflexivity|]. cbn [map filter].
  destruct (inc a); cbn [shown map]; now rewrite IH.
Qed.

Lemma filter_map_comm {A B} (f : A -> B) (p : B -> bool) (l : list A) :
  filter p (map f l) = map f (filter (fun a => p (f a)) l).
Proof.
  induction l as [|a l IH]; [reflexivity|]. cbn [map filter].
  destruct (p (f a)); cbn [map]; now rewrite IH.
Qed.

Lemma filter_filter {A} (p q : A -> bool) (l : list A) :
  filter q (filter p l) = filter (fun a => p a && q a) l.
Proof.
  induction l as [|a l IH]; [reflexivity|]. cbn [filter].
  destruct (p a); cbn [filter andb]; [destruct (q a)|]; now rewrite IH.
Qed.

Lemma fulfilledRules_filter (rs : list Rule) (visibleRules : list nat)
    (password : jsstring) :
  numbered rs ->
  fulfilledRules rs visibleRules password
  = Normal (filter (fun r => includes visibleRules (id r) && passes password r) rs)
  /\ unfulfilledRules rs visibleRules password
     = Normal (filter (fun r => includes visibleRules (id r)
                                && negb (passes password r)) rs).
Proof.
  intros Hrs. split; apply filterM_filter; intros r Hr;
    rewrite (@passes_validator rs r password Hrs Hr);
    now destruct (includes visibleRules (id r)).
Qed.

(** X6. The two pages show the same cards.  With a non-empty password,
    the version that lists the failing rules first shows exactly the
    cards that [PasswordGamePage] shows, with the same verdicts: first
    the invalid ones, then the valid ones, each group in the order of the
    rules. *)
Theorem renderSorted_same_cards (rs : list Rule) (visibleRules : list nat)
    (password : jsstring) :
  numbered rs -> password <> [] ->
  exists children,
    renderRules rs visibleRules password = Normal children
    /\ renderSorted rs visibleRules password
       = Normal (filter (fun card => negb (isValid card)) (shown children)
                 ++ filter isValid (shown children)).
Proof.
  intros Hrs Hp. eexists. split; [now apply renderRules_cards|].
  unfold renderSorted.
  destruct (fulfilledRules_filter visibleRules password Hrs) as [-> ->].
  cbn [bind]. rewrite shown_cards, !filter_map_comm, !filter_filter.
  cbn [isValid]. f_equal. f_equal; apply map_ext_in; intros r Hr;
    apply filter_In in Hr; destruct Hr as [_ Hr];
    apply andb_prop in Hr; destruct Hr as [_ Hr];
    [apply negb_true_iff in Hr|]; now rewrite Hr.
Qed.

Lemma renderSorted_same_cards_witness :
  exists children,
    renderRules rules [1; 2; 3] (str "abcde1") = Normal children
    /\ renderSorted rules [1; 2; 3] (str "abcde1")
       = Normal (filter (fun card => negb (isValid card)) (shown children)
                 ++ filter isValid (shown children)).
Proof.
  apply (@renderSorted_same_cards rules [1; 2; 3] (str "abcde1") rules_numbered).
  discriminate.
Defined.

Lemma numbered_id (rs : list Rule) (r : Rule) :
  numbered rs -> In r rs ->
  exists k, nth_error rs k = Some r /\ id r = S k /\ k < length rs.
Proof.
  intros (_ & Hd & _) Hin. apply In_nth_error in Hin. destruct Hin as [k E].
  exists k. split; [assumption|].
  assert (Hk : k < length rs) by (apply nth_error_Some; congruence).
  split; [|assumption].
  apply (map_nth_error id) in E. rewrite Hd, nth_error_seq in E.
  destruct (Nat.ltb_spec k (length rs)); [|lia]. now injection E as <-.
Qed.

Lemma numbered_evaluate_rule (rs : list Rule) (r : Rule) (password : jsstring) :
  numbered rs -> In r rs -> evaluate rs (id r) password = validator r password.
Proof.
  intros Hrs Hin. destruct (@numbered_id rs r Hrs Hin) as (k & E & -> & _).
  rewrite evaluate_dense by apply Hrs. now rewrite E.
Qed.

Lemma includes_seq (k i : nat) : 1 <= i -> includes (seq 1 k) i = (i <=? k).
Proof.
  intros Hi. destruct (Nat.leb_spec i k) as [H | H].
  - apply includes_In, in_seq. lia.
  - apply not_true_is_false. intros Hin. apply includes_In, in_seq in Hin. lia.
Qed.

(** X7. After [n] runs of the effect on a password typed at once into
    the empty form, the page shows the cards of the rules 1 to
    [min n K], [K] the first rule that does not pass (or the last rule):
    every card is valid up to the last one, which is invalid when it is
    rule [K] and rule [K] does not pass. *)
Theorem renderRules_after_runs (rs : list Rule) (password : jsstring) (n : nat) :
  numbered rs -> password <> [] ->
  (visibleRules <- updateTimes rs n password [] ;;
   renderRules rs visibleRules password)
  = Normal (map (fun r =>
              if id r <=? Nat.min n (Nat.min (length rs) (S (leading rs password)))
              then Some (mkCard (id r) (id r <=? leading rs password)
                           (description r))
              else None) rs).
Proof.
  intros Hrs Hp. rewrite updateTimes_from_empty by assumption. cbn [bind].
  rewrite renderRules_cards by assumption. f_equal.
  apply map_ext_in. intros r Hr.
  destruct (@numbered_id rs r Hrs Hr) as (k & E & Hid & Hk).
  rewrite includes_seq by lia.
  destruct (Nat.leb_spec (id r)
              (Nat.min n (Nat.min (length rs) (S (leading rs password)))))
    as [Hm | Hm]; [|reflexivity].
  do 2 f_equal. unfold passes.
  rewrite <- (@numbered_evaluate_rule rs r password Hrs Hr).
  destruct (Nat.leb_spec (id r) (leading rs password)) as [HL | HL].
  - now rewrite evaluate_leading by (assumption || lia).
  - assert (Hid' : id r = S (leading rs password)) by lia.
    rewrite Hid'. now rewrite evaluate_after_leading by (assumption || lia).
Qed.

Lemma renderRules_after_runs_witness :
  (visibleRules <- updateTimes rules 9 (str "Abcde1") [] ;;
   renderRules rules visibleRules (str "Abcde1"))
  = Normal (map (fun r =>
              if id r <=? 4
              then Some (mkCard (id r) (id r <=? 3) (description r))
              else None) rules).
Proof.
  apply (@renderRules_after_runs rules (str "Abcde1") 9 rules_numbered).
  discriminate.
Defined.

(** X8. With the empty password the page calls no validator and marks
    every card it shows as invalid, whatever the rule set; the version
    that lists the failing rules first does call the validators on the
    empty string, and lists rule 5, when it is visible, as fulfilled,
    and no other rule. *)
Theorem empty_password_cards (visibleRules : list nat) :
  (forall rs,
     renderRules rs visibleRules []
     = Normal (map (fun r =>
                 if includes visibleRules (id r)
                 then Some (mkCard (id r) false (description r))
                 else None) rs))
  /\ fulfilledRules rules visibleRules []
     = Normal (filter (fun r => includes visibleRules (id r) && (id r =? 5))
                 rules).
Proof.
  split.
  - intros rs. unfold renderRules. apply mapM_map. intros r _.
    now destruct (includes visibleRules (id r)).
  - apply filterM_filter. intros r Hr. simpl in Hr.
    repeat (destruct Hr as [<- | Hr];
            [cbn [id validator]; destruct (includes visibleRules _);
             reflexivity|]).
    contradiction.
Qed.

(** * Rules 1 to 5 *)

Lemma execFrom_class (p : N -> bool) (after before : list N) :
  execFrom (mkRegExp (Class false p) false) before after = None
  <-> existsb p after = false.
Proof.
  revert before. induction after as [|ch after IH]; intros before.
  - now split.
  - cbn [execFrom existsb]. unfold matchAt.
    cbn [compile source ignoreCase]. rewrite characterSetMatcher_plain.
    cbn [rest]. destruct (p ch); [now split|]. cbn [orb]. apply IH.
Qed.

Lemma test_class (p : N -> bool) (s : jsstring) :
  test (mkRegExp (Class false p) false) s = existsb p s.
Proof.
  unfold test. destruct (existsb p s) eqn:E.
  - destruct (execFrom _ [] s) eqn:Ex; [reflexivity|].
    apply execFrom_class in Ex. congruence.
  - now rewrite (proj2 (execFrom_class p s []) E).
Qed.

(** X9. What the patterns of rules 2, 3 and 4 test: rule 2 passes
    exactly when some code unit of the password is a digit 0-9, rule 3
    when some code unit is a letter A-Z, rule 4 when some code unit is
    one of the ten signs of its class. *)
Theorem validator2_3_4_some_code_unit (value : jsstring) :
  validator2 value = Normal (existsb is_digit value)
  /\ validator3 value = Normal (existsb is_upper value)
  /\ validator4 value = Normal (existsb is_special value).
Proof.
  unfold validator2, validator3, validator4, re_number, re_uppercase, re_special.
  now rewrite !test_class.
Qed.

Lemma existsb_insert (p : N -> bool) (s1 u s2 : jsstring) :
  existsb p (s1 ++ s2) = true -> existsb p (s1 ++ u ++ s2) = true.
Proof.
  rewrite !existsb_app. intros H. apply orb_prop in H.
  destruct H as [-> | ->]; [reflexivity | now rewrite !orb_true_r].
Qed.

(** X10. Rules 1 to 4 stay satisfied when text is inserted anywhere in
    the password: typing more never takes back one of the first four
    rules. *)
Theorem validator1_4_insert (r : Rule) (s1 u s2 : jsstring) :
  In r (firstn 4 rules) ->
  validator r (s1 ++ s2) = Normal true ->
  validator r (s1 ++ u ++ s2) = Normal true.
Proof.
  intros Hr. simpl in Hr.
  destruct Hr as [<- | [<- | [<- | [<- | []]]]]; cbn [validator].
  - unfold validator1. intros H. apply Normal_inj in H. f_equal.
    apply Nat.leb_le in H. apply Nat.leb_le.
    rewrite !length_app in *. lia.
  - unfold validator2, re_number. rewrite !test_class. intros H.
    apply Normal_inj in H. f_equal. now apply existsb_insert.
  - unfold validator3, re_uppercase. rewrite !test_class. intros H.
    apply Normal_inj in H. f_equal. now apply existsb_insert.
  - unfold validator4, re_special. rewrite !test_class. intros H.
    apply Normal_inj in H. f_equal. now apply existsb_insert.
Qed.

Lemma validator1_4_insert_witness :
  validator2 (str "a1" ++ str "xyz" ++ str "b") = Normal true.
Proof.
  apply (@validator1_4_insert
           (mkRule 2 "Your password must include a number." validator2)
           (str "a1") (str "xyz") (str "b"));
    [right; left; reflexivity | reflexivity].
Defined.

(** X11. Rule 5 is never repaired by typing around the password: when it
    fails on a string, it fails on every string that contains it. *)
Theorem validator5_superstring (s u v : jsstring) :
  validator5 s = Normal false -> validator5 (u ++ s ++ v) = Normal false.
Proof.
  unfold validator5. intros H. apply Normal_inj in H. f_equal.
  apply negb_false_iff in H. apply negb_false_iff.
  apply test_repeated in H. apply test_repeated.
  destruct H as (pre & c & post & -> & Hc).
  exists (u ++ pre), c, (post ++ v). split; [|assumption].
  now rewrite <- !app_assoc.
Qed.

Lemma validator5_superstring_witness :
  validator5 (str "x" ++ str "baaab" ++ str "yz") = Normal false.
Proof.
  apply (@validator5_superstring (str "baaab") (str "x") (str "yz")).
  reflexivity.
Defined.

(** * Rule 6 on two texts joined by white space *)

Lemma head_in_app (p : N -> bool) (l : jsstring) (c : N) (l' : jsstring) :
  p c = true -> head_in p l -> head_in p (l ++ c :: l').
Proof. intros Hc H. now destruct l. Qed.

Lemma all_in_not_space_head (ch : N) (l : jsstring) :
  all_in not_space (ch :: l) -> is_space ch = true -> False.
Proof.
  unfold all_in, not_space. cbn [forallb]. intros H Hc. rewrite Hc in H.
  discriminate.
Qed.

Lemma is_word_space_joined (u : jsstring) (ch : N) (v w : jsstring) :
  is_space ch = true ->
  (is_word (u ++ ch :: v) w <-> is_word u w \/ is_word v w).
Proof.
  intros Hc. split.
  - intros (pre & post & E & Hne & Hw & Hpre & Hpost).
    apply app_eq_app in E.
    destruct E as [l [[Eu El] | [Epre El]]].
    + (* the word starts in [u] *)
      apply app_eq_app in El.
      destruct El as [l2 [[Ew Ep] | [El Ep]]].
      * destruct l2 as [|b l2].
        -- rewrite app_nil_r in Ew. subst l. left.
           exists pre, []. split; [now rewrite app_nil_r|].
           repeat split; assumption || exact I.
        -- cbn in Ep. injection Ep as <- _. exfalso. subst w.
           apply all_in_app in Hw. destruct Hw as [_ Hw].
           now apply (all_in_not_space_head Hw).
      * left. exists pre, l2. subst l. split; [assumption|].
        repeat split; try assumption.
        subst post. now destruct l2.
    + (* the word starts after [u] *)
      destruct l as [|a l].
      * destruct w as [|b w]; [contradiction|].
        cbn in El. injection El as <- _. exfalso.
        now apply (all_in_not_space_head Hw).
      * cbn in El. injection El as <- Ev. right.
        exists l, post. split; [assumption|].
        repeat split; try assumption.
        subst pre. now apply head_in_rev_app_inv in Hpre.
  - intros [(pre & post & -> & Hne & Hw & Hpre & Hpost)
           | (pre & post & -> & Hne & Hw & Hpre & Hpost)].
    + exists pre, (post ++ ch :: v). split; [now rewrite <- !app_assoc|].
      repeat split; try assumption. now apply head_in_app.
    + exists (u ++ ch :: pre), post.
      split; [now rewrite <- app_assoc|].
      repeat split; try assumption. now apply head_in_rev_app.
Qed.

(** X12. Rule 6 on two texts joined by a white-space code unit: it
    passes exactly when it passes on one of the two texts.  A palindrome
    word is never made, and never lost, by joining with white space. *)
Theorem validator6_space_joined (u : jsstring) (ch : N) (v : jsstring) :
  is_space ch = true ->
  (validator6 (u ++ ch :: v) = Normal true
   <-> validator6 u = Normal true \/ validator6 v = Normal true).
Proof.
  intros Hc. rewrite !validator6_words. split.
  - intros (w & Hw & H). apply (@is_word_space_joined u ch v w Hc) in Hw.
    destruct Hw as [Hw | Hw]; [left | right]; now exists w.
  - intros [(w & Hw & H) | (w & Hw & H)]; exists w; (split; [|exact H]);
      apply (@is_word_space_joined u ch v w Hc); [now left | now right].
Qed.

Lemma validator6_space_joined_witness :
  validator6 (str "abc" ++ 32%N :: str "Level!") = Normal true.
Proof.
  apply (@validator6_space_joined (str "abc") 32%N (str "Level!") eq_refl).
  right. reflexivity.
Defined.

(** * Plain patterns: the matcher finds what the pattern denotes *)

Lemma characterSetMatcher_matches (ic invert : bool) (p : N -> bool)
    (x : MatchState) (c : Continuation) :
  characterSetMatcher ic invert p x c <> None <->
  exists ch tail,
    rest x = ch :: tail /\ xorb invert (class_mem ic p ch) = true
    /\ c (mkState (ch :: consumed x) tail (captures x)) <> None.
Proof.
  unfold characterSetMatcher. destruct (rest x) as [|ch tail].
  - split; [congruence | intros (ch & tail & E & _); discriminate].
  - destruct (xorb invert (class_mem ic p ch)) eqn:Eq.
    + split.
      * intros H. now exists ch, tail.
      * intros (ch' & tail' & E & _ & H). now injection E as <- <-.
    + split; [congruence|].
      intros (ch' & tail' & E & Hq & _). injection E as <- <-. congruence.
Qed.

Lemma single_compile (ic : bool) (r : regex) (q : N -> bool) :
  single ic r = Some q ->
  parens r = []
  /\ forall x c,
       compile ic r x c <> None <->
       exists ch tail,
         rest x = ch :: tail /\ q ch = true
         /\ c (mkState (ch :: consumed x) tail (captures x)) <> None.
Proof.
  destruct r; try discriminate; cbn [single]; intros H; injection H as <-;
    (split; [reflexivity|]); intros x k; cbn [compile];
    rewrite characterSetMatcher_matches; reflexivity.
Qed.

Lemma option_or_not_None {A} (v w : option A) :
  match v with Some z => Some z | None => w end <> None
  <-> v <> None \/ w <> None.
Proof.
  destruct v; split; try tauto; try congruence.
Qed.

Lemma all_in_cons (q : N -> bool) (ch : N) (w : jsstring) :
  all_in q (ch :: w) <-> q ch = true /\ all_in q w.
Proof. unfold all_in. cbn [forallb]. apply andb_true_iff. Qed.

Ltac bounds := cbn [within length rest app] in *; first [exact I | lia].

(* One more code unit in front of what the remaining iterations take. *)
Ltac one_more IH :=
  let ch := fresh "ch" in
  let tail := fresh "tail" in
  let Hq := fresh "Hq" in
  let Hr := fresh "Hr" in
  intros (ch & tail & -> & Hq & Hr);
  apply IH in Hr; [| bounds | bounds];
  let w := fresh "w" in
  let tail' := fresh "tail" in
  let Hall := fresh "Hall" in
  let Hmin := fresh "Hmin" in
  let Hwi := fresh "Hwi" in
  let Hc := fresh "Hc" in
  let E := fresh "E" in
  destruct Hr as (w & tail' & E & Hall & Hmin & Hwi & Hc);
  cbn [rest consumed captures] in *; subst tail;
  exists (ch :: w), tail';
  split; [reflexivity|];
  split; [apply all_in_cons; now split|];
  split; [bounds|];
  split; [bounds|];
  cbn [rev]; rewrite <- app_assoc; exact Hc.

(* The first code unit of what was taken, and the rest of it. *)
Ltac one_less IH ch w tail Hall Hc :=
  let Hq := fresh "Hq" in
  apply all_in_cons in Hall; destruct Hall as [Hq Hall];
  exists ch, (w ++ tail);
  split; [reflexivity|];
  split; [exact Hq|];
  apply IH; [bounds | bounds |];
  exists w, tail;
  split; [reflexivity|];
  split; [exact Hall|];
  split; [bounds|];
  split; [bounds|];
  cbn [rev] in Hc; rewrite <- app_assoc in Hc; exact Hc.

(** A quantifier on one character or class takes [min] to [max] code
    units of the class, and the continuation decides. *)
Lemma repeatMatcher_single (m : Matcher) (q : N -> bool) :
  (forall x c,
     m x c <> None <->
     exists ch tail,
       rest x = ch :: tail /\ q ch = true
       /\ c (mkState (ch :: consumed x) tail (captures x)) <> None) ->
  forall fuel min max x c,
    min + length (rest x) <= fuel -> within max min ->
    (repeatMatcher m [] fuel min max x c <> None <->
     exists w tail,
       rest x = w ++ tail /\ all_in q w /\ min <= length w
       /\ within max (length w)
       /\ c (mkState (rev w ++ consumed x) tail (captures x)) <> None).
Proof.
  intros Hm. induction fuel as [|fuel IH]; intros min max x c Hfuel Hmax;
    destruct x as [before after caps]; cbn [rest consumed captures] in *.
  - assert (min = 0) by lia. subst min.
    destruct after as [|a after]; [|simpl in Hfuel; lia].
    assert (E : repeatMatcher m [] 0 0 max (mkState before [] caps) c
                = c (mkState before [] caps)) by (now destruct max as [[|k]|]).
    rewrite E. split.
    + intros H. exists [], []. cbn [length app rev].
      repeat split; try assumption; try lia; try (now destruct max).
    + intros (w & tail & Ew & _ & _ & _ & H).
      symmetry in Ew. apply app_eq_nil in Ew. destruct Ew as [-> ->].
      exact H.
  - rewrite repeatMatcher_S. destruct max as [[|k]|].
    1: { (* at most 0 times *)
      cbn [within] in *. split.
      - intros H. exists [], after. repeat split; try assumption; simpl; lia.
      - intros (w & tail & -> & _ & _ & Hw & H).
        destruct w; [exact H | simpl in Hw; lia]. }
    all: cbv iota; cbn [resetCaptures fold_left option_map pred].
    all: destruct min as [|min']; cbn [Nat.eqb negb andb Nat.sub].
    all: try (etransitivity; [apply option_or_not_None|]).
    all: rewrite Hm; cbn [rest consumed captures]; cbv beta.
    all: unfold endIndex; cbn [consumed length].
    all: rewrite ?(proj2 (Nat.eqb_neq (S (length before)) (length before)))
           by lia.
    all: rewrite ?Nat.sub_0_r.
    all: split.
    + intros [H | Hc]; [revert H; one_more IH|].
      exists [], after. repeat split; try assumption; bounds.
    + intros (w & tail & -> & Hall & Hmin & Hwi & Hc).
      destruct w as [|ch w]; [now right | left; one_less IH ch w tail Hall Hc].
    + one_more IH.
    + intros (w & tail & -> & Hall & Hmin & Hwi & Hc).
      destruct w as [|ch w]; [bounds | one_less IH ch w tail Hall Hc].
    + intros [H | Hc]; [revert H; one_more IH|].
      exists [], after. repeat split; try assumption; bounds.
    + intros (w & tail & -> & Hall & Hmin & Hwi & Hc).
      destruct w as [|ch w]; [now right | left; one_less IH ch w tail Hall Hc].
    + one_more IH.
    + intros (w & tail & -> & Hall & Hmin & Hwi & Hc).
      destruct w as [|ch w]; [bounds | one_less IH ch w tail Hall Hc].
Qed.

Lemma blind_Some : blind Some.
Proof. intros b a caps caps'. split; discriminate. Qed.

Lemma blind_neq (c : Continuation) (b a : list N)
    (caps caps' : list (option jsstring)) :
  blind c -> c (mkState b a caps) <> None -> c (mkState b a caps') <> None.
Proof. intros Hc H E. apply H. now apply (Hc b a caps caps'). Qed.

Lemma blind_intro (k : Continuation) :
  (forall b a caps caps',
     k (mkState b a caps) <> None -> k (mkState b a caps') <> None) ->
  blind k.
Proof.
  intros H b a caps caps'. split; intros E.
  - destruct (k (mkState b a caps')) eqn:E'; [|reflexivity].
    exfalso. apply (H b a caps' caps); congruence.
  - destruct (k (mkState b a caps)) eqn:E'; [|reflexivity].
    exfalso. apply (H b a caps caps'); congruence.
Qed.

(** The matcher of a plain pattern succeeds exactly when the input goes
    on with a text that the pattern denotes and the continuation accepts
    what follows. *)
Lemma compile_plain (ic : bool) (r : regex) :
  plain r = true ->
  forall x c, blind c ->
    (compile ic r x c <> None <->
     exists w tail,
       rest x = w ++ tail /\ denotes ic r (consumed x) w tail
       /\ c (mkState (rev w ++ consumed x) tail (captures x)) <> None).
Proof.
  induction r as [ | a | invert p | r1 IH1 r2 IH2 | r1 IH1 r2 IH2
                 | r1 IH1 min max | n r1 IH1 | n | ];
    intros Hr x c Hc.
  - (* Empty *)
    destruct x as [before after caps]. cbn [compile denotes rest consumed captures].
    split.
    + intros H. now exists [], after.
    + intros (w & tail & -> & -> & H). exact H.
  - (* Char *)
    destruct (@single_compile ic (Char a) _ eq_refl) as [_ Hm]. rewrite Hm.
    cbn [denotes single]. split.
    + intros (ch & tail & E & Hq & H). exists [ch], tail.
      split; [exact E|]. split; [now exists ch | exact H].
    + intros (w & tail & E & (ch & -> & Hq) & H). now exists ch, tail.
  - (* Class *)
    destruct (@single_compile ic (Class invert p) _ eq_refl) as [_ Hm].
    rewrite Hm. cbn [denotes single]. split.
    + intros (ch & tail & E & Hq & H). exists [ch], tail.
      split; [exact E|]. split; [now exists ch | exact H].
    + intros (w & tail & E & (ch & -> & Hq) & H). now exists ch, tail.
  - (* Seq *)
    cbn [plain] in Hr. apply andb_prop in Hr. destruct Hr as [Hr1 Hr2].
    assert (Hk : blind (fun y => compile ic r2 y c)).
    { apply blind_intro. intros b a caps caps' H.
      apply (IH2 Hr2 _ c Hc) in H. apply (IH2 Hr2 _ c Hc).
      destruct H as (w & tail & E & Hd & H). exists w, tail.
      split; [exact E|]. split; [exact Hd|].
      cbn [consumed captures] in *. now apply (@blind_neq c _ _ _ caps' Hc) in H. }
    cbn [compile denotes]. rewrite (IH1 Hr1 x _ Hk). split.
    + intros (w1 & tail1 & E1 & Hd1 & H).
      apply (IH2 Hr2 _ c Hc) in H. cbn [rest consumed captures] in H.
      destruct H as (w2 & tail & -> & Hd2 & H).
      exists (w1 ++ w2), tail. split; [now rewrite <- app_assoc|].
      split; [now exists w1, w2|]. now rewrite rev_app_distr, <- app_assoc.
    + intros (w & tail & E & (w1 & w2 & -> & Hd1 & Hd2) & H).
      exists w1, (w2 ++ tail). split; [now rewrite app_assoc|].
      split; [exact Hd1|]. apply (IH2 Hr2 _ c Hc).
      cbn [rest consumed captures]. exists w2, tail.
      split; [reflexivity|]. split; [exact Hd2|].
      now rewrite rev_app_distr, <- app_assoc in H.
  - (* Alt *)
    cbn [plain] in Hr. apply andb_prop in Hr. destruct Hr as [Hr1 Hr2].
    cbn [compile denotes]. etransitivity; [apply option_or_not_None|].
    rewrite (IH1 Hr1 x c Hc), (IH2 Hr2 x c Hc). split.
    + intros [(w & tail & E & Hd & H) | (w & tail & E & Hd & H)];
        exists w, tail; tauto.
    + intros (w & tail & E & [Hd | Hd] & H); [left | right];
        now exists w, tail.
  - (* Repeat *)
    cbn [plain] in Hr. apply andb_prop in Hr. destruct Hr as [Hs Hb].
    assert (Hq : exists q, single ic r1 = Some q)
      by (destruct r1; try discriminate; eexists; reflexivity).
    destruct Hq as [q Hq]. destruct (@single_compile ic r1 q Hq) as [Hps Hm].
    cbn [compile denotes]. rewrite Hq, Hps.
    assert (Hw : within max min)
      by (destruct max as [k|]; [now apply Nat.leb_le in Hb | exact I]).
    etransitivity;
      [apply (@repeatMatcher_single (compile ic r1) q Hm); [lia | exact Hw]|].
    split; intros (w & tail & E & H); exists w, tail; tauto.
  - (* Group *)
    cbn [plain] in Hr. cbn [compile denotes].
    rewrite (IH1 Hr x).
    + split; intros (w & tail & E & Hd & H); exists w, tail;
        (split; [exact E|]); (split; [exact Hd|]);
        unfold setCapture in *; cbn [consumed rest captures] in *;
        revert H; now apply blind_neq.
    + apply blind_intro. intros b a caps caps'.
      unfold setCapture. cbn [consumed rest captures]. now apply blind_neq.
  - discriminate.
  - (* WordBoundary *)
    destruct x as [before after caps].
    cbn [compile denotes rest consumed captures].
    unfold isWordCharBefore, isWordCharAt. cbn [rest consumed].
    destruct (xorb _ _) eqn:Ex; split.
    + intros H. exists [], after. now repeat split.
    + intros (w & tail & -> & (-> & _) & H). exact H.
    + congruence.
    + intros (w & tail & -> & (-> & Hx) & _). cbn [app] in Ex. congruence.
Qed.

Lemma test_plain (re : RegExp) (s : jsstring) :
  plain (source re) = true ->
  (test re s = true <->
   exists pre w post,
     s = pre ++ w ++ post
     /\ denotes (ignoreCase re) (source re) (rev pre) w post).
Proof.
  intros Hr. rewrite test_true. unfold matchAt. split.
  - intros (pre & post & -> & H).
    apply (@compile_plain (ignoreCase re) (source re) Hr _ Some blind_Some) in H.
    cbn [rest consumed] in H. destruct H as (w & tail & -> & Hd & _).
    now exists pre, w, tail.
  - intros (pre & w & post & -> & Hd). exists pre, (w ++ post).
    split; [reflexivity|].
    apply (@compile_plain (ignoreCase re) (source re) Hr _ Some blind_Some).
    cbn [rest consumed]. exists w, post. now repeat split.
Qed.

(** The patterns of the pages are plain, apart from rule 5's. *)
Lemma patterns_plain :
  forallb (fun re => plain (source re))
    ([re_number; re_uppercase; re_special; re_spaces; re_non_letter; re_year;
      re_equation] ++ couplets ++ historicalReferences) = true
  /\ plain (source re_repeated) = false.
Proof. split; reflexivity. Qed.

Lemma class_mem_char (ic : bool) (a ch : N) :
  class_mem ic (N.eqb a) ch
  = N.eqb (canonicalize ic a) (canonicalize ic ch).
Proof.
  unfold class_mem, canonicalize, lower_of. destruct ic; [|reflexivity].
  cbn [andb].
  destruct (is_lower a) eqn:Ha, (is_lower ch) eqn:Hl, (is_upper ch) eqn:Hu;
    unfold is_lower, is_upper, in_range in *; lia.
Qed.

Lemma class_mem_dot (ic : bool) (ch : N) : class_mem ic is_dot ch = is_dot ch.
Proof.
  unfold class_mem, canonicalize, lower_of. destruct ic; [|reflexivity].
  cbn [andb].
  destruct (is_lower ch) eqn:Hl, (is_upper ch) eqn:Hu;
    rewrite ?orb_diag; try reflexivity;
    destruct (is_dot ch) eqn:Hd; try reflexivity; cbn [orb];
    unfold is_dot in *; classes.
Qed.

Lemma class_mem_space (ic : bool) (ch : N) :
  class_mem ic is_space ch = is_space ch.
Proof.
  unfold class_mem, canonicalize, lower_of. destruct ic; [|reflexivity].
  cbn [andb].
  destruct (is_lower ch) eqn:Hl, (is_upper ch) eqn:Hu;
    rewrite ?orb_diag; try reflexivity;
    destruct (is_space ch) eqn:Hd; try reflexivity; cbn [orb]; classes.
Qed.

Lemma denotes_char (ic : bool) (a : N) (before : list N) (w after : jsstring) :
  denotes ic (Char a) before w after
  <-> exists ch, w = [ch] /\ canonicalize ic a = canonicalize ic ch.
Proof.
  cbn [denotes single]. split; intros (ch & -> & H); exists ch;
    (split; [reflexivity|]); rewrite class_mem_char in *; now apply N.eqb_eq.
Qed.

Lemma denotes_seq (ic : bool) (r1 r2 : regex) (before : list N)
    (w after : jsstring) :
  denotes ic (r1 ++ r2) before w after
  <-> exists w1 w2,
        w = w1 ++ w2
        /\ denotes ic r1 before w1 (w2 ++ after)
        /\ denotes ic r2 (rev w1 ++ before) w2 after.
Proof. reflexivity. Qed.

Lemma denotes_lit (ic : bool) (s : String.string) (before : list N)
    (w after : jsstring) :
  denotes ic (lit s) before w after
  <-> map (canonicalize ic) w = map (canonicalize ic) (str s).
Proof.
  revert before w. induction s as [|a s IH]; intros before w.
  - cbn [lit str map denotes]. split; [now intros -> |].
    intros H. now destruct w.
  - destruct s as [|b s'].
    + cbn [lit str map]. rewrite denotes_char. split.
      * intros (ch & -> & E). cbn [map]. now rewrite E.
      * intros H. destruct w as [|ch [|ch' w]]; try discriminate.
        injection H as H. now exists ch.
    + change (lit (String.String a (String.String b s')))
        with (Char (cu a) ++ lit (String.String b s'))%re.
      rewrite denotes_seq. change (str (String.String a (String.String b s')))
        with (cu a :: str (String.String b s')).
      cbn [map]. split.
      * intros (w1 & w2 & -> & H1 & H2). apply denotes_char in H1.
        destruct H1 as (ch & -> & E). apply IH in H2.
        cbn [app map]. now rewrite E, H2.
      * intros H. destruct w as [|ch w]; [discriminate|].
        cbn [map] in H. injection H as E H. exists [ch], w.
        split; [reflexivity|]. split.
        -- apply denotes_char. now exists ch.
        -- now apply IH.
Qed.

Lemma plain_lit (s : String.string) : plain (lit s) = true.
Proof.
  induction s as [|a s IH]; [reflexivity|].
  destruct s as [|b s']; [reflexivity|].
  change (lit (String.String a (String.String b s')))
    with (Char (cu a) ++ lit (String.String b s'))%re.
  cbn [plain]. now rewrite IH.
Qed.

Lemma all_in_ext (p q : N -> bool) (w : jsstring) :
  (forall ch, p ch = q ch) -> (all_in p w <-> all_in q w).
Proof.
  intros H. unfold all_in.
  induction w as [|ch w IH]; [reflexivity|].
  cbn [forallb]. rewrite H, !andb_true_iff, IH. reflexivity.
Qed.

Lemma denotes_star_class (ic : bool) (p : N -> bool) (before : list N)
    (w after : jsstring) :
  (forall ch, class_mem ic p ch = p ch) ->
  (denotes ic (Star (Class false p)) before w after <-> all_in p w).
Proof.
  intros H. unfold Star. cbn [denotes single within].
  rewrite (@all_in_ext _ p w) by (intros ch; now rewrite H).
  split; [tauto|]. intros Hw. repeat split; [assumption | lia].
Qed.

Lemma test_reference (name achievement : String.string) (value : jsstring) :
  test (mkRegExp (lit name ++ Star dot ++ lit achievement) true) value = true
  <-> mentions value name achievement.
Proof.
  rewrite test_plain
    by (cbn [source plain Star dot andb]; now rewrite !plain_lit).
  cbn [source ignoreCase]. unfold mentions, spells. split.
  - intros (pre & w & post & -> & Hd).
    apply denotes_seq in Hd. destruct Hd as (n & w2 & -> & Hn & Hd).
    apply denotes_seq in Hd. destruct Hd as (mid & a & -> & Hmid & Ha).
    apply denotes_lit in Hn, Ha.
    apply denotes_star_class in Hmid; [|apply class_mem_dot].
    exists pre, n, mid, a, post. rewrite <- !app_assoc. now repeat split.
  - intros (pre & n & mid & a & post & -> & Hn & Hmid & Ha).
    exists pre, (n ++ mid ++ a), post. rewrite <- !app_assoc.
    split; [reflexivity|].
    apply denotes_seq. exists n, (mid ++ a). split; [reflexivity|].
    split; [now apply denotes_lit|].
    apply denotes_seq. exists mid, a. split; [reflexivity|].
    split; [apply denotes_star_class; [apply class_mem_dot | assumption]|].
    now apply denotes_lit.
Qed.

(** X13. Rule 10 passes exactly when the password names Einstein and
    then relativity, or Newton and gravity, or Marie Curie (with any
    white space, or none, between the two names) and radioactivity, or
    Tesla and electricity: in any case of the letters, the achievement
    after the name and with no line terminator between the two. *)
Theorem validator10_mentions (value : jsstring) :
  validator10 value = Normal true <->
  mentions value "einstein" "relativity"
  \/ mentions value "newton" "gravity"
  \/ (exists pre m ws c mid a post,
        value = pre ++ m ++ ws ++ c ++ mid ++ a ++ post
        /\ spells m "marie" /\ all_in is_space ws /\ spells c "curie"
        /\ all_in is_dot mid /\ spells a "radioactivity")
  \/ mentions value "tesla" "electricity".
Proof.
  unfold validator10, some, historicalReferences. cbn [existsb].
  rewrite orb_false_r. rewrite <- !test_reference.
  set (marie := mkRegExp (lit "marie" ++ Star space ++ lit "curie" ++ Star dot
                          ++ lit "radioactivity") true).
  assert (Hm : test marie value = true <->
    exists pre m ws c mid a post,
      value = pre ++ m ++ ws ++ c ++ mid ++ a ++ post
      /\ spells m "marie" /\ all_in is_space ws /\ spells c "curie"
      /\ all_in is_dot mid /\ spells a "radioactivity").
  { rewrite test_plain by reflexivity. cbn [source ignoreCase marie].
    unfold spells. split.
    - intros (pre & w & post & -> & Hd).
      apply denotes_seq in Hd. destruct Hd as (m & w2 & -> & Hma & Hd).
      apply denotes_seq in Hd. destruct Hd as (ws & w3 & -> & Hws & Hd).
      apply denotes_seq in Hd. destruct Hd as (c & w4 & -> & Hcu & Hd).
      apply denotes_seq in Hd. destruct Hd as (mid & a & -> & Hmid & Ha).
      apply denotes_lit in Hma, Hcu, Ha.
      apply denotes_star_class in Hws; [|apply class_mem_space].
      apply denotes_star_class in Hmid; [|apply class_mem_dot].
      exists pre, m, ws, c, mid, a, post. rewrite <- !app_assoc.
      now repeat split.
    - intros (pre & m & ws & c & mid & a & post & -> & Hma & Hws & Hcu
              & Hmid & Ha).
      exists pre, (m ++ ws ++ c ++ mid ++ a), post. rewrite <- !app_assoc.
      split; [reflexivity|].
      apply denotes_seq. exists m, (ws ++ c ++ mid ++ a).
      split; [reflexivity|]. split; [now apply denotes_lit|].
      apply denotes_seq. exists ws, (c ++ mid ++ a).
      split; [reflexivity|].
      split; [apply denotes_star_class; [apply class_mem_space | assumption]|].
      apply denotes_seq. exists c, (mid ++ a).
      split; [reflexivity|]. split; [now apply denotes_lit|].
      apply denotes_seq. exists mid, a. split; [reflexivity|].
      split; [apply denotes_star_class; [apply class_mem_dot | assumption]|].
      now apply denotes_lit. }
  rewrite <- Hm. split.
  - intros H. apply Normal_inj in H.
    repeat (apply orb_prop in H; destruct H as [H | H]); tauto.
  - intros H. f_equal.
    destruct H as [H | [H | [H | H]]]; rewrite H;
      now rewrite ?orb_true_r.
Qed.

(** * Rule 8 *)

Lemma denotes_group_alt (ic : bool) (n : nat) (r1 r2 : regex) (before : list N)
    (w after : jsstring) :
  denotes ic (Group n (r1 || r2)) before w after
  <-> denotes ic r1 before w after \/ denotes ic r2 before w after.
Proof. reflexivity. Qed.

Lemma canonical_letter (a ch : N) :
  is_lower a = true -> canonicalize true ch = canonicalize true a ->
  is_word_char ch = true.
Proof.
  unfold canonicalize. cbn [andb]. intros Ha. rewrite Ha.
  destruct (is_lower ch) eqn:Hl; intros E; classes.
Qed.

Lemma spells_word_chars (w : jsstring) (s : String.string) :
  lower_word s = true -> spells w s -> all_in is_word_char w /\ w <> [].
Proof.
  unfold lower_word, spells. intros Hs. apply andb_prop in Hs.
  destruct Hs as [Hne Hlow]. intros E. split.
  - clear Hne. revert w E. induction (str s) as [|a l IH]; intros w E.
    + now destruct w.
    + destruct w as [|ch w]; [discriminate|]. cbn [map] in E.
      injection E as Ech E. cbn [forallb] in Hlow.
      apply andb_prop in Hlow. destruct Hlow as [Ha Hl].
      apply all_in_cons. split; [now apply (@canonical_letter a ch) | now apply IH].
  - intros ->. destruct (str s); [discriminate Hne | discriminate E].
Qed.

Lemma head_word_app (u l : jsstring) :
  all_in is_word_char u -> u <> [] ->
  match u ++ l with [] => false | ch :: _ => is_word_char ch end = true.
Proof.
  intros Hu Hne. destruct u as [|ch u]; [contradiction|].
  now apply all_in_cons in Hu.
Qed.

Lemma head_word_rev_app (u l : jsstring) :
  all_in is_word_char u -> u <> [] ->
  match rev u ++ l with [] => false | ch :: _ => is_word_char ch end = true.
Proof.
  intros Hu Hne. apply head_word_app.
  - apply all_in_In. intros c Hc. apply in_rev in Hc.
    now apply (proj1 (all_in_In _ _) Hu).
  - intros E. apply (f_equal (@rev N)) in E. rewrite rev_involutive in E.
    contradiction.
Qed.

Lemma head_word_false (l : jsstring) :
  match l with [] => false | ch :: _ => is_word_char ch end = false
  <-> no_head is_word_char l.
Proof. destruct l; [now split | reflexivity]. Qed.

Lemma test_couplet (a1 a2 b1 b2 : String.string) (value : jsstring) :
  lower_word a1 = true -> lower_word a2 = true ->
  lower_word b1 = true -> lower_word b2 = true ->
  (test (re_couplet a1 a2 b1 b2) value = true <-> rhymes value a1 a2 b1 b2).
Proof.
  intros Ha1 Ha2 Hb1 Hb2.
  rewrite test_plain
    by (cbn [re_couplet source plain Star dot andb]; now rewrite !plain_lit).
  cbn [re_couplet source ignoreCase]. unfold rhymes. split.
  - intros (pre & w & post & -> & Hd).
    apply denotes_seq in Hd. destruct Hd as (e1 & w1 & -> & Hwb1 & Hd).
    apply denotes_seq in Hd. destruct Hd as (a & w2 & -> & Ha & Hd).
    apply denotes_seq in Hd. destruct Hd as (e2 & w3 & -> & Hwb2 & Hd).
    apply denotes_seq in Hd. destruct Hd as (mid & w4 & -> & Hmid & Hd).
    apply denotes_seq in Hd. destruct Hd as (e3 & w5 & -> & Hwb3 & Hd).
    apply denotes_seq in Hd. destruct Hd as (b & e4 & -> & Hb & Hwb4).
    destruct Hwb1 as [-> Hwb1]. destruct Hwb2 as [-> Hwb2].
    destruct Hwb3 as [-> Hwb3]. destruct Hwb4 as [-> Hwb4].
    apply (proj1 (denotes_group_alt _ _ _ _ _ _ _)) in Ha, Hb.
    rewrite !denotes_lit in Ha, Hb.
    apply denotes_star_class in Hmid; [|apply class_mem_dot].
    cbn [app rev] in *. rewrite ?app_nil_r in *.
    assert (Haw : all_in is_word_char a /\ a <> [])
      by (destruct Ha as [Ha | Ha];
          [apply (@spells_word_chars a a1) | apply (@spells_word_chars a a2)];
          assumption).
    assert (Hbw : all_in is_word_char b /\ b <> [])
      by (destruct Hb as [Hb | Hb];
          [apply (@spells_word_chars b b1) | apply (@spells_word_chars b b2)];
          assumption).
    destruct Haw as [Haw Hane], Hbw as [Hbw Hbne].
    rewrite <- ?app_assoc in *.
    rewrite (head_word_app _ Haw Hane) in Hwb1.
    rewrite (head_word_rev_app _ Haw Hane) in Hwb2.
    rewrite (head_word_app _ Hbw Hbne) in Hwb3.
    rewrite (head_word_rev_app _ Hbw Hbne) in Hwb4.
    rewrite xorb_true_r in Hwb1, Hwb3. rewrite xorb_true_l in Hwb2, Hwb4.
    apply negb_true_iff, head_word_false in Hwb1, Hwb2, Hwb3, Hwb4.
    assert (Hmne : mid <> []).
    { intros ->. cbn [app] in Hwb2. destruct b as [|ch b]; [contradiction|].
      apply all_in_cons in Hbw. cbn [app no_head] in Hwb2.
      destruct Hbw as [Hbw _]. congruence. }
    exists pre, a, mid, b, post. repeat split; try assumption.
    + destruct mid; [contradiction | exact Hwb2].
    + destruct (rev mid) as [|ch l] eqn:E; [exact I | exact Hwb3].
  - intros (pre & a & mid & b & post & -> & Ha & Hb & Hmid & Hmne
            & Hpre & Hm1 & Hm2 & Hpost).
    assert (Haw : all_in is_word_char a /\ a <> [])
      by (destruct Ha as [Ha | Ha];
          [apply (@spells_word_chars a a1) | apply (@spells_word_chars a a2)];
          assumption).
    assert (Hbw : all_in is_word_char b /\ b <> [])
      by (destruct Hb as [Hb | Hb];
          [apply (@spells_word_chars b b1) | apply (@spells_word_chars b b2)];
          assumption).
    destruct Haw as [Haw Hane], Hbw as [Hbw Hbne].
    assert (Hm1' : forall l, no_head is_word_char (mid ++ l))
      by (intros l; destruct mid; [contradiction | exact Hm1]).
    assert (Hm2' : forall l, no_head is_word_char (rev mid ++ l)).
    { intros l. destruct (rev mid) as [|ch k] eqn:E; [|exact Hm2].
      apply (f_equal (@rev N)) in E. rewrite rev_involutive in E.
      contradiction. }
    exists pre, (a ++ mid ++ b), post. split; [now rewrite <- !app_assoc|].
    apply denotes_seq. exists [], (a ++ mid ++ b). split; [reflexivity|].
    split.
    { split; [reflexivity|]. rewrite <- !app_assoc.
      rewrite (head_word_app _ Haw Hane), xorb_true_r.
      now apply negb_true_iff, head_word_false. }
    apply denotes_seq. exists a, (mid ++ b). split; [reflexivity|].
    split; [apply denotes_group_alt; rewrite !denotes_lit; exact Ha|].
    apply denotes_seq. exists [], (mid ++ b). split; [reflexivity|].
    split.
    { split; [reflexivity|]. cbn [rev app]. rewrite <- !app_assoc.
      rewrite (head_word_rev_app _ Haw Hane), xorb_true_l.
      apply negb_true_iff, head_word_false, Hm1'. }
    apply denotes_seq. exists mid, b. split; [reflexivity|].
    split; [apply denotes_star_class; [apply class_mem_dot | assumption]|].
    apply denotes_seq. exists [], b. split; [reflexivity|].
    split.
    { split; [reflexivity|]. cbn [rev app].
      rewrite (head_word_app _ Hbw Hbne), xorb_true_r.
      apply negb_true_iff, head_word_false, Hm2'. }
    apply denotes_seq. exists b, []. split; [now rewrite app_nil_r|].
    split; [apply denotes_group_alt; rewrite !denotes_lit; exact Hb|].
    split; [reflexivity|]. cbn [rev app].
    rewrite (head_word_rev_app _ Hbw Hbne), xorb_true_l.
    now apply negb_true_iff, head_word_false.
Qed.

(** X14. Rule 8 passes exactly when the password holds "love" or "dove"
    and later "above" or "move", or "heart" or "smart" and later "art"
    or "part", or "light" or "bright" and later "height" or "might": in
    any case of the letters, each of the two as a whole word, with no
    line terminator between them.  The two words are always set apart by
    at least one code unit that is not a word character. *)
Theorem validator8_rhymes (value : jsstring) :
  validator8 value = Normal true <->
  rhymes value "love" "dove" "above" "move"
  \/ rhymes value "heart" "smart" "art" "part"
  \/ rhymes value "light" "bright" "height" "might".
Proof.
  unfold validator8, some, couplets. cbn [existsb]. rewrite orb_false_r.
  rewrite <- !test_couplet by reflexivity. split.
  - intros H. apply Normal_inj in H.
    repeat (apply orb_prop in H; destruct H as [H | H]); tauto.
  - intros H. f_equal.
    destruct H as [H | [H | H]]; rewrite H; now rewrite ?orb_true_r.
Qed.

(** * The schema and the rules *)

(** X15. The schema of [passwordSchema()] and the three rules of the
    first page judge alike: the issues of the schema are, in order, the
    descriptions of the rules that fail (that of rule 3 with a full stop
    added), and the schema accepts a password exactly when the three
    rules pass. *)
Theorem passwordSchema_rules3 (data : jsstring) :
  issues passwordSchema data
  = map (fun r => if id r =? 3 then String.append (description r) "."
                  else description r)
      (filter (fun r => negb (passes data r)) rules3)
  /\ (success passwordSchema data = true
      <-> forall r, In r rules3 -> validator r data = Normal true).
Proof.
  assert (Hlt : (length data <? 5) = negb (5 <=? length data))
    by (destruct (Nat.leb_spec 5 (length data)), (Nat.ltb_spec (length data) 5);
        reflexivity || lia).
  split.
  - unfold issues, passwordSchema, rules3, passes.
    cbn [flat_map firstn rules filter validator].
    unfold validator1, validator2, validator3. rewrite Hlt.
    destruct (5 <=? length data), (test re_number data),
      (test re_uppercase data); reflexivity.
  - unfold success, issues, passwordSchema. cbn [flat_map]. rewrite Hlt.
    split.
    + intros H r Hr. unfold rules3 in Hr. cbn [firstn rules] in Hr.
      destruct Hr as [<- | [<- | [<- | []]]]; cbn [validator];
        unfold validator1, validator2, validator3;
        destruct (5 <=? length data), (test re_number data),
          (test re_uppercase data); try discriminate H; reflexivity.
    + intros H.
      pose proof (H _ (or_introl eq_refl)) as H1.
      pose proof (H _ (or_intror (or_introl eq_refl))) as H2.
      pose proof (H _ (or_intror (or_intror (or_introl eq_refl)))) as H3.
      cbn [validator] in H1, H2, H3.
      unfold validator1, validator2, validator3 in *.
      apply Normal_inj in H1, H2, H3. rewrite H1, H2, H3. reflexivity.
Qed.

(** * Rule 9 and text without digits in front *)

Lemma equation_text_head (t a : jsstring) (op : N) (b r : jsstring) :
  equation_text t a op b r -> exists d l, t = d :: l /\ is_digit d = true.
Proof.
  intros (w1 & w2 & w3 & w4 & -> & (Ha & Hne) & _).
  destruct a as [|d a]; [contradiction|].
  apply all_in_cons in Ha. destruct Ha as [Hd _]. now exists d, (a ++ w1 ++ op :: w2 ++ b ++ w3 ++ cu "=" :: w4 ++ r).
Qed.

Lemma equation_at_skip (pre s : jsstring) (start : nat) (t a : jsstring)
    (op : N) (b r : jsstring) :
  existsb is_digit pre = false ->
  equation_at (pre ++ s) start t a op b r ->
  length pre <= start /\ equation_at s (start - length pre) t a op b r.
Proof.
  intros Hpre (p & post & E & <- & Ht).
  apply app_eq_app in E. destruct E as [l [[Ep El] | [Ep El]]].
  - destruct l as [|d' l].
    + rewrite app_nil_r in Ep. subst p. cbn [app] in El.
      split; [lia|]. rewrite Nat.sub_diag. exists [], post.
      now repeat split.
    + exfalso. destruct (@equation_text_head _ _ _ _ _ Ht) as (d & k & -> & Hd).
      cbn [app] in El. injection El as <- _. subst pre.
      rewrite existsb_app in Hpre. cbn [existsb] in Hpre.
      rewrite Hd, orb_true_r in Hpre. discriminate.
  - subst p. rewrite length_app. split; [lia|].
    replace (length pre + length l - length pre) with (length l) by lia.
    exists l, post. now repeat split.
Qed.

(** X16. Text without a digit put in front of the password does not
    change what rule 9 says. *)
Theorem validator9_front (pre s : jsstring) :
  existsb is_digit pre = false -> validator9 (pre ++ s) = validator9 s.
Proof.
  intros Hpre. destruct (match_ s re_equation) as [arr|] eqn:E.
  - apply match_equation_Some in E. destruct E as (t & a & op & b & r & Hf & _).
    rewrite (@validator9_first_equation _ _ _ _ _ _ Hf).
    apply (@validator9_first_equation (pre ++ s) t a op b r).
    destruct Hf as (p & post & -> & Ht & Hpost & Hmin).
    exists (pre ++ p), post. split; [now rewrite <- app_assoc|].
    split; [exact Ht|]. split; [exact Hpost|].
    intros start' t' a' op' b' r' Hat.
    apply (@equation_at_skip pre _ _ _ _ _ _ _ Hpre) in Hat.
    destruct Hat as [Hle Hat].
    apply Hmin in Hat. rewrite length_app. lia.
  - pose proof (proj1 (match_equation_None s) E) as En. clear E.
    rename En into E. rewrite (@validator9_no_equation _ E).
    apply validator9_no_equation. intros start t a op b r Hat.
    apply (@equation_at_skip pre _ _ _ _ _ _ _ Hpre) in Hat.
    destruct Hat as [_ Hat].
    exact (E _ _ _ _ _ _ Hat).
Qed.

Lemma validator9_front_witness :
  validator9 (str "abc " ++ str "2+2=4") = validator9 (str "2+2=4").
Proof.
  apply (@validator9_front (str "abc ") (str "2+2=4")). reflexivity.
Defined.

(** * The effect of the other pages *)

(** X17. The effect of the pages in [password-schema.tsx], applied to
    the state it has read, gives the state that [updateVisibleRules] of
    [PasswordGamePage] computes: the two ways of writing the reveal step
    agree, for every rule set, password and state. *)
Theorem effect_updateVisibleRules (rs : list Rule) (password : jsstring)
    (visibleRules : list nat) :
  (u <- effect rs password visibleRules ;;
   Normal (apply_update u visibleRules))
  = updateVisibleRules rs password visibleRules.
Proof.
  unfold effect, updateVisibleRules. destruct password as [|ch s]; [reflexivity|].
  destruct (length visibleRules =? 0); [reflexivity|]. cbv zeta.
  destruct (evaluate rs _ (ch :: s)) as [[|]|e]; cbn [bind]; try reflexivity.
  now destruct (_ && _).
Qed.

(** X18. The effect makes no call, so that the page is not rendered
    again, exactly in the settled states: from the state [1..k] with a
    non-empty password, when rule [k] is the last rule or does not
    pass. *)
Theorem effect_settled (rs : list Rule) (password : jsstring) (k : nat) :
  numbered rs -> password <> [] -> 1 <= k <= length rs ->
  (effect rs password (seq 1 k) = Normal None
   <-> k = length rs \/ evaluate rs k password = Normal false).
Proof.
  intros Hrs Hp Hk. unfold effect. destruct password as [|ch s]; [contradiction|].
  cbv zeta. rewrite nth_last_elem, length_seq.
  destruct k as [|j]; [lia|]. cbn [Nat.eqb].
  rewrite last_seq. change (1 + j) with (S j).
  destruct (@numbered_evaluate_returns rs Hrs (S j) (ch :: s)) as [valid ->].
  cbn [bind].
  replace (includes (seq 1 (S j)) (S j + 1)) with false
    by (symmetry; apply not_true_is_false; intros H; apply includes_In in H;
        apply in_seq in H; lia).
  rewrite andb_true_r.
  destruct valid; [|split; [now right | reflexivity]].
  destruct (Nat.leb_spec (S j + 1) (length rs)) as [Hle | Hle].
  - split; [discriminate|]. intros [E | E]; [lia | discriminate].
  - split; [intros _; left; lia | reflexivity].
Qed.

Lemma effect_settled_witness :
  effect rules3 (str "abcde") (seq 1 2) = Normal None.
Proof.
  apply (@effect_settled rules3 (str "abcde") 2 rules3_numbered);
    [discriminate | vm_compute; lia | right; reflexivity].
Defined.

(** * The schema of the page and rule 5 *)

Lemma star_run_matches (p : N -> bool) (c : Continuation)
    (caps : list (option jsstring)) (after before : list N) :
  star_run p c before after caps <> None <->
  exists u tail,
    after = u ++ tail /\ all_in p u
    /\ c (mkState (rev u ++ before) tail caps) <> None.
Proof.
  revert before. induction after as [|ch after IH]; intros before.
  - cbn [star_run]. split.
    + intros H. now exists [], [].
    + intros (u & tail & E & _ & H). symmetry in E.
      apply app_eq_nil in E. destruct E as [-> ->]. exact H.
  - cbn [star_run]. destruct (p ch) eqn:Hp.
    + etransitivity; [apply option_or_not_None|]. rewrite IH. split.
      * intros [(u & tail & -> & Hu & H) | H].
        -- exists (ch :: u), tail. split; [reflexivity|].
           split; [apply all_in_cons; now split|].
           cbn [rev]. now rewrite <- app_assoc.
        -- now exists [], (ch :: after).
      * intros (u & tail & E & Hu & H). destruct u as [|ch' u].
        -- right. cbn [app] in E. subst tail. exact H.
        -- left. cbn [app] in E. injection E as <- ->.
           apply all_in_cons in Hu. destruct Hu as [_ Hu].
           exists u, tail. split; [reflexivity|]. split; [exact Hu|].
           cbn [rev] in H. now rewrite <- app_assoc in H.
    + split.
      * intros H. now exists [], (ch :: after).
      * intros (u & tail & E & Hu & H). destruct u as [|ch' u].
        -- cbn [app] in E. subst tail. exact H.
        -- cbn [app] in E. injection E as <- ->.
           apply all_in_cons in Hu. destruct Hu as [Hu _]. congruence.
Qed.

(** The pattern inside the lookahead finds a run of three that [.]
    reaches from the start of the text. *)
Lemma matchAt_ahead (before after : list N) :
  matchAt re_ahead before after <> None <->
  exists u c post,
    after = u ++ c :: c :: c :: post /\ all_in is_dot u /\ is_dot c = true.
Proof.
  assert (E : matchAt re_ahead before after
    = star_run is_dot
        (fun y => compile false (Group 1 dot ++ Exactly 2 (Backref 1)) y Some)
        before after [None]).
  { unfold matchAt, nCaptures, re_ahead. cbn [source ignoreCase].
    unfold dot at 1.
    exact (compile_star_class is_dot
             (mkState before after [None])
             (fun y => compile false (Group 1 dot ++ Exactly 2 (Backref 1)) y Some)). }
  rewrite E, star_run_matches. split.
  - intros (u & tail & -> & Hu & H).
    change (matchAt re_repeated (rev u ++ before) tail <> None) in H.
    apply matchAt_repeated in H.
    destruct H as (c & post & -> & Hc). now exists u, c, post.
  - intros (u & c & post & -> & Hu & Hc). exists u, (c :: c :: c :: post).
    split; [reflexivity|]. split; [exact Hu|].
    change (matchAt re_repeated (rev u ++ before) (c :: c :: c :: post) <> None).
    apply matchAt_repeated. now exists c, post.
Qed.

Lemma test_not_ahead_first_line (data : jsstring) :
  test_not_ahead re_ahead data = false <->
  exists u c post,
    data = u ++ c :: c :: c :: post /\ all_in is_dot u /\ is_dot c = true.
Proof.
  rewrite <- (matchAt_ahead [] data). unfold test_not_ahead.
  destruct (matchAt re_ahead [] data); split; congruence.
Qed.

(** X19. The schema of [page.tsx] against the first five rules.  On a
    password without line terminators the schema accepts exactly when
    rules 1 to 5 pass.  On every password the five rules passing makes
    the schema accept, but not the other way round: the lookahead of the
    last check, [^(?!.*(.)\1{2})], only sees runs of three that [.]
    reaches from the start, that is, on the first line, so a password
    with a run of three on a later line is accepted by the schema and
    fails rule 5. *)
Theorem pagePasswordSchema_rules5 :
  (forall data,
     (forall r, In r (firstn 5 rules) -> validator r data = Normal true) ->
     success pagePasswordSchema data = true)
  /\ (forall data,
        all_in is_dot data ->
        success pagePasswordSchema data = true ->
        forall r, In r (firstn 5 rules) -> validator r data = Normal true)
  /\ (exists data,
        success pagePasswordSchema data = true
        /\ validator5 data = Normal false).
Proof.
  assert (Hlt : forall data : jsstring,
            (length data <? 5) = negb (5 <=? length data))
    by (intros data;
        destruct (Nat.leb_spec 5 (length data)), (Nat.ltb_spec (length data) 5);
        reflexivity || lia).
  split; [|split].
  - intros data H.
    pose proof (H _ (or_introl eq_refl)) as H1.
    pose proof (H _ (or_intror (or_introl eq_refl))) as H2.
    pose proof (H _ (or_intror (or_intror (or_introl eq_refl)))) as H3.
    pose proof (H _ (or_intror (or_intror (or_intror (or_introl eq_refl)))))
      as H4.
    pose proof (H _ (or_intror (or_intror (or_intror (or_intror
                       (or_introl eq_refl)))))) as H5.
    cbn [validator] in H1, H2, H3, H4, H5.
    unfold validator1, validator2, validator3, validator4, validator5 in *.
    apply Normal_inj in H1, H2, H3, H4, H5. apply negb_true_iff in H5.
    unfold success, issues, pagePasswordSchema, passwordSchema.
    cbn [app flat_map]. rewrite Hlt, H1, H2, H3, H4.
    replace (test_not_ahead re_ahead data) with true; [reflexivity|].
    symmetry. apply not_false_is_true. intros Ha.
    apply test_not_ahead_first_line in Ha.
    destruct Ha as (u & c & post & -> & _ & Hc).
    assert (Ht : test re_repeated (u ++ c :: c :: c :: post) = true).
    { apply test_repeated. exists u, c, post.
      split; [reflexivity | now apply is_dot_line_terminator]. }
    congruence.
  - intros data Hdot Hs r Hr.
    unfold success, issues, pagePasswordSchema, passwordSchema in Hs.
    cbn [app flat_map] in Hs. rewrite Hlt in Hs.
    destruct (5 <=? length data) eqn:E1; [|discriminate Hs].
    destruct (test re_number data) eqn:E2; [|discriminate Hs].
    destruct (test re_uppercase data) eqn:E3; [|discriminate Hs].
    destruct (test re_special data) eqn:E4; [|discriminate Hs].
    destruct (test_not_ahead re_ahead data) eqn:E5; [|discriminate Hs].
    cbn [firstn rules] in Hr.
    destruct Hr as [<- | [<- | [<- | [<- | [<- | []]]]]]; cbn [validator];
      unfold validator1, validator2, validator3, validator4, validator5;
      rewrite ?E1, ?E2, ?E3, ?E4; try reflexivity.
    f_equal. apply negb_true_iff, not_true_is_false. intros Ht.
    apply test_repeated in Ht. destruct Ht as (u & c & post & -> & Hc).
    apply all_in_app in Hdot. destruct Hdot as [Hu _].
    assert (Ha : test_not_ahead re_ahead (u ++ c :: c :: c :: post) = false).
    { apply test_not_ahead_first_line. exists u, c, post.
      split; [reflexivity|]. split; [exact Hu | now apply is_dot_line_terminator]. }
    congruence.
  - exists (str "Ab1!" ++ 10%N :: str "xxx"). split; reflexivity.
Qed.

Lemma pagePasswordSchema_rules5_witness :
  validator5 (str "Abc1!") = Normal true.
Proof.
  apply (proj1 (proj2 pagePasswordSchema_rules5) (str "Abc1!") eq_refl eq_refl
           (mkRule 5 "Your password cannot have 3 consecutive repeated characters"
              validator5)).
  do 4 right. left. reflexivity.
Defined.

(** * Typing before and after: rules 7, 8 and 10 *)

Lemma denotes_context (ic : bool) (r : regex) :
  context_free r = true ->
  forall before w after before' after',
    denotes ic r before w after -> denotes ic r before' w after'.
Proof.
  induction r as [ | a | invert p | r1 IH1 r2 IH2 | r1 IH1 r2 IH2
                 | r1 IH1 min max | n r1 IH1 | n | ];
    cbn [context_free]; intros Hr before w after before' after';
    try (intros H; exact H); try discriminate.
  - apply andb_prop in Hr. destruct Hr as [Hr1 Hr2].
    cbn [denotes]. intros (w1 & w2 & -> & H1 & H2). exists w1, w2.
    split; [reflexivity|]. split; [eapply IH1 | eapply IH2]; eassumption.
  - apply andb_prop in Hr. destruct Hr as [Hr1 Hr2].
    cbn [denotes]. intros [H | H]; [left; eapply IH1 | right; eapply IH2];
      eassumption.
  - cbn [denotes]. now apply IH1.
Qed.

Lemma test_extend (re : RegExp) (s u v : jsstring) :
  plain (source re) = true -> context_free (source re) = true ->
  test re s = true -> test re (u ++ s ++ v) = true.
Proof.
  intros Hp Hc. rewrite !test_plain by assumption.
  intros (pre & w & post & -> & Hd). exists (u ++ pre), w, (post ++ v).
  split; [now rewrite <- !app_assoc|].
  now apply (@denotes_context (ignoreCase re) (source re) Hc (rev pre) w post).
Qed.

(** X20. Rule 10 stays satisfied whatever is typed before or after the
    password. *)
Theorem validator10_extend (s u v : jsstring) :
  validator10 s = Normal true -> validator10 (u ++ s ++ v) = Normal true.
Proof.
  unfold validator10, some. intros H. apply Normal_inj in H. f_equal.
  apply existsb_exists in H. destruct H as (ref & Hin & Ht).
  apply existsb_exists. exists ref. split; [exact Hin|].
  apply test_extend; [| | exact Ht]; cbn [historicalReferences In] in Hin;
    repeat (destruct Hin as [<- | Hin]; [reflexivity|]); contradiction.
Qed.

Lemma validator10_extend_witness :
  validator10 (str "I. " ++ str "Newton's gravity" ++ str "!") = Normal true.
Proof.
  apply (@validator10_extend (str "Newton's gravity") (str "I. ") (str "!")).
  reflexivity.
Defined.

Lemma no_head_app_both (p : N -> bool) (l1 l2 : jsstring) :
  no_head p l1 -> no_head p l2 -> no_head p (l1 ++ l2).
Proof. intros H1 H2. now destruct l1. Qed.

Lemma test_year_contains (value : jsstring) :
  test re_year value = true <-> contains_year value.
Proof.
  rewrite test_true. split.
  - intros (pre & post & -> & Hm). apply matchAt_year in Hm.
    destruct Hm as (Hpre & y & post' & -> & Hy & Hpost).
    now exists pre, y, post'.
  - intros (pre & y & post & -> & Hy & Hpre & Hpost).
    exists pre, (y ++ post). split; [reflexivity|].
    apply matchAt_year. split; [assumption|]. now exists y, post.
Qed.

Lemma rhymes_set_apart (s u v : jsstring) (a1 a2 b1 b2 : String.string) :
  no_head is_word_char (rev u) -> no_head is_word_char v ->
  rhymes s a1 a2 b1 b2 -> rhymes (u ++ s ++ v) a1 a2 b1 b2.
Proof.
  intros Hu Hv (pre & a & mid & b & post & -> & Ha & Hb & Hmid & Hne
                & Hpre & Hm1 & Hm2 & Hpost).
  exists (u ++ pre), a, mid, b, (post ++ v).
  split; [now rewrite <- !app_assoc|].
  repeat split; try assumption.
  - rewrite rev_app_distr. now apply no_head_app_both.
  - now apply no_head_app_both.
Qed.

(** X21. Rules 7 and 8 stay satisfied when text is typed before and
    after the password, provided the text before does not end with a
    word character ([A-Za-z0-9_]) and the text after does not start with
    one.  Without the proviso they may be lost: a digit typed after a
    year, a letter typed before a rhyme word. *)
Theorem validator7_8_set_apart :
  (forall s u v,
     no_head is_word_char (rev u) -> no_head is_word_char v ->
     (validator7 s = Normal true -> validator7 (u ++ s ++ v) = Normal true)
     /\ (validator8 s = Normal true -> validator8 (u ++ s ++ v) = Normal true))
  /\ (validator7 (str "1984") = Normal true
      /\ validator7 (str "1984" ++ str "5") = Normal false)
  /\ (validator8 (str "love above") = Normal true
      /\ validator8 (str "g" ++ str "love above") = Normal false).
Proof.
  split; [|split; split; reflexivity].
  intros s u v Hu Hv. split.
  - unfold validator7. intros H. apply Normal_inj in H. f_equal.
    apply test_year_contains in H. apply test_year_contains.
    destruct H as (pre & y & post & -> & Hy & Hpre & Hpost).
    exists (u ++ pre), y, (post ++ v). split; [now rewrite <- !app_assoc|].
    split; [exact Hy|]. split.
    + rewrite rev_app_distr. now apply no_head_app_both.
    + now apply no_head_app_both.
  - unfold validator8, some. intros H. apply Normal_inj in H. f_equal.
    apply existsb_exists in H. destruct H as (couplet & Hin & Ht).
    apply existsb_exists. exists couplet. split; [exact Hin|].
    cbn [couplets In] in Hin.
    repeat (destruct Hin as [<- | Hin];
            [ apply test_couplet; try reflexivity;
              apply test_couplet in Ht; try reflexivity;
              now apply rhymes_set_apart |]).
    contradiction.
Qed.

Lemma validator7_8_set_apart_witness :
  validator7 (str "in " ++ str "1984" ++ str ".") = Normal true.
Proof.
  apply (proj1 (proj1 validator7_8_set_apart (str "1984") (str "in ") (str ".")
                  eq_refl eq_refl)).
  reflexivity.
Defined.
